(** * The HTTP client of [stoner] (package [http]): retry loop, request
    construction, JSON layer, context entry point and rate limiter.

    The development embeds [Client.Do], [Client.doRequest], [Client.JSON],
    [Client.WithContext], [pow], [NewRateLimiter] and [RateLimiter.Wait]
    and states the properties of the request-execution design against
    them.

    Conventions of the embedding.
    - Go's [int] (64 bits wide), [int64] and [time.Duration] are [Z];
      where the code can overflow, the wrap-around is written with
      [wrap64].
    - Go's [float64] is IEEE 754 binary64, taken from the Standard
      Library's [SpecFloat] with [prec = 53] and [emax = 1024].
    - [map[string]string] is [gmap string string]; [http.Header] is
      [gmap string (list string)] keyed by canonical MIME header names.
    - A [range] over a map visits the entries in an order that is a
      parameter of the development: one order per map, or an order per
      attempt of [Do] where a property depends on it.
    - A Go function returning a response pointer and an [error] returns
      a pair of options here, [None] standing for [nil].
    - Calls that leave the process (the JSON codec, the construction of a
      [net/http] request, the transport, [time.Sleep]) are recorded in a
      chronological trace threaded through a state monad; what the outside
      answers is a parameter of the development.
    - Pointers to [Request], [RetryConfig] and [CircuitBreaker] are taken
      non-nil, as [NewClient] and the verb helpers establish.

    The package [uuid] of the same source follows: [UUID.String],
    [NewV4], [NewUUIDString], [NewWithNamespace], [Parse] and [IsValid].
    - A byte is a [Z] between 0 and 255, with [Z.land] and [Z.lor] for
      the bit operations; a [UUID] is a list of 16 of them.
    - The random source and [fmt.Sscanf] are parameters; the pattern of
      [Parse] and [IsValid] is matched by a matcher for sequences of
      character classes. *)

From Stdlib Require Import ZArith Lia Bool Ascii QArith Qpower.
From Stdlib Require Import Floats.SpecFloat.
From stdpp Require Import gmap strings list fin_maps.

Local Open Scope Z_scope.

(** ** Machine integers *)

Definition min_int64 : Z := - 2 ^ 63.
Definition max_int64 : Z := 2 ^ 63 - 1.

(** Two's complement wrap-around of a 64-bit signed result. *)
Definition wrap64 (z : Z) : Z := (z + 2 ^ 63) mod 2 ^ 64 - 2 ^ 63.

Definition in_int64 (z : Z) : bool := (min_int64 <=? z) && (z <=? max_int64).

(** [time.Duration] counts nanoseconds. *)
Definition Nanosecond : Z := 1.
Definition Millisecond : Z := 1000000.
Definition Second : Z := 1000000000.

(** ** float64 *)

Module F64.

Definition prec : Z := 53.
Definition emax : Z := 1024.

Definition mul : spec_float -> spec_float -> spec_float := SFmul prec emax.

(** [float64(z)] for an integer [z]: round to nearest, ties to even. *)
Definition of_int (z : Z) : spec_float := binary_normalize prec emax z 0 false.

(** The constant [1.0]. *)
Definition one : spec_float := S754_finite false (2 ^ 52) (-52).

(** Integer part of a finite float, rounding toward zero. *)
Definition trunc (f : spec_float) : option Z :=
  match f with
  | S754_zero _ => Some 0
  | S754_finite s m e =>
      Some (cond_Zopp s
              (match e with
               | Z0 => Zpos m
               | Zpos _ => Z.shiftl (Zpos m) e
               | Zneg _ => Z.shiftr (Zpos m) (- e)
               end))
  | S754_infinity _ | S754_nan => None
  end.

(** What a float-to-integer conversion yields when the value does not fit
    (NaN, infinities, out of range).  Go leaves it to the implementation;
    this is the amd64 result. *)
Definition indefinite : Z := min_int64.

(** [int64(f)], also [int(f)] and [time.Duration(f)]. *)
Definition to_int (f : spec_float) : Z :=
  match trunc f with
  | Some z => if in_int64 z then z else indefinite
  | None => indefinite
  end.

(** The number of binary digits of an integer. *)
Definition digits (z : Z) : Z := Zdigits2 z.

(** The float that holds [z * 2^t] for a [z >= 0] of at most 53 binary
    digits: the mantissa is [z] shifted to 53 digits. *)
Definition dyadic (z t : Z) : spec_float :=
  match z with
  | Zpos _ =>
      S754_finite false (Z.to_pos (Z.shiftl z (prec - digits z)))
        (t + digits z - prec)
  | _ => S754_zero false
  end.

(** The rational a float denotes; infinities and NaN denote nothing. *)
Definition to_Q (f : spec_float) : option Q :=
  match f with
  | S754_zero _ => Some 0%Q
  | S754_finite s m e =>
      Some (inject_Z (cond_Zopp s (Zpos m)) * Qpower 2 e)%Q
  | S754_infinity _ | S754_nan => None
  end.

End F64.

(** [pow] of the source: [x] multiplied into [1.0] once per loop turn, the
    loop running while [i < int(y)]. *)
Definition pow (x y : spec_float) : spec_float :=
  Nat.iter (Z.to_nat (F64.to_int y)) (fun result => F64.mul result x) F64.one.

(** ** Rounding

    Vocabulary of the proofs about [F64.mul], none of it part of the
    program: what the multiplication of [SpecFloat] does to a product
    that needs more than 53 digits, written out on integers, the floats
    from 1 upwards with their order, and the floats below the normal
    range. *)

(** [M / 2^s] rounded to the nearest integer, ties to the even one. *)
Definition rne (M s : Z) : Z :=
  let q := M / 2 ^ s in
  let r := M mod 2 ^ s in
  if (2 ^ s <? 2 * r) || ((2 ^ s =? 2 * r) && Z.odd q) then q + 1 else q.

(** A positive number [M * 2^E] of at least 53 binary digits, rounded to
    53 digits; beyond the largest exponent the result is infinite. *)
Definition round_pos (M E : Z) : spec_float :=
  let s := F64.digits M - 53 in
  let m := rne M s in
  let '(m, e) := if m =? 2 ^ 53 then (2 ^ 52, E + s + 1) else (m, E + s) in
  if e <=? 971 then S754_finite false (Z.to_pos m) e else S754_infinity false.

(** [M1 * 2^E1 <= M2 * 2^E2], compared over the smaller exponent. *)
Definition vle (M1 E1 M2 E2 : Z) : Prop :=
  M1 * 2 ^ (E1 - Z.min E1 E2) <= M2 * 2 ^ (E2 - Z.min E1 E2).

(** A float in canonical form that is not below 1. *)
Definition big (f : spec_float) : Prop :=
  match f with
  | S754_finite false m e => 2 ^ 52 <= Zpos m < 2 ^ 53 /\ -52 <= e <= 971
  | _ => False
  end.

(** The order of such floats and plus infinity. *)
Definition fle (x y : spec_float) : Prop :=
  match x, y with
  | S754_finite false m1 e1, S754_finite false m2 e2 =>
      vle (Zpos m1) e1 (Zpos m2) e2
  | (S754_finite false _ _ | S754_infinity false), S754_infinity false => True
  | _, _ => False
  end.

(** Such a float, or plus infinity. *)
Definition bigi (f : spec_float) : Prop := big f \/ f = S754_infinity false.

(** A float below the normal range: zero, or a float with the least
    exponent and a mantissa of at most [2^52]. *)
Definition small (f : spec_float) : Prop :=
  match f with
  | S754_zero false => True
  | S754_finite false m e => e = -1074 /\ Zpos m <= 2 ^ 52
  | _ => False
  end.

(** The record [shr] keeps of a mantissa [M] after [k] shifts: the
    quotient, the round bit and the sticky bit. *)
Definition shifted (M : Z) (k : nat) : shr_record :=
  let r := M mod 2 ^ Z.of_nat k in
  {| shr_m := M / 2 ^ Z.of_nat k;
     shr_r := 2 ^ Z.of_nat k <=? 2 * r;
     shr_s := negb (r =? 0) && negb (2 * r =? 2 ^ Z.of_nat k) |}.

(** ** Header names

    [http.Header.Set] stores a value under the canonical form of its key
    ([textproto.CanonicalMIMEHeaderKey]): a key made of token bytes only
    has its first letter and every letter after a hyphen in upper case and
    the others in lower case; any other key is left as it is. *)

Definition is_lower (c : ascii) : bool :=
  let n := N_of_ascii c in ((97 <=? n) && (n <=? 122))%N.
Definition is_upper (c : ascii) : bool :=
  let n := N_of_ascii c in ((65 <=? n) && (n <=? 90))%N.
Definition is_digit (c : ascii) : bool :=
  let n := N_of_ascii c in ((48 <=? n) && (n <=? 57))%N.

Definition to_upper (c : ascii) : ascii := ascii_of_N (N_of_ascii c - 32).
Definition to_lower (c : ascii) : ascii := ascii_of_N (N_of_ascii c + 32).

Definition token_punctuation : list ascii :=
  ["!"; "#"; "$"; "%"; "&"; "'"; "*"; "+"; "-"; "."; "^"; "_"; "`"; "|"; "~"]%char.

Definition validHeaderFieldByte (c : ascii) : bool :=
  is_lower c || is_upper c || is_digit c
  || existsb (Ascii.eqb c) token_punctuation.

Fixpoint all_bytes (p : ascii -> bool) (s : string) : bool :=
  match s with
  | EmptyString => true
  | String c s' => p c && all_bytes p s'
  end.

Fixpoint canonical_case (upper : bool) (s : string) : string :=
  match s with
  | EmptyString => EmptyString
  | String c s' =>
      let c' := if upper && is_lower c then to_upper c
                else if negb upper && is_upper c then to_lower c
                else c in
      String c' (canonical_case (Ascii.eqb c' "-") s')
  end.

Definition CanonicalMIMEHeaderKey (s : string) : string :=
  if all_bytes validHeaderFieldByte s then canonical_case true s else s.

Abbreviation Header := (gmap string (list string)).

(** [h.Set(key, value)] *)
Definition Header_Set (key value : string) (h : Header) : Header :=
  <[CanonicalMIMEHeaderKey key := [value]]> h.

(** [h.Get(key)], with [None] where Go returns the empty string for an
    absent key. *)
Definition Header_Get (key : string) (h : Header) : option string :=
  h !! CanonicalMIMEHeaderKey key ≫= head.

(** [for key, value := range m { h.Set(key, value) }], the entries visited
    in the order [entries]. *)
Definition set_all (entries : list (string * string)) (h : Header) : Header :=
  fold_left (fun h kv => Header_Set kv.1 kv.2 h) entries h.

(** [k] is the only key of [m] with its canonical name. *)
Definition sole_name (m : gmap string string) (k : string) : Prop :=
  forall k', is_Some (m !! k') ->
    CanonicalMIMEHeaderKey k' = CanonicalMIMEHeaderKey k -> k' = k.

(** No key of [m] has the canonical name [K]. *)
Definition no_name (m : gmap string string) (K : string) : Prop :=
  forall k', CanonicalMIMEHeaderKey k' = K -> m !! k' = None.

(** No two keys of [m] share a canonical name. *)
Definition distinct_names (m : gmap string string) : Prop :=
  forall k, is_Some (m !! k) -> sole_name m k.

(** [validMethod] of [net/http]: a non-empty string of token bytes. *)
Definition validMethod (method : string) : bool :=
  negb (String.eqb method "") && all_bytes validHeaderFieldByte method.

(** ** Errors

    [fmt.Errorf] with [%w] wraps its cause; each format string of the
    package is a constructor. *)

#[warnings="-register-all"]
Inductive Error : Type :=
| ErrLib (msg : string)
    (* an error made by a library, known by its message *)
| ErrInvalidMethod (method : string)
    (* net/http: invalid method %q *)
| ErrMarshalBody (cause : Error)
    (* failed to marshal body: %w *)
| ErrCreateRequest (cause : Error)
    (* failed to create request: %w *)
| ErrRequestFailed (cause : Error)
    (* request failed: %w *)
| ErrReadBody (cause : Error)
    (* failed to read response body: %w *)
| ErrAfterAttempts (attempts : Z) (cause : option Error)
    (* request failed after %d attempts: %w *)
| ErrHTTP (status : Z).
    (* HTTP error: %d *)

(** [errors.Unwrap] *)
Definition Unwrap (e : Error) : option Error :=
  match e with
  | ErrMarshalBody c | ErrCreateRequest c | ErrRequestFailed c | ErrReadBody c => Some c
  | ErrAfterAttempts _ c => c
  | ErrLib _ | ErrInvalidMethod _ | ErrHTTP _ => None
  end.

Definition bytes : Type := list Byte.byte.

(** ** Data model *)

Record HttpClient : Type := { Timeout : Z }.

Record RetryConfig : Type := {
  MaxRetries : Z;
  Delay : Z;
  Backoff : spec_float
}.

Record CircuitBreaker : Type := {
  MaxFailures : Z;
  cbTimeout : Z;
  ResetTimeout : Z
}.

Record Client : Type := {
  httpClient : HttpClient;
  baseURL : string;
  defaultHeaders : gmap string string;
  retryConfig : RetryConfig;
  circuitBreaker : CircuitBreaker
}.

Record Response : Type := {
  StatusCode : Z;
  Headers : Header;
  Body : bytes
}.

Definition NewClient (baseURL : string) : Client :=
  {| httpClient := {| Timeout := 30 * Second |};
     baseURL := baseURL;
     defaultHeaders := ∅;
     retryConfig := {| MaxRetries := 3; Delay := 1 * Second;
                       Backoff := F64.of_int 2 |};
     circuitBreaker := {| MaxFailures := 5; cbTimeout := 30 * Second;
                          ResetTimeout := 60 * Second |} |}.

Definition SetTimeout (timeout : Z) (c : Client) : Client :=
  {| httpClient := {| Timeout := timeout |};
     baseURL := baseURL c;
     defaultHeaders := defaultHeaders c;
     retryConfig := retryConfig c;
     circuitBreaker := circuitBreaker c |}.

Definition SetRetryConfig (config : RetryConfig) (c : Client) : Client :=
  {| httpClient := httpClient c;
     baseURL := baseURL c;
     defaultHeaders := defaultHeaders c;
     retryConfig := config;
     circuitBreaker := circuitBreaker c |}.

Definition SetCircuitBreaker (config : CircuitBreaker) (c : Client) : Client :=
  {| httpClient := httpClient c;
     baseURL := baseURL c;
     defaultHeaders := defaultHeaders c;
     retryConfig := retryConfig c;
     circuitBreaker := config |}.

Definition SetDefaultHeader (key value : string) (c : Client) : Client :=
  {| httpClient := httpClient c;
     baseURL := baseURL c;
     defaultHeaders := <[key := value]> (defaultHeaders c);
     retryConfig := retryConfig c;
     circuitBreaker := circuitBreaker c |}.

(** [SetDefaultHeaders]: the loop assigns the entries of [headers] one
    after the other, in the order in which [range] yields them. *)
Definition SetDefaultHeaders
    (range_order : gmap string string -> list (string * string))
    (headers : gmap string string) (c : Client) : Client :=
  {| httpClient := httpClient c;
     baseURL := baseURL c;
     defaultHeaders :=
       fold_left (fun m kv => <[kv.1 := kv.2]> m) (range_order headers)
                 (defaultHeaders c);
     retryConfig := retryConfig c;
     circuitBreaker := circuitBreaker c |}.

(** The delay slept after failed attempt number [attempt]:
    [time.Duration(float64(Delay) * pow(Backoff, float64(attempt)))]. *)
Definition backoff_delay (cfg : RetryConfig) (attempt : Z) : Z :=
  F64.to_int
    (F64.mul (F64.of_int (Delay cfg))
             (pow (Backoff cfg) (F64.of_int attempt))).

(** A returned pair holds a response and no error, or an error and no
    response. *)
Definition exactly_one (r : option Response * option Error) : Prop :=
  (is_Some r.1 /\ r.2 = None) \/ (r.1 = None /\ is_Some r.2).

(** ** The client against its collaborators *)

Section Http.

(** Dynamic values carried by [interface{}]: request bodies and decoding
    destinations. *)
Variable Any : Type.

(** [context.Context] values, with [context.Background()]. *)
Variable Context : Type.
Variable Background : Context.

(** The payload codec. [json_Unmarshal data dst] gives what the
    destination holds afterwards and the error. *)
Variable json_Marshal : Any -> bytes + Error.
Variable json_Unmarshal : bytes -> Any -> Any * option Error.

(** [url.Parse], as far as [http.NewRequest] depends on it. *)
Variable url_Parse : string -> option Error.

Record Request : Type := {
  Method : string;
  URL : string;
  ReqHeaders : gmap string string;
  ReqBody : option Any;
  Query : gmap string string
}.

(** [http.Request] as the transport receives it. *)
Record HttpRequest : Type := {
  hMethod : string;
  hURL : string;
  hHeader : Header;
  hBody : option bytes;
  hCtx : Context
}.

Definition with_header (f : Header -> Header) (r : HttpRequest) : HttpRequest :=
  {| hMethod := hMethod r; hURL := hURL r; hHeader := f (hHeader r);
     hBody := hBody r; hCtx := hCtx r |}.

(** What one call of [(http.Client).Do] brings back: an error, or a
    response whose body [io.ReadAll] then reads or fails to read. *)
Inductive RoundTrip : Type :=
| RTError (err : Error)
| RTResponse (status : Z) (header : Header) (body : bytes + Error).

(** The remote side: its answer to the [n]-th transport invocation of the
    run (counted from 0). *)
Variable transport : nat -> HttpClient -> HttpRequest -> RoundTrip.

(** The order in which [range] visits the entries of a map. The language
    does not specify it and chooses it anew at every [range] statement.
    The functions of this section take one order per map; [Do_anew]
    below runs the loop of [Do] with orders of its own in every attempt.
    Where the keys of a map have distinct canonical names every order
    gives the same headers, and the two runs are the same. *)
Variable range_order : gmap string string -> list (string * string).

Inductive Event : Type :=
| EvMarshal (v : Any)
| EvNewRequest (method url : string)
| EvSend (hc : HttpClient) (r : HttpRequest)
| EvSleep (d : Z)
| EvUnmarshal (data : bytes).

Definition is_send (e : Event) : bool :=
  match e with EvSend _ _ => true | _ => false end.
Definition is_sleep (e : Event) : bool :=
  match e with EvSleep _ => true | _ => false end.
Definition is_marshal (e : Event) : bool :=
  match e with EvMarshal _ => true | _ => false end.
Definition is_new_request (e : Event) : bool :=
  match e with EvNewRequest _ _ => true | _ => false end.
Definition is_unmarshal (e : Event) : bool :=
  match e with EvUnmarshal _ => true | _ => false end.

Definition count (p : Event -> bool) (t : list Event) : nat :=
  length (List.filter p t).

(** The requests handed to the transport, oldest first. *)
Definition sent (t : list Event) : list HttpRequest :=
  omap (fun e => match e with EvSend _ r => Some r | _ => None end) t.

(** The durations slept, oldest first. *)
Definition slept (t : list Event) : list Z :=
  omap (fun e => match e with EvSleep d => Some d | _ => None end) t.

(** *** The trace monad *)

Definition M (A : Type) : Type := list Event -> A * list Event.

#[local] Instance M_ret : MRet M := fun A a t => (a, t).
#[local] Instance M_bind : MBind M :=
  fun A B f m t => let '(a, t') := m t in f a t'.

Definition emit (e : Event) : M unit := fun t => (tt, t ++ [e]).

(** [time.Sleep(d)] *)
Definition time_Sleep (d : Z) : M unit := emit (EvSleep d).

(** [json.Marshal(v)] *)
Definition Marshal (v : Any) : M (bytes + Error) :=
  emit (EvMarshal v);; mret (json_Marshal v).

(** [json.Unmarshal(data, dst)] *)
Definition Unmarshal (data : bytes) (dst : Any) : M (Any * option Error) :=
  emit (EvUnmarshal data);; mret (json_Unmarshal data dst).

(** [http.NewRequestWithContext(ctx, method, url, body)]: an empty method
    means GET, the method must be a token, the context non-nil and the
    URL must parse; the request starts with no header. *)
Definition http_NewRequestWithContext (ctx : option Context)
    (method url : string) (body : option bytes) : M (HttpRequest + Error) :=
  emit (EvNewRequest method url);;
  let method := if String.eqb method "" then "GET" else method in
  if negb (validMethod method) then mret (inr (ErrInvalidMethod method))
  else match ctx with
       | None => mret (inr (ErrLib "net/http: nil Context"))
       | Some ctx =>
           match url_Parse url with
           | Some err => mret (inr err)
           | None =>
               mret (inl {| hMethod := method; hURL := url; hHeader := ∅;
                            hBody := body; hCtx := ctx |})
           end
       end.

(** [http.NewRequest] is [NewRequestWithContext] on the background
    context. *)
Definition http_NewRequest (method url : string) (body : option bytes)
  : M (HttpRequest + Error) :=
  http_NewRequestWithContext (Some Background) method url body.

(** [(hc).Do(r)]: the invocation is logged and answered by the remote
    side according to the number of invocations before it. *)
Definition httpClient_Do (hc : HttpClient) (r : HttpRequest) : M RoundTrip :=
  fun t => (transport (count is_send t) hc r, t ++ [EvSend hc r]).

(** *** [Client.doRequest] *)

Definition doRequest (c : Client) (req : Request)
  : M (option Response * option Error) :=
  (* Build URL *)
  let url := baseURL c +:+ URL req in
  (* Prepare request body *)
  marshalled ← match ReqBody req with
               | Some v =>
                   r ← Marshal v;
                   mret (match r with
                         | inl bodyBytes => inl (Some bodyBytes)
                         | inr err => inr err
                         end)
               | None => mret (inl None)
               end;
  match marshalled with
  | inr err => mret (None, Some (ErrMarshalBody err))
  | inl bodyReader =>
      (* Create HTTP request *)
      created ← http_NewRequest (Method req) url bodyReader;
      match created with
      | inr err => mret (None, Some (ErrCreateRequest err))
      | inl httpReq =>
          (* Set headers *)
          let httpReq :=
            with_header (set_all (range_order (defaultHeaders c))) httpReq in
          let httpReq :=
            with_header (set_all (range_order (ReqHeaders req))) httpReq in
          (* Set content type if body is present *)
          let httpReq :=
            match ReqBody req with
            | Some _ =>
                with_header (Header_Set "Content-Type" "application/json") httpReq
            | None => httpReq
            end in
          (* Perform request *)
          rt ← httpClient_Do (httpClient c) httpReq;
          match rt with
          | RTError err => mret (None, Some (ErrRequestFailed err))
          | RTResponse status header body =>
              (* Read response body *)
              match body with
              | inr err => mret (None, Some (ErrReadBody err))
              | inl body =>
                  mret (Some {| StatusCode := status; Headers := header;
                                Body := body |}, None)
              end
          end
      end
  end.

(** *** [Client.Do]

    The [for] loop. [attempt] and [lastErr] are the loop's variables; the
    loop is left either by the [return] inside it or by falling out of
    it (the condition fails, or [break]). [fuel] bounds the number of
    turns; [Do] gives as many as the loop can take. *)

Inductive LoopExit : Type :=
| Returned (response : option Response)
| FellOut (lastErr : option Error).

Fixpoint Do_loop (c : Client) (req : Request) (fuel : nat) (attempt : Z)
    (lastErr : option Error) : M LoopExit :=
  match fuel with
  | O => mret (FellOut lastErr)
  | S fuel =>
      if attempt <=? MaxRetries (retryConfig c) then
        '(response, err) ← doRequest c req;
        match err with
        | None => mret (Returned response)
        | Some e =>
            (* Don't retry on the last attempt *)
            if attempt =? MaxRetries (retryConfig c) then mret (FellOut (Some e))
            else
              (* Calculate delay with exponential backoff *)
              let delay := backoff_delay (retryConfig c) attempt in
              time_Sleep delay;;
              Do_loop c req fuel (attempt + 1) (Some e)
        end
      else mret (FellOut lastErr)
  end.

Definition Do (c : Client) (req : Request) : M (option Response * option Error) :=
  exit ← Do_loop c req (Z.to_nat (MaxRetries (retryConfig c) + 1)) 0 None;
  match exit with
  | Returned response => mret (response, None)
  | FellOut lastErr =>
      mret (None, Some (ErrAfterAttempts
                          (wrap64 (MaxRetries (retryConfig c) + 1)) lastErr))
  end.

(** *** [Client.Do], turn by turn

    The same loop over an attempt that may differ from turn to turn:
    [attempt_at k] is what the call [c.doRequest(req)] does in the turn
    numbered [k]. [Do_loop] is the case of the same attempt in every
    turn; a [doRequest] whose [range] statements take other orders in
    every turn is another. *)

Fixpoint Do_loop_over (attempt_at : Z -> M (option Response * option Error))
    (c : Client) (fuel : nat) (attempt : Z) (lastErr : option Error)
  : M LoopExit :=
  match fuel with
  | O => mret (FellOut lastErr)
  | S fuel =>
      if attempt <=? MaxRetries (retryConfig c) then
        '(response, err) ← attempt_at attempt;
        match err with
        | None => mret (Returned response)
        | Some e =>
            if attempt =? MaxRetries (retryConfig c) then mret (FellOut (Some e))
            else
              let delay := backoff_delay (retryConfig c) attempt in
              time_Sleep delay;;
              Do_loop_over attempt_at c fuel (attempt + 1) (Some e)
        end
      else mret (FellOut lastErr)
  end.

Definition Do_over (attempt_at : Z -> M (option Response * option Error))
    (c : Client) : M (option Response * option Error) :=
  exit ← Do_loop_over attempt_at c
           (Z.to_nat (MaxRetries (retryConfig c) + 1)) 0 None;
  match exit with
  | Returned response => mret (response, None)
  | FellOut lastErr =>
      mret (None, Some (ErrAfterAttempts
                          (wrap64 (MaxRetries (retryConfig c) + 1)) lastErr))
  end.

(** *** The verb helpers *)

Definition Get (c : Client) (url : string) (headers : gmap string string) :=
  Do c {| Method := "GET"; URL := url; ReqHeaders := headers;
          ReqBody := None; Query := ∅ |}.

Definition Post (c : Client) (url : string) (body : option Any)
    (headers : gmap string string) :=
  Do c {| Method := "POST"; URL := url; ReqHeaders := headers;
          ReqBody := body; Query := ∅ |}.

Definition Put (c : Client) (url : string) (body : option Any)
    (headers : gmap string string) :=
  Do c {| Method := "PUT"; URL := url; ReqHeaders := headers;
          ReqBody := body; Query := ∅ |}.

Definition Delete (c : Client) (url : string) (headers : gmap string string) :=
  Do c {| Method := "DELETE"; URL := url; ReqHeaders := headers;
          ReqBody := None; Query := ∅ |}.

(** *** [Client.JSON]

    [result] is what the destination holds before the call; the call
    gives back what it holds afterwards and the error. *)

Definition JSON (c : Client) (req : Request) (result : Any)
  : M (Any * option Error) :=
  '(resp, err) ← Do c req;
  match err, resp with
  | Some err, _ => mret (result, Some err)
  | None, Some resp =>
      if 400 <=? StatusCode resp
      then mret (result, Some (ErrHTTP (StatusCode resp)))
      else Unmarshal (Body resp) result
  | None, None =>
      (* a nil response would be dereferenced: never reached, see
         [Do_exactly_one] *)
      mret (result, None)
  end.

Definition GetJSON (c : Client) (url : string) (result : Any)
    (headers : gmap string string) :=
  JSON c {| Method := "GET"; URL := url; ReqHeaders := headers;
            ReqBody := None; Query := ∅ |} result.

Definition PostJSON (c : Client) (url : string) (body : option Any)
    (result : Any) (headers : gmap string string) :=
  JSON c {| Method := "POST"; URL := url; ReqHeaders := headers;
            ReqBody := body; Query := ∅ |} result.

Definition PutJSON (c : Client) (url : string) (body : option Any)
    (result : Any) (headers : gmap string string) :=
  JSON c {| Method := "PUT"; URL := url; ReqHeaders := headers;
            ReqBody := body; Query := ∅ |} result.

Definition DeleteJSON (c : Client) (url : string) (result : Any)
    (headers : gmap string string) :=
  JSON c {| Method := "DELETE"; URL := url; ReqHeaders := headers;
            ReqBody := None; Query := ∅ |} result.

(** *** [Client.WithContext] *)

Definition WithContext (c : Client) (ctx : option Context) (req : Request)
  : M (option Response * option Error) :=
  (* Create a copy of the client with context *)
  let clientCopy :=
    {| httpClient := {| Timeout := Timeout (httpClient c) |};
       baseURL := baseURL c;
       defaultHeaders := defaultHeaders c;
       retryConfig := retryConfig c;
       circuitBreaker := circuitBreaker c |} in
  (* Build URL *)
  let url := baseURL c +:+ URL req in
  (* Prepare request body *)
  marshalled ← match ReqBody req with
               | Some v =>
                   r ← Marshal v;
                   mret (match r with
                         | inl bodyBytes => inl (Some bodyBytes)
                         | inr err => inr err
                         end)
               | None => mret (inl None)
               end;
  match marshalled with
  | inr err => mret (None, Some (ErrMarshalBody err))
  | inl bodyReader =>
      (* Create HTTP request with context *)
      created ← http_NewRequestWithContext ctx (Method req) url bodyReader;
      match created with
      | inr err => mret (None, Some (ErrCreateRequest err))
      | inl httpReq =>
          (* Set headers *)
          let httpReq :=
            with_header (set_all (range_order (defaultHeaders c))) httpReq in
          let httpReq :=
            with_header (set_all (range_order (ReqHeaders req))) httpReq in
          (* Set content type if body is present *)
          let httpReq :=
            match ReqBody req with
            | Some _ =>
                with_header (Header_Set "Content-Type" "application/json") httpReq
            | None => httpReq
            end in
          (* Perform request *)
          rt ← httpClient_Do (httpClient clientCopy) httpReq;
          match rt with
          | RTError err => mret (None, Some (ErrRequestFailed err))
          | RTResponse status header body =>
              (* Read response body *)
              match body with
              | inr err => mret (None, Some (ErrReadBody err))
              | inl body =>
                  mret (Some {| StatusCode := status; Headers := header;
                                Body := body |}, None)
              end
          end
      end
  end.

(** *** One attempt, in closed form

    The pieces below describe an attempt without the monad: how the
    request is built, which events the attempt leaves and what it
    returns given the answer of the remote side. [doRequest_unfold]
    relates them to [doRequest]. *)

(** The body reader, or the codec's error. *)
Definition marshal_body (req : Request) : option bytes + Error :=
  match ReqBody req with
  | Some v =>
      match json_Marshal v with
      | inl bodyBytes => inl (Some bodyBytes)
      | inr err => inr err
      end
  | None => inl None
  end.

(** The method a request is created with. *)
Definition effective_method (method : string) : string :=
  if String.eqb method "" then "GET" else method.

(** The error of [http.NewRequestWithContext], if any. *)
Definition new_request_error (ctx : option Context) (method url : string)
  : option Error :=
  if negb (validMethod (effective_method method))
  then Some (ErrInvalidMethod (effective_method method))
  else match ctx with
       | None => Some (ErrLib "net/http: nil Context")
       | Some _ => url_Parse url
       end.

(** The headers [doRequest] sets when its two [range] statements visit
    the default headers in the order [defaults] and the headers of the
    request in the order [headers], whatever these orders are. *)
Definition header_in_order (defaults headers : list (string * string))
    (req : Request) : Header :=
  let merged := set_all headers (set_all defaults ∅) in
  match ReqBody req with
  | Some _ => Header_Set "Content-Type" "application/json" merged
  | None => merged
  end.

(** The headers of the request handed to the transport. *)
Definition outgoing_header (c : Client) (req : Request) : Header :=
  let merged :=
    set_all (range_order (ReqHeaders req))
            (set_all (range_order (defaultHeaders c)) ∅) in
  match ReqBody req with
  | Some _ => Header_Set "Content-Type" "application/json" merged
  | None => merged
  end.

(** The request handed to the transport, or the error that stops the
    attempt before the transport is reached. *)
Definition build (c : Client) (ctx : option Context) (req : Request)
  : HttpRequest + Error :=
  match marshal_body req with
  | inr err => inr (ErrMarshalBody err)
  | inl body =>
      match new_request_error ctx (Method req) (baseURL c +:+ URL req), ctx with
      | Some err, _ => inr (ErrCreateRequest err)
      | None, None => inr (ErrCreateRequest (ErrLib "net/http: nil Context"))
      | None, Some ctx =>
          inl {| hMethod := effective_method (Method req);
                 hURL := baseURL c +:+ URL req;
                 hHeader := outgoing_header c req;
                 hBody := body;
                 hCtx := ctx |}
      end
  end.

(** The events of the construction. *)
Definition build_events (c : Client) (req : Request) : list Event :=
  match ReqBody req with
  | Some v =>
      EvMarshal v ::
      match json_Marshal v with
      | inl _ => [EvNewRequest (Method req) (baseURL c +:+ URL req)]
      | inr _ => []
      end
  | None => [EvNewRequest (Method req) (baseURL c +:+ URL req)]
  end.

(** The events of an attempt. *)
Definition attempt_events (c : Client) (ctx : option Context) (req : Request)
  : list Event :=
  build_events c req ++
  match build c ctx req with
  | inl r => [EvSend (httpClient c) r]
  | inr _ => []
  end.

(** What an attempt returns for an answer of the remote side. *)
Definition result_of (rt : RoundTrip) : option Response * option Error :=
  match rt with
  | RTError err => (None, Some (ErrRequestFailed err))
  | RTResponse status header (inr err) => (None, Some (ErrReadBody err))
  | RTResponse status header (inl body) =>
      (Some {| StatusCode := status; Headers := header; Body := body |}, None)
  end.

(** What an attempt returns when [k] transport invocations precede it. *)
Definition outcome (c : Client) (ctx : option Context) (req : Request) (k : nat)
  : option Response * option Error :=
  match build c ctx req with
  | inl r => result_of (transport k (httpClient c) r)
  | inr err => (None, Some err)
  end.

(** The number of transport invocations of an attempt. *)
Definition sends_per_attempt (c : Client) (ctx : option Context) (req : Request)
  : nat :=
  match build c ctx req with inl _ => 1%nat | inr _ => 0%nat end.

(** The events of [k] failed attempts, each followed by its back-off
    sleep, and of one attempt more; [attempt] numbers the first. *)
Fixpoint attempts_trace (c : Client) (req : Request) (k : nat) (attempt : Z)
  : list Event :=
  match k with
  | O => attempt_events c (Some Background) req
  | S k' =>
      attempt_events c (Some Background) req
      ++ EvSleep (backoff_delay (retryConfig c) attempt)
      :: attempts_trace c req k' (attempt + 1)
  end.

(** The events of [k] failed attempts that are retried, each with the
    sleep that follows it. *)
Fixpoint retried_trace (c : Client) (req : Request) (k : nat) (attempt : Z)
  : list Event :=
  match k with
  | O => []
  | S k' =>
      attempt_events c (Some Background) req
      ++ EvSleep (backoff_delay (retryConfig c) attempt)
      :: retried_trace c req k' (attempt + 1)
  end.

(** Every invocation of the transport fails. *)
Definition refuses_all : Prop :=
  forall k hc r, exists e, transport k hc r = RTError e.

(** The event that opens the construction of a request: the encoding of
    the body when there is one, the creation of the request otherwise. *)
Definition starts_build (req : Request) (e : Event) : bool :=
  match ReqBody req with
  | Some _ => is_marshal e
  | None => is_new_request e
  end.

(** [k] calls of [Do] in a row, the results gathered oldest first. *)
Fixpoint Do_times (k : nat) (c : Client) (req : Request)
  : M (list (option Response * option Error)) :=
  match k with
  | O => mret []
  | S k' => r ← Do c req; rs ← Do_times k' c req; mret (r :: rs)
  end.

End Http.

Arguments EvMarshal {Any Context} v.
Arguments EvNewRequest {Any Context} method url.
Arguments EvSend {Any Context} hc r.
Arguments EvSleep {Any Context} d.
Arguments EvUnmarshal {Any Context} data.
Arguments is_send {Any Context} e.
Arguments is_sleep {Any Context} e.
Arguments is_marshal {Any Context} e.
Arguments is_new_request {Any Context} e.
Arguments is_unmarshal {Any Context} e.
Arguments count {Any Context} p t.
Arguments sent {Any Context} t.
Arguments slept {Any Context} t.
Arguments Method {Any} r.
Arguments URL {Any} r.
Arguments ReqHeaders {Any} r.
Arguments ReqBody {Any} r.
Arguments Query {Any} r.
Arguments hMethod {Context} h.
Arguments hURL {Context} h.
Arguments hHeader {Context} h.
Arguments hBody {Context} h.
Arguments hCtx {Context} h.
Arguments header_in_order {Any} defaults headers req.

(** The HTTP clients on which the transport has been invoked, oldest
    first. *)
Definition invoked_on {Any Context : Type} (t : list (@Event Any Context))
  : list HttpClient :=
  omap (fun e => match e with EvSend hc _ => Some hc | _ => None end) t.

(** The requests that a call started on trace [t] hands to the
    transport, oldest first. *)
Definition sent_by {Any Context A : Type}
    (call : list (@Event Any Context) -> A * list (@Event Any Context))
    (t : list (@Event Any Context)) : list (HttpRequest Context) :=
  drop (length (sent t)) (sent (call t).2).

(** [Client.Do] when the [range] statements of [doRequest] visit the
    maps in the orders [orders k] during attempt [k]: the language chooses
    the order anew at every [range] statement. *)
Definition Do_anew {Any Context : Type} (Background : Context)
    (json_Marshal : Any -> bytes + Error) (url_Parse : string -> option Error)
    (transport : nat -> HttpClient -> HttpRequest Context -> RoundTrip)
    (orders : Z -> gmap string string -> list (string * string))
    (c : Client) (req : Request Any)
  : list (@Event Any Context)
    -> (option Response * option Error) * list (@Event Any Context) :=
  Do_over Any Context
    (fun k => doRequest Any Context Background json_Marshal url_Parse
                transport (orders k) c req) c.

(** ** The rate limiter

    [RateLimiter.requests] is a buffered channel of [time.Time] values, the
    tokens. The limiter runs together with the callers of [Wait] and with
    the goroutines [Wait] starts, each of which sleeps for [rate] and then
    sends one token back. The state is the limiter, the callers that have
    received a token and not started their goroutine yet, and the
    goroutines that have not sent yet; each remembers the [now] of its
    call. *)

Record Chan : Type := {
  chan_cap : Z;              (* cap(ch) *)
  chan_buf : list Z          (* the queued values, oldest first *)
}.

(** [ch <- v] when it can proceed without a receiver; [None] when the
    sender blocks. *)
Definition chan_send (v : Z) (ch : Chan) : option Chan :=
  if Z.of_nat (length (chan_buf ch)) <? chan_cap ch
  then Some {| chan_cap := chan_cap ch; chan_buf := chan_buf ch ++ [v] |}
  else None.

(** [<-ch] from the buffer; [None] when the buffer is empty. *)
Definition chan_recv (ch : Chan) : option (Z * Chan) :=
  match chan_buf ch with
  | v :: rest => Some (v, {| chan_cap := chan_cap ch; chan_buf := rest |})
  | [] => None
  end.

Record RateLimiter : Type := {
  requests : Chan;
  rate : Z
}.

Record LimiterState : Type := {
  limiter : RateLimiter;
  callers : list Z;          (* in [Wait], past the receive, before [go] *)
  refills : list Z           (* goroutines of [Wait] that have not sent yet *)
}.

(** [len(rl.requests)], the tokens available. *)
Definition tokens (s : LimiterState) : Z :=
  Z.of_nat (length (chan_buf (requests (limiter s)))).

(** The filling loop of [NewRateLimiter]: [n] sends still to do, the
    [i]-th reading of the clock next. *)
Fixpoint fill (clock : nat -> Z) (n i : nat) (ch : Chan) : option Chan :=
  match n with
  | O => Some ch
  | S n' => ch' ← chan_send (clock i) ch; fill clock n' (S i) ch'
  end.

(** [NewRateLimiter(rate, burst)]. [make] panics on a negative capacity
    and a send on a full channel would block forever: both are [None]. *)
Definition NewRateLimiter (clock : nat -> Z) (rate burst : Z)
  : option LimiterState :=
  if burst <? 0 then None
  else
    ch ← fill clock (Z.to_nat burst) 0 {| chan_cap := burst; chan_buf := [] |};
    Some {| limiter := {| requests := ch; rate := rate |};
            callers := []; refills := [] |}.

(** What can happen next. *)
Inductive Action : Type :=
| ActReceive (now : Z)
    (* a caller of [Wait], having read the clock, receives a token from
       the buffer *)
| ActHandoff (i : nat) (now : Z)
    (* the buffer is empty: the [i]-th goroutine sends its token straight
       to a caller blocked in [Wait] *)
| ActGo (i : nat)
    (* the [i]-th caller starts its goroutine and returns from [Wait] *)
| ActRefill (i : nat).
    (* the [i]-th goroutine wakes up and sends its token into the buffer *)

Definition with_requests (ch : Chan) (rl : RateLimiter) : RateLimiter :=
  {| requests := ch; rate := rate rl |}.

(** One step; [None] when the action cannot proceed (it blocks). *)
Definition step (a : Action) (s : LimiterState) : option LimiterState :=
  match a with
  | ActReceive now =>
      '(_, ch) ← chan_recv (requests (limiter s));
      Some {| limiter := with_requests ch (limiter s);
              callers := callers s ++ [now];
              refills := refills s |}
  | ActHandoff i now =>
      match chan_buf (requests (limiter s)) with
      | [] =>
          _ ← refills s !! i;
          Some {| limiter := limiter s;
                  callers := callers s ++ [now];
                  refills := delete i (refills s) |}
      | _ :: _ => None
      end
  | ActGo i =>
      now ← callers s !! i;
      Some {| limiter := limiter s;
              callers := delete i (callers s);
              refills := refills s ++ [now] |}
  | ActRefill i =>
      v ← refills s !! i;
      ch ← chan_send v (requests (limiter s));
      Some {| limiter := with_requests ch (limiter s);
              callers := callers s;
              refills := delete i (refills s) |}
  end.

Fixpoint run (acts : list Action) (s : LimiterState) : option LimiterState :=
  match acts with
  | [] => Some s
  | a :: acts' => s' ← step a s; run acts' s'
  end.

(** A whole call of [Wait] by a caller that finds a token and no other
    caller on its way. *)
Definition Wait (now : Z) : list Action := [ActReceive now; ActGo 0].

(** The capacity is [burst] and every token is in the buffer, with a
    caller, or with a goroutine that will send it back. *)
Definition conserved (burst : Z) (s : LimiterState) : Prop :=
  chan_cap (requests (limiter s)) = burst
  /\ tokens s + Z.of_nat (length (callers s)) + Z.of_nat (length (refills s))
     = burst.

(** ** Package [uuid]

    A [UUID] is an array of 16 bytes; here a list of numbers, well formed
    when it has 16 entries between 0 and 255. *)

Abbreviation UUID := (list Z).

Definition well_formed (u : UUID) : Prop :=
  length u = 16%nat /\ Forall (fun b => 0 <= b < 256) u.

(** [UUID{}] *)
Definition zero_UUID : UUID := replicate 16 0.

(** [u[i]] *)
Definition byte_at (i : nat) (u : UUID) : Z := default 0 (u !! i).

(** [u[lo:hi]] *)
Definition slice (lo hi : nat) (u : UUID) : list Z := take (hi - lo) (drop lo u).

Inductive UUIDError : Type :=
| ErrEntropy (msg : string)
    (* the error of rand.Read, returned as it is *)
| ErrFormat
    (* invalid UUID format *)
| ErrLength
    (* invalid UUID length *)
| ErrHexCharacter.
    (* invalid hex character *)

(** *** Formatting

    The verb [%x] writes a byte slice as two lower-case hexadecimal
    digits per byte. The widths of the format of [String] are those of
    the slices it is given (8 digits for 4 bytes, and so on), so that no
    padding takes place. *)

Definition hex_digit (n : Z) : ascii :=
  nth (Z.to_nat n) (String.list_ascii_of_string "0123456789abcdef") "0"%char.

Definition hex_byte (b : Z) : list ascii :=
  [hex_digit (b / 16); hex_digit (b mod 16)].

Definition hex_chars (bs : list Z) : list ascii := bs ≫= hex_byte.

Definition hex (bs : list Z) : string :=
  String.string_of_list_ascii (hex_chars bs).

(** [UUID.String] *)
Definition UUID_String (u : UUID) : string :=
  hex (slice 0 4 u) +:+ "-" +:+ hex (slice 4 6 u) +:+ "-"
  +:+ hex (slice 6 8 u) +:+ "-" +:+ hex (slice 8 10 u) +:+ "-"
  +:+ hex (slice 10 16 u).

(** *** The pattern

    [^[0-9a-f]{8}-[0-9a-f]{4}-4[0-9a-f]{3}-[89ab][0-9a-f]{3}-[0-9a-f]{12}$]:
    a sequence of character classes, each repeated a fixed number of
    times, anchored at both ends of the text. *)

Inductive Class : Type :=
| Hex                 (* [0-9a-f] *)
| Variant             (* [89ab] *)
| Lit (c : ascii).    (* the character itself *)

Definition is_hex (c : ascii) : bool :=
  is_digit c || (let n := N_of_ascii c in ((97 <=? n) && (n <=? 102))%N).

Definition is_variant (c : ascii) : bool :=
  existsb (Ascii.eqb c) ["8"; "9"; "a"; "b"]%char.

Definition in_class (cl : Class) (c : ascii) : bool :=
  match cl with
  | Hex => is_hex c
  | Variant => is_variant c
  | Lit c' => Ascii.eqb c c'
  end.

(** [n] characters of the class at the head of [s]; what follows them. *)
Fixpoint repeat_class (cl : Class) (n : nat) (s : string) : option string :=
  match n with
  | O => Some s
  | S n' =>
      match s with
      | String c s' => if in_class cl c then repeat_class cl n' s' else None
      | EmptyString => None
      end
  end.

(** The whole of [s] matches the pieces, one after the other. *)
Fixpoint matches (pattern : list (Class * nat)) (s : string) : bool :=
  match pattern with
  | [] => String.eqb s ""
  | (cl, n) :: pattern' =>
      match repeat_class cl n s with
      | Some rest => matches pattern' rest
      | None => false
      end
  end.

Definition v4_pattern : list (Class * nat) :=
  [(Hex, 8); (Lit "-", 1); (Hex, 4); (Lit "-", 1); (Lit "4", 1); (Hex, 3);
   (Lit "-", 1); (Variant, 1); (Hex, 3); (Lit "-", 1); (Hex, 12)]%nat.

(** [IsValid] *)
Definition IsValid (s : string) : bool := matches v4_pattern s.

(** *** Generation

    [entropy] is what [rand.Read] leaves in the array and the error it
    returns. *)

Definition NewV4 (entropy : UUID * option UUIDError) : UUID * option UUIDError :=
  let '(uuid, err) := entropy in
  match err with
  | Some err => (zero_UUID, Some err)
  | None =>
      (* Set version (4) in the 7th byte *)
      let uuid := <[6%nat := Z.lor (Z.land (byte_at 6 uuid) 0x0f) 0x40]> uuid in
      (* Set variant bits in the 9th byte *)
      let uuid := <[8%nat := Z.lor (Z.land (byte_at 8 uuid) 0x3f) 0x80]> uuid in
      (uuid, None)
  end.

Definition NewUUIDString (entropy : UUID * option UUIDError)
  : string * option UUIDError :=
  let '(uuid, err) := NewV4 entropy in
  match err with
  | Some err => (EmptyString, Some err)
  | None => (UUID_String uuid, None)
  end.

(** [fmt.Sprintf("%s-%s", uuid.String(), namespace)] *)
Definition NewWithNamespace (entropy : UUID * option UUIDError)
    (namespace : string) : string * option UUIDError :=
  let '(uuid, err) := NewV4 entropy in
  match err with
  | Some err => (EmptyString, Some err)
  | None => (UUID_String uuid +:+ "-" +:+ namespace, None)
  end.

(** The [Must] variants panic on an error: [None]. *)
Definition MustNewUUIDString (entropy : UUID * option UUIDError) : option string :=
  let '(uuid, err) := NewUUIDString entropy in
  match err with
  | Some _ => None
  | None => Some uuid
  end.

Definition MustNewV4 (entropy : UUID * option UUIDError) : option UUID :=
  let '(uuid, err) := NewV4 entropy in
  match err with
  | Some _ => None
  | None => Some uuid
  end.

(** *** Parsing *)

(** [strings.ReplaceAll(s, c, "")] for a one-character [c]. *)
Fixpoint remove_all (c : ascii) (s : string) : string :=
  match s with
  | EmptyString => EmptyString
  | String c' s' =>
      if Ascii.eqb c' c then remove_all c s' else String c' (remove_all c s')
  end.

(** The number a lower-case hexadecimal digit stands for. *)
Definition hex_value (c : ascii) : Z :=
  let n := Z.of_N (N_of_ascii c) in
  if is_digit c then n - 48 else n - 97 + 10.

(** The byte two such digits spell. *)
Definition hex_pair (c d : ascii) : Z := 16 * hex_value c + hex_value d.

Section Parse.

(** [fmt.Sscanf(s, "%02x", &b)] for a byte [b]: the byte scanned, or
    [None] for an error. *)
Variable Sscanf_02x : string -> option Z.

(** The loop of [Parse]: [n] turns to go, [i] the index of the next
    byte. *)
Fixpoint scan_bytes (n i : nat) (s : string) (uuid : UUID)
  : UUID * option UUIDError :=
  match n with
  | O => (uuid, None)
  | S n' =>
      match Sscanf_02x (String.substring (i * 2) 2 s) with
      | None => (zero_UUID, Some ErrHexCharacter)
      | Some b => scan_bytes n' (S i) s (<[i := b]> uuid)
      end
  end.

Definition Parse (s : string) : UUID * option UUIDError :=
  (* Validate format *)
  if negb (matches v4_pattern s) then (zero_UUID, Some ErrFormat)
  else
    (* Remove hyphens and parse *)
    let s := remove_all "-" s in
    if negb (String.length s =? 32)%nat then (zero_UUID, Some ErrLength)
    else
      (* Convert hex string to bytes *)
      scan_bytes 16 0 s zero_UUID.

(** On two lower-case hexadecimal digits [Sscanf] gives the byte they
    spell. *)
Definition scans_hex : Prop :=
  forall c d, is_hex c = true -> is_hex d = true ->
    Sscanf_02x (String c (String d EmptyString)) = Some (hex_pair c d).

End Parse.

(** *** Texts and digits

    The 36 characters of a text as [String] lays them out, given its 32
    digits; the digits of such a text; and the bytes that a list of
    digits spells, two digits per byte. *)

Definition layout (cs : list ascii) : string :=
  String.string_of_list_ascii (take 8 cs) +:+ "-"
  +:+ String.string_of_list_ascii (take 4 (drop 8 cs)) +:+ "-"
  +:+ String.string_of_list_ascii (take 4 (drop 12 cs)) +:+ "-"
  +:+ String.string_of_list_ascii (take 4 (drop 16 cs)) +:+ "-"
  +:+ String.string_of_list_ascii (drop 20 cs).

Definition unlayout (s : string) : list ascii :=
  let cs := String.list_ascii_of_string s in
  take 8 cs ++ take 4 (drop 9 cs) ++ take 4 (drop 14 cs)
  ++ take 4 (drop 19 cs) ++ drop 24 cs.

Fixpoint bytes_of (cs : list ascii) : list Z :=
  match cs with
  | c :: d :: rest => hex_pair c d :: bytes_of rest
  | _ => []
  end.

(** ** A concrete world for the scenarios *)

Module Scenario.

(** Two kinds of Go values: a [bool], which the codec handles, and a
    channel, which [json.Marshal] rejects. *)
Inductive GoValue : Type :=
| GoBool (b : bool)
| GoChan.

Definition text (s : string) : bytes := String.list_byte_of_string s.

Definition is_text (s : string) (data : bytes) : bool :=
  String.eqb (String.string_of_list_byte data) s.

Definition marshal (v : GoValue) : bytes + Error :=
  match v with
  | GoBool true => inl (text "true")
  | GoBool false => inl (text "false")
  | GoChan => inr (ErrLib "json: unsupported type: chan int")
  end.

Definition unmarshal (data : bytes) (dst : GoValue) : GoValue * option Error :=
  match dst with
  | GoBool _ =>
      if is_text "true" data then (GoBool true, None)
      else if is_text "false" data then (GoBool false, None)
      else (dst, Some (ErrLib "json: cannot unmarshal into Go value of type bool"))
  | GoChan => (dst, Some (ErrLib "json: Unmarshal(non-pointer chan int)"))
  end.

(** [url.Parse] rejects a URL that starts with a colon; the scenarios use
    no other malformed URL. *)
Definition parse (url : string) : option Error :=
  match url with
  | String ":" _ => Some (ErrLib "missing protocol scheme")
  | _ => None
  end.

(** A remote side that refuses every connection. *)
Definition refusing (n : nat) (hc : HttpClient) (r : HttpRequest unit)
  : RoundTrip :=
  RTError (ErrLib "connection refused").

(** A remote side that answers every request with [status] and [body]. *)
Definition answering (status : Z) (body : string)
    (n : nat) (hc : HttpClient) (r : HttpRequest unit) : RoundTrip :=
  RTResponse status ∅ (inl (text body)).

(** A remote side that refuses the first [k] connections and answers
    afterwards. *)
Definition flaky (k : nat) (status : Z) (body : string)
    (n : nat) (hc : HttpClient) (r : HttpRequest unit) : RoundTrip :=
  if (n <? k)%nat then RTError (ErrLib "connection refused")
  else RTResponse status ∅ (inl (text body)).

(** A remote side whose response body breaks off while it is read. *)
Definition truncating (n : nat) (hc : HttpClient) (r : HttpRequest unit)
  : RoundTrip :=
  RTResponse 200 ∅ (inr (ErrLib "unexpected EOF")).

Definition order (m : gmap string string) : list (string * string) :=
  map_to_list m.

(** Orders that change from attempt to attempt: the entries forwards in
    the attempts with an even number, backwards in the others. *)
Definition alternating (k : Z) (m : gmap string string)
  : list (string * string) :=
  if Z.even k then map_to_list m else reverse (map_to_list m).

Definition request (method url : string) (headers : gmap string string)
    (body : option GoValue) : Request GoValue :=
  {| Method := method; URL := url; ReqHeaders := headers;
     ReqBody := body; Query := ∅ |}.

Definition Do := Do GoValue unit tt marshal parse.
Definition Do_times := Do_times GoValue unit tt marshal parse.
Definition doRequest := doRequest GoValue unit tt marshal parse.
Definition JSON := JSON GoValue unit tt marshal unmarshal parse.
Definition WithContext := WithContext GoValue unit marshal parse.
Definition build := build GoValue unit marshal parse.

(** The client [NewClient] makes: three retries, one second, factor 2. *)
Definition fresh : Client := NewClient "http://h".

Definition retrying (n delay : Z) (backoff : spec_float) : Client :=
  SetRetryConfig {| MaxRetries := n; Delay := delay; Backoff := backoff |} fresh.

(** Scenario A: a breaker configured for three failures, no retry. *)
Definition guarded : Client :=
  SetCircuitBreaker
    {| MaxFailures := 3; cbTimeout := 30 * Second; ResetTimeout := 60 * Second |}
    (retrying 0 (1 * Second) (F64.of_int 2)).

Definition get : Request GoValue := request "GET" "/x" ∅ None.

(** [get] as the transport receives it. *)
Definition get_sent : HttpRequest unit :=
  {| hMethod := "GET"; hURL := "http://h/x"; hHeader := ∅;
     hBody := None; hCtx := tt |}.

(** A body the codec rejects, and a URL that does not parse (sent by a
    client without base URL). *)
Definition post_chan : Request GoValue := request "POST" "/x" ∅ (Some GoChan).
Definition bare : Client := NewClient "".
Definition get_bad_url : Request GoValue := request "GET" ":x" ∅ None.

(** A body with a content type chosen by the caller. *)
Definition post_plain : Request GoValue :=
  request "POST" "/x" {["Content-Type" := "text/plain"]} (Some (GoBool true)).

Definition post_plain_sent : HttpRequest unit :=
  {| hMethod := "POST"; hURL := "http://h/x";
     hHeader := {["Content-Type" := ["application/json"]]};
     hBody := Some (text "true"); hCtx := tt |}.

(** A body sent by a client whose default headers choose the content
    type. *)
Definition xml_client : Client := SetDefaultHeader "content-type" "text/xml" fresh.
Definition post_true : Request GoValue :=
  request "POST" "/x" ∅ (Some (GoBool true)).

(** Three nanoseconds to start with and a factor of one and a half. *)
Definition one_and_a_half : spec_float := F64.dyadic 3 (-1).
Definition odd_delays : Client := retrying 3 3 one_and_a_half.

(** One second to start with and a factor of ten thousand million. *)
Definition steep : RetryConfig :=
  {| MaxRetries := 3; Delay := 1 * Second; Backoff := F64.of_int (10 ^ 10) |}.

(** One second to start with and a factor of [float64(1.1)], which is
    no multiple of a power of two that a float holds exactly. *)
Definition eleven_tenths : spec_float :=
  S754_finite false 4953959590107546 (-52).
Definition gentle : Client := retrying 3 (1 * Second) eleven_tenths.

(** Ten nanoseconds to start with and a factor of [float64(1.7)]. *)
Definition seventeen_tenths : spec_float := F64.dyadic 7656119366529843 (-52).
Definition rounding : RetryConfig :=
  {| MaxRetries := 3; Delay := 10; Backoff := seventeen_tenths |}.

(** No delay to start with and a factor of [2^64]. *)
Definition idle_steep : RetryConfig :=
  {| MaxRetries := 20; Delay := 0; Backoff := F64.dyadic 1 64 |}.
Definition idle_client : Client := SetRetryConfig idle_steep fresh.

(** One second to start with and a factor of one half. *)
Definition halving : Client := retrying 3 (1 * Second) (F64.dyadic 1 (-1)).

(** A request without body, with headers on both sides. *)
Definition token_client : Client :=
  SetDefaultHeader "x-trace" "default" (SetDefaultHeader "accept" "text/html" fresh).
Definition get_traced : Request GoValue :=
  request "GET" "/x" {["X-Trace" := "mine"]} None.

End Scenario.

(** ** More scenarios *)

Module Sample.

(** [Sscanf] on two lower-case hexadecimal digits; nothing else is
    scanned in the scenarios. *)
Definition scan_hex (s : string) : option Z :=
  match s with
  | String c (String d EmptyString) =>
      if is_hex c && is_hex d then Some (hex_pair c d) else None
  | _ => None
  end.

(** Sixteen bytes as the random source may give them, and the UUID
    [NewV4] makes of them. *)
Definition drawn : UUID :=
  [0x12; 0x34; 0x56; 0x78; 0x9a; 0xbc; 0xfd; 0xef;
   0x01; 0x23; 0x45; 0x67; 0x89; 0xab; 0xcd; 0x0f].

Definition generated : UUID :=
  [0x12; 0x34; 0x56; 0x78; 0x9a; 0xbc; 0x4d; 0xef;
   0x81; 0x23; 0x45; 0x67; 0x89; 0xab; 0xcd; 0x0f].

(** A limiter for a burst of three, as made and after two calls of
    [Wait], the first of which has sent its token back. *)
Definition limiter3 : LimiterState :=
  {| limiter := {| requests := {| chan_cap := 3; chan_buf := [0; 1; 2] |};
                   rate := 100 * Millisecond |};
     callers := []; refills := [] |}.

Definition limiter3_used : LimiterState :=
  {| limiter := {| requests := {| chan_cap := 3; chan_buf := [2; 10] |};
                   rate := 100 * Millisecond |};
     callers := []; refills := [11] |}.

(** One half, as a float. *)
Definition half : spec_float := S754_finite false (2 ^ 52) (-53).

(** A client with the same default header under two spellings, and the
    request [Scenario.get] as it sends it. *)
Definition twice_accept : Client :=
  SetDefaultHeader "Accept" "text/html"
    (SetDefaultHeader "accept" "application/json" Scenario.fresh).

Definition get_accept_sent : HttpRequest unit :=
  {| hMethod := "GET"; hURL := "http://h/x";
     hHeader := {["Accept" := ["text/html"]]};
     hBody := None; hCtx := tt |}.

End Sample.

(** * Properties *)

(** ** Traces *)

Section TraceFacts.

Context {Any Context : Type}.
Implicit Types (t u : list (@Event Any Context)) (p : @Event Any Context -> bool).

Lemma count_app p t u : count p (t ++ u) = (count p t + count p u)%nat.
Proof. unfold count. by rewrite List.filter_app, length_app. Qed.

Lemma count_nil p : count p ([] : list (@Event Any Context)) = 0%nat.
Proof. reflexivity. Qed.

Lemma count_cons p e t :
  count p (e :: t) = ((if p e then 1 else 0) + count p t)%nat.
Proof. unfold count. simpl. by destruct (p e). Qed.

Lemma sent_app t u : sent (t ++ u) = sent t ++ sent u.
Proof. apply omap_app. Qed.

Lemma slept_app t u : slept (t ++ u) = slept t ++ slept u.
Proof. apply omap_app. Qed.

Lemma count_send_sent t : count is_send t = length (sent t).
Proof.
  induction t as [|e t IH]; [done|].
  rewrite count_cons, IH. by destruct e.
Qed.

Lemma count_sleep_slept t : count is_sleep t = length (slept t).
Proof.
  induction t as [|e t IH]; [done|].
  rewrite count_cons, IH. by destruct e.
Qed.

End TraceFacts.

(** ** One attempt *)

Ltac unfold_attempt :=
  unfold WithContext, outcome, attempt_events, build, build_events,
    marshal_body, new_request_error, http_NewRequestWithContext,
    effective_method, Marshal, httpClient_Do, emit, mbind, M_bind, mret,
    M_ret, outgoing_header, with_header.

Section AttemptFacts.

Context {Any Context : Type} (Background : Context).
Context (json_Marshal : Any -> bytes + Error).
Context (json_Unmarshal : bytes -> Any -> Any * option Error).
Context (url_Parse : string -> option Error).
Context (transport : nat -> HttpClient -> HttpRequest Context -> RoundTrip).
Context (range_order : gmap string string -> list (string * string)).

Local Abbreviation doRequest :=
  (doRequest Any Context Background json_Marshal url_Parse transport range_order).
Local Abbreviation WithContext :=
  (WithContext Any Context json_Marshal url_Parse transport range_order).
Local Abbreviation build := (build Any Context json_Marshal url_Parse range_order).
Local Abbreviation outcome :=
  (outcome Any Context json_Marshal url_Parse transport range_order).
Local Abbreviation attempt_events :=
  (attempt_events Any Context json_Marshal url_Parse range_order).
Local Abbreviation sends_per_attempt :=
  (sends_per_attempt Any Context json_Marshal url_Parse range_order).
Local Abbreviation build_events := (build_events Any Context json_Marshal).

Implicit Types (c : Client) (req : Request Any) (t : list (@Event Any Context)).

(** [WithContext] is one attempt: it returns what the remote side's
    answer amounts to and leaves the events of one attempt. *)
Lemma WithContext_unfold c ctx req t :
  WithContext c ctx req t
  = (outcome c ctx req (count is_send t), t ++ attempt_events c ctx req).
Proof.
  unfold_attempt.
  destruct c as [[tm] base dh rc cb]; simpl.
  destruct (ReqBody req) as [v|]; simpl;
    [destruct (json_Marshal v) as [b|e]; simpl|];
    try (destruct (validMethod _); simpl);
    try (destruct ctx as [ctx|]; simpl);
    try (destruct (url_Parse _); simpl);
    rewrite ?count_app, ?Nat.add_0_r;
    try (destruct (transport _ _ _) as [e'|st hd [bd|e']]; simpl);
    by rewrite ?app_nil_r, <- ?app_assoc.
Qed.

(** So is [doRequest], on the background context. *)
Lemma doRequest_unfold c req t :
  doRequest c req t
  = (outcome c (Some Background) req (count is_send t),
     t ++ attempt_events c (Some Background) req).
Proof.
  rewrite <- WithContext_unfold. by destruct c as [[tm] base dh rc cb].
Qed.

End AttemptFacts.

(** ** The retry loop *)

Section LoopFacts.

Context {Any Context : Type} (Background : Context).
Context (json_Marshal : Any -> bytes + Error).
Context (url_Parse : string -> option Error).
Context (transport : nat -> HttpClient -> HttpRequest Context -> RoundTrip).
Context (range_order : gmap string string -> list (string * string)).

Local Abbreviation Do_loop' :=
  (Do_loop Any Context Background json_Marshal url_Parse transport range_order).
Local Abbreviation Do' :=
  (Do Any Context Background json_Marshal url_Parse transport range_order).
Local Abbreviation build' :=
  (build Any Context json_Marshal url_Parse range_order).
Local Abbreviation outcome' :=
  (outcome Any Context json_Marshal url_Parse transport range_order).
Local Abbreviation attempt_events' :=
  (attempt_events Any Context json_Marshal url_Parse range_order).
Local Abbreviation per_attempt :=
  (sends_per_attempt Any Context json_Marshal url_Parse range_order).
Local Abbreviation attempts_trace' :=
  (attempts_trace Any Context Background json_Marshal url_Parse range_order).
Local Abbreviation bg := (Some Background).

Implicit Types (c : Client) (req : Request Any) (t : list (@Event Any Context)).

Lemma count_send_build_events c req :
  count is_send (build_events Any Context json_Marshal c req) = 0%nat.
Proof.
  unfold build_events.
  destruct (ReqBody req) as [v|]; [destruct (json_Marshal v)|]; done.
Qed.

Lemma count_send_attempt_events c ctx req :
  count is_send (attempt_events' c ctx req) = per_attempt c ctx req.
Proof.
  unfold attempt_events, sends_per_attempt.
  rewrite count_app, count_send_build_events.
  by destruct (build' c ctx req).
Qed.

Lemma slept_attempt_events c ctx req : slept (attempt_events' c ctx req) = [].
Proof.
  unfold attempt_events, build_events. rewrite slept_app.
  destruct (ReqBody req) as [v|]; [destruct (json_Marshal v)|];
    by destruct (build' c ctx req).
Qed.

(** One turn of the loop. *)
Lemma Do_loop_turn c req fuel attempt lastErr t :
  Do_loop' c req (S fuel) attempt lastErr t
  = if attempt <=? MaxRetries (retryConfig c) then
      match outcome' c bg req (count is_send t) with
      | (response, None) => (Returned response, t ++ attempt_events' c bg req)
      | (_, Some e) =>
          if attempt =? MaxRetries (retryConfig c)
          then (FellOut (Some e), t ++ attempt_events' c bg req)
          else Do_loop' c req fuel (attempt + 1) (Some e)
                 ((t ++ attempt_events' c bg req)
                    ++ [EvSleep (backoff_delay (retryConfig c) attempt)])
      end
    else (FellOut lastErr, t).
Proof.
  simpl. destruct (attempt <=? _); [|done].
  unfold mbind, M_bind at 1. rewrite doRequest_unfold.
  destruct (outcome' _ _ _ _) as [response [e|]]; [|done].
  by destruct (attempt =? _).
Qed.

(** The fuel [Do] gives is enough: with that much or more the loop is
    never cut short. *)
Lemma Do_loop_fuel c req fuel : forall fuel' attempt lastErr t,
  (Z.to_nat (MaxRetries (retryConfig c) + 1 - attempt) <= fuel)%nat ->
  (Z.to_nat (MaxRetries (retryConfig c) + 1 - attempt) <= fuel')%nat ->
  Do_loop' c req fuel attempt lastErr t = Do_loop' c req fuel' attempt lastErr t.
Proof.
  induction fuel as [|fuel IH]; intros fuel' attempt lastErr t Hfuel Hfuel'.
  - destruct fuel' as [|fuel']; [done|]. rewrite Do_loop_turn. simpl.
    destruct (Z.leb_spec attempt (MaxRetries (retryConfig c))); [lia|done].
  - rewrite Do_loop_turn.
    destruct (Z.leb_spec attempt (MaxRetries (retryConfig c))) as [Hle|Hgt].
    + destruct fuel' as [|fuel']; [lia|]. rewrite Do_loop_turn.
      destruct (Z.leb_spec attempt (MaxRetries (retryConfig c))); [|lia].
      destruct (outcome' _ _ _ _) as [response [e|]]; [|done].
      destruct (attempt =? _); [done|]. apply IH; lia.
    + destruct fuel' as [|fuel']; [done|]. rewrite Do_loop_turn.
      destruct (Z.leb_spec attempt (MaxRetries (retryConfig c))); [lia|done].
Qed.

(** [k] failed attempts followed by an attempt that ends the loop: by
    succeeding, or by being the last one allowed. *)
Lemma Do_loop_run c req k : forall fuel attempt lastErr t,
  (k < fuel)%nat ->
  attempt + Z.of_nat k <= MaxRetries (retryConfig c) ->
  (forall j, (j < k)%nat ->
     (outcome' c bg req (count is_send t + j * per_attempt c bg req)).2 <> None) ->
  (outcome' c bg req (count is_send t + k * per_attempt c bg req)).2 = None
  \/ attempt + Z.of_nat k = MaxRetries (retryConfig c) ->
  Do_loop' c req fuel attempt lastErr t
  = (match outcome' c bg req (count is_send t + k * per_attempt c bg req) with
     | (response, None) => Returned response
     | (_, Some e) => FellOut (Some e)
     end,
     t ++ attempts_trace' c req k attempt).
Proof.
  induction k as [|k IH]; intros fuel attempt lastErr t Hfuel Hle Hfail Hend;
    (destruct fuel as [|fuel]; [lia|]); rewrite Do_loop_turn;
    (destruct (Z.leb_spec attempt (MaxRetries (retryConfig c))); [|lia]).
  - simpl in *. rewrite Nat.add_0_r in *.
    destruct (outcome' _ _ _ _) as [response [e|]]; [|done].
    destruct Hend as [?|Hend]; [done|].
    destruct (Z.eqb_spec attempt (MaxRetries (retryConfig c))); [done|lia].
  - pose proof (Hfail 0%nat ltac:(lia)) as H0.
    simpl in H0. rewrite Nat.add_0_r in H0.
    destruct (outcome' c bg req (count is_send t)) as [response [e|]]; [|done].
    destruct (Z.eqb_spec attempt (MaxRetries (retryConfig c))); [lia|].
    assert (Hcount : forall j,
      (count is_send ((t ++ attempt_events' c bg req)
         ++ [EvSleep (backoff_delay (retryConfig c) attempt)])
       + j * per_attempt c bg req
       = count is_send t + S j * per_attempt c bg req)%nat).
    { intros j. rewrite !count_app, count_send_attempt_events.
      change (count is_send [EvSleep _]) with 0%nat. lia. }
    rewrite (IH fuel (attempt + 1) (Some e)); rewrite ?Hcount; try lia.
    + simpl. by rewrite <- !app_assoc.
    + intros j Hj. rewrite Hcount. apply Hfail. lia.
    + destruct Hend as [?|?]; [by left|right; lia].
Qed.

(** The same for [Do]. *)
Lemma Do_run c req k t :
  Z.of_nat k <= MaxRetries (retryConfig c) ->
  (forall j, (j < k)%nat ->
     (outcome' c bg req (count is_send t + j * per_attempt c bg req)).2 <> None) ->
  (outcome' c bg req (count is_send t + k * per_attempt c bg req)).2 = None
  \/ Z.of_nat k = MaxRetries (retryConfig c) ->
  Do' c req t
  = (match outcome' c bg req (count is_send t + k * per_attempt c bg req) with
     | (response, None) => (response, None)
     | (_, Some e) =>
         (None, Some (ErrAfterAttempts
                        (wrap64 (MaxRetries (retryConfig c) + 1)) (Some e)))
     end,
     t ++ attempts_trace' c req k 0).
Proof.
  intros Hk Hfail Hend. unfold Do, mbind, M_bind.
  rewrite (Do_loop_run c req k); try done; try lia.
  by destruct (outcome' _ _ _ _) as [response [e|]].
Qed.

(** The shape of the trace. *)
Lemma count_send_attempts_trace c req k attempt :
  count is_send (attempts_trace' c req k attempt)
  = (S k * per_attempt c bg req)%nat.
Proof.
  revert attempt. induction k as [|k IH]; intros attempt; simpl.
  - rewrite count_send_attempt_events. lia.
  - rewrite count_app, count_cons, count_send_attempt_events, IH. simpl. lia.
Qed.

Lemma slept_attempts_trace c req k attempt :
  slept (attempts_trace' c req k attempt)
  = backoff_delay (retryConfig c) <$> seqZ attempt (Z.of_nat k).
Proof.
  revert attempt. induction k as [|k IH]; intros attempt; simpl attempts_trace.
  - by rewrite slept_attempt_events.
  - rewrite slept_app, slept_attempt_events. simpl. rewrite IH.
    rewrite Nat2Z.inj_succ. rewrite (seqZ_cons attempt) by lia.
    simpl. by rewrite Z.pred_succ, Z.add_1_r.
Qed.

Lemma sent_attempts_trace c req k attempt r :
  build' c bg req = inl r ->
  sent (attempts_trace' c req k attempt) = replicate (S k) r.
Proof.
  intros Hb.
  assert (Hone : sent (attempt_events' c bg req) = [r]).
  { unfold attempt_events, build_events. rewrite sent_app, Hb.
    destruct (ReqBody req) as [v|]; [destruct (json_Marshal v)|]; done. }
  revert attempt. induction k as [|k IH]; intros attempt; simpl attempts_trace.
  - by rewrite Hone.
  - rewrite sent_app, Hone. simpl. by rewrite IH.
Qed.

End LoopFacts.

(** ** Machine integers *)

Lemma wrap64_id z : min_int64 <= z <= max_int64 -> wrap64 z = z.
Proof.
  unfold wrap64, min_int64, max_int64. intros Hz.
  rewrite Z.mod_small; lia.
Qed.

Lemma wrap64_max : wrap64 (max_int64 + 1) = min_int64.
Proof. reflexivity. Qed.

(** ** Calls that exhaust their attempts *)

Section ExhaustionFacts.

Context {Any Context : Type} (Background : Context).
Context (json_Marshal : Any -> bytes + Error).
Context (url_Parse : string -> option Error).
Context (transport : nat -> HttpClient -> HttpRequest Context -> RoundTrip).
Context (range_order : gmap string string -> list (string * string)).

Local Abbreviation Do' :=
  (Do Any Context Background json_Marshal url_Parse transport range_order).
Local Abbreviation Do_times' :=
  (Do_times Any Context Background json_Marshal url_Parse transport range_order).
Local Abbreviation build' :=
  (build Any Context json_Marshal url_Parse range_order).
Local Abbreviation attempts_trace' :=
  (attempts_trace Any Context Background json_Marshal url_Parse range_order).
Local Abbreviation bg := (Some Background).
Local Abbreviation refuses_all := (refuses_all Context transport).

Implicit Types (c : Client) (req : Request Any) (t : list (@Event Any Context)).

(** Against a transport that fails every time, a request that can be
    built uses every attempt. *)
Lemma Do_refused c req t r :
  0 <= MaxRetries (retryConfig c) ->
  build' c bg req = inl r ->
  refuses_all ->
  exists e,
    transport (count is_send t + Z.to_nat (MaxRetries (retryConfig c)))
      (httpClient c) r = RTError e
    /\ Do' c req t
       = (None,
          Some (ErrAfterAttempts (wrap64 (MaxRetries (retryConfig c) + 1))
                  (Some (ErrRequestFailed e))),
          t ++ attempts_trace' c req (Z.to_nat (MaxRetries (retryConfig c))) 0).
Proof.
  intros Hn Hb Hrefuse.
  destruct (Hrefuse (count is_send t + Z.to_nat (MaxRetries (retryConfig c)))%nat
              (httpClient c) r) as [e He].
  exists e. split; [done|].
  rewrite (Do_run _ _ _ _ _ c req (Z.to_nat (MaxRetries (retryConfig c)))).
  - unfold outcome, sends_per_attempt. rewrite Hb, Nat.mul_1_r, He. done.
  - lia.
  - intros j _. unfold outcome. rewrite Hb.
    destruct (Hrefuse (count is_send t
                + j * sends_per_attempt Any Context json_Marshal url_Parse
                        range_order c bg req)%nat (httpClient c) r) as [e' ->].
    done.
  - right. lia.
Qed.

(** A request that cannot be built uses every attempt as well, and never
    reaches the transport. *)
Lemma Do_unbuildable c req t err :
  0 <= MaxRetries (retryConfig c) ->
  build' c bg req = inr err ->
  Do' c req t
  = (None,
     Some (ErrAfterAttempts (wrap64 (MaxRetries (retryConfig c) + 1)) (Some err)),
     t ++ attempts_trace' c req (Z.to_nat (MaxRetries (retryConfig c))) 0).
Proof.
  intros Hn Hb.
  rewrite (Do_run _ _ _ _ _ c req (Z.to_nat (MaxRetries (retryConfig c)))).
  - unfold outcome. by rewrite Hb.
  - lia.
  - intros j _. unfold outcome. by rewrite Hb.
  - right. lia.
Qed.

Lemma per_attempt_built c ctx req r :
  build' c ctx req = inl r ->
  sends_per_attempt Any Context json_Marshal url_Parse range_order c ctx req = 1%nat.
Proof. unfold sends_per_attempt. by intros ->. Qed.

Lemma per_attempt_unbuilt c ctx req err :
  build' c ctx req = inr err ->
  sends_per_attempt Any Context json_Marshal url_Parse range_order c ctx req = 0%nat.
Proof. unfold sends_per_attempt. by intros ->. Qed.

(** C2. With [MaxRetries = n >= 0] and a transport that fails on every
    invocation, [Do] invokes the transport exactly [n + 1] times and
    returns the error "request failed after n+1 attempts", which wraps
    the error of the last invocation. *)
Theorem Do_permanent_failure c req t r n :
  MaxRetries (retryConfig c) = n ->
  0 <= n < max_int64 ->
  build' c bg req = inl r ->
  refuses_all ->
  exists e,
    transport (count is_send t + Z.to_nat n) (httpClient c) r = RTError e
    /\ (Do' c req t).1
       = (None, Some (ErrAfterAttempts (n + 1) (Some (ErrRequestFailed e))))
    /\ count is_send (Do' c req t).2 = (count is_send t + Z.to_nat (n + 1))%nat
    /\ Unwrap (ErrAfterAttempts (n + 1) (Some (ErrRequestFailed e)))
       = Some (ErrRequestFailed e).
Proof.
  intros <- Hn Hb Hrefuse.
  destruct (Do_refused c req t r) as (e & He & HDo); [lia|done..|].
  exists e. rewrite HDo. simpl.
  rewrite wrap64_id by (unfold min_int64, max_int64 in *; lia).
  rewrite count_app, count_send_attempts_trace, (per_attempt_built _ _ _ r Hb).
  repeat split; [done|lia].
Qed.

End ExhaustionFacts.

(** ** The circuit breaker configuration and failed constructions *)

Section BreakerFacts.

Context {Any Context : Type} (Background : Context).
Context (json_Marshal : Any -> bytes + Error).
Context (url_Parse : string -> option Error).
Context (transport : nat -> HttpClient -> HttpRequest Context -> RoundTrip).
Context (range_order : gmap string string -> list (string * string)).

Local Abbreviation Do_loop' :=
  (Do_loop Any Context Background json_Marshal url_Parse transport range_order).
Local Abbreviation Do' :=
  (Do Any Context Background json_Marshal url_Parse transport range_order).
Local Abbreviation Do_times' :=
  (Do_times Any Context Background json_Marshal url_Parse transport range_order).
Local Abbreviation build' :=
  (build Any Context json_Marshal url_Parse range_order).
Local Abbreviation attempts_trace' :=
  (attempts_trace Any Context Background json_Marshal url_Parse range_order).
Local Abbreviation attempt_events' :=
  (attempt_events Any Context json_Marshal url_Parse range_order).
Local Abbreviation bg := (Some Background).
Local Abbreviation refuses_all := (refuses_all Context transport).

Implicit Types (c : Client) (req : Request Any) (t : list (@Event Any Context)).

Lemma Do_loop_SetCircuitBreaker cb c req fuel : forall attempt lastErr t,
  Do_loop' (SetCircuitBreaker cb c) req fuel attempt lastErr t
  = Do_loop' c req fuel attempt lastErr t.
Proof.
  induction fuel as [|fuel IH]; intros attempt lastErr t; [done|].
  rewrite !Do_loop_turn. simpl retryConfig.
  change (outcome Any Context json_Marshal url_Parse transport range_order
            (SetCircuitBreaker cb c) bg req)
    with (outcome Any Context json_Marshal url_Parse transport range_order c bg req).
  change (attempt_events' (SetCircuitBreaker cb c) bg req)
    with (attempt_events' c bg req).
  destruct (attempt <=? _); [|done].
  destruct (outcome _ _ _ _ _ _ _ _ _ _) as [response [e|]]; [|done].
  destruct (attempt =? _); [done|]. apply IH.
Qed.

Lemma Do_SetCircuitBreaker cb c req t :
  Do' (SetCircuitBreaker cb c) req t = Do' c req t.
Proof.
  unfold Do, mbind, M_bind. simpl retryConfig.
  by rewrite Do_loop_SetCircuitBreaker.
Qed.

Lemma Do_times_SetCircuitBreaker cb c req k : forall t,
  Do_times' k (SetCircuitBreaker cb c) req t = Do_times' k c req t.
Proof.
  induction k as [|k IH]; intros t; [done|].
  simpl. unfold mbind, M_bind. rewrite Do_SetCircuitBreaker.
  destruct (Do' c req t) as [r t1]. by rewrite IH.
Qed.

(** [k] calls against a transport that fails every time: each of them
    invokes the transport for all its attempts. *)
Lemma Do_times_refused c req r k : forall t,
  0 <= MaxRetries (retryConfig c) ->
  build' c bg req = inl r ->
  refuses_all ->
  count is_send (Do_times' k c req t).2
  = (count is_send t + k * Z.to_nat (MaxRetries (retryConfig c) + 1))%nat.
Proof.
  induction k as [|k IH]; intros t Hn Hb Hrefuse; simpl; [lia|].
  unfold mbind, M_bind.
  destruct (Do_refused Background json_Marshal url_Parse transport range_order
              c req t r Hn Hb Hrefuse) as (e & _ & ->).
  specialize (IH (t ++ attempts_trace' c req
                         (Z.to_nat (MaxRetries (retryConfig c))) 0) Hn Hb Hrefuse).
  destruct (Do_times' k c req _) as [rs t2]. simpl in *. rewrite IH.
  rewrite count_app, count_send_attempts_trace, (per_attempt_built _ _ _ _ _ _ r Hb).
  lia.
Qed.

(** C1, amended. [Do] never consults the circuit breaker configuration:
    whatever that configuration is and however many calls have failed
    before, a call against a transport that fails on every invocation
    still invokes it [MaxRetries + 1] times and returns the error of
    exhausted attempts; the configuration changes nothing in the call. *)
Theorem Do_never_consults_breaker c cb req calls t r n :
  MaxRetries (retryConfig c) = n ->
  0 <= n < max_int64 ->
  build' c bg req = inl r ->
  refuses_all ->
  count is_send (Do_times' calls (SetCircuitBreaker cb c) req t).2
  = (count is_send t + calls * Z.to_nat (n + 1))%nat
  /\ (exists e,
       (Do' (SetCircuitBreaker cb c) req
          (Do_times' calls (SetCircuitBreaker cb c) req t).2).1
       = (None, Some (ErrAfterAttempts (n + 1) (Some (ErrRequestFailed e)))))
  /\ count is_send
       (Do' (SetCircuitBreaker cb c) req
          (Do_times' calls (SetCircuitBreaker cb c) req t).2).2
     = (count is_send (Do_times' calls (SetCircuitBreaker cb c) req t).2
        + Z.to_nat (n + 1))%nat
  /\ (forall t', Do' (SetCircuitBreaker cb c) req t' = Do' c req t').
Proof.
  intros <- Hn Hb Hrefuse.
  rewrite Do_times_SetCircuitBreaker.
  split; [by apply (Do_times_refused c req r); [lia|..]|].
  set (t1 := (Do_times' calls c req t).2).
  rewrite Do_SetCircuitBreaker.
  destruct (Do_refused Background json_Marshal url_Parse transport range_order
              c req t1 r) as (e & _ & ->); [lia|done..|].
  simpl. rewrite wrap64_id by (unfold min_int64, max_int64 in *; lia).
  split; [by exists e|]. split; [|intros; apply Do_SetCircuitBreaker].
  rewrite count_app, count_send_attempts_trace, (per_attempt_built _ _ _ _ _ _ r Hb).
  lia.
Qed.

Lemma count_starts_build_attempt_events c ctx req :
  count (starts_build Any Context req) (attempt_events' c ctx req) = 1%nat.
Proof.
  unfold attempt_events, build_events, starts_build. rewrite count_app.
  destruct (ReqBody req) as [v|]; [destruct (json_Marshal v)|];
    by destruct (build' c ctx req).
Qed.

Lemma count_starts_build_attempts_trace c req k attempt :
  count (starts_build Any Context req) (attempts_trace' c req k attempt) = S k.
Proof.
  revert attempt. induction k as [|k IH]; intros attempt; simpl attempts_trace.
  - apply count_starts_build_attempt_events.
  - rewrite count_app, count_cons, count_starts_build_attempt_events, IH.
    unfold starts_build at 1. by destruct (ReqBody req).
Qed.

(** A construction fails in the encoding of the body or in the creation
    of the request. *)
Lemma build_error_cases c ctx req err :
  build' c ctx req = inr err ->
  (exists e, err = ErrMarshalBody e) \/ (exists e, err = ErrCreateRequest e).
Proof.
  unfold build. destruct (marshal_body _ _ _) as [b|e].
  - destruct (new_request_error _ _ _ _ _) as [e|]; [|destruct ctx];
      intros [= <-]; right; eauto.
  - intros [= <-]. left; eauto.
Qed.

(** C4, amended. A request whose construction fails is retried like any
    other failure: with [MaxRetries = n >= 0] the construction is attempted
    [n + 1] times, the [n] back-off delays are slept in between, the
    transport is never invoked, and the construction error comes back
    wrapped in the error of exhausted attempts. *)
Theorem Do_build_failure_retried c req t err n :
  MaxRetries (retryConfig c) = n ->
  0 <= n < max_int64 ->
  build' c bg req = inr err ->
  (Do' c req t).1 = (None, Some (ErrAfterAttempts (n + 1) (Some err)))
  /\ count (starts_build Any Context req) (Do' c req t).2
     = (count (starts_build Any Context req) t + Z.to_nat (n + 1))%nat
  /\ slept (Do' c req t).2
     = slept t ++ (backoff_delay (retryConfig c) <$> seqZ 0 n)
  /\ count is_send (Do' c req t).2 = count is_send t.
Proof.
  intros <- Hn Hb.
  rewrite (Do_unbuildable Background json_Marshal url_Parse transport range_order
             c req t err) by (done || lia).
  simpl. rewrite wrap64_id by (unfold min_int64, max_int64 in *; lia).
  rewrite !count_app, slept_app, count_starts_build_attempts_trace,
    slept_attempts_trace, count_send_attempts_trace,
    (per_attempt_unbuilt _ _ _ _ _ _ err Hb), Z2Nat.id by lia.
  repeat split; lia.
Qed.

End BreakerFacts.

(** ** What a call returns *)

Section ResultFacts.

Context {Any Context : Type} (Background : Context).
Context (json_Marshal : Any -> bytes + Error).
Context (json_Unmarshal : bytes -> Any -> Any * option Error).
Context (url_Parse : string -> option Error).
Context (transport : nat -> HttpClient -> HttpRequest Context -> RoundTrip).
Context (range_order : gmap string string -> list (string * string)).

Local Abbreviation Do_loop' :=
  (Do_loop Any Context Background json_Marshal url_Parse transport range_order).
Local Abbreviation Do' :=
  (Do Any Context Background json_Marshal url_Parse transport range_order).
Local Abbreviation JSON' :=
  (JSON Any Context Background json_Marshal json_Unmarshal url_Parse transport
     range_order).
Local Abbreviation WithContext' :=
  (WithContext Any Context json_Marshal url_Parse transport range_order).
Local Abbreviation build' :=
  (build Any Context json_Marshal url_Parse range_order).
Local Abbreviation outcome' :=
  (outcome Any Context json_Marshal url_Parse transport range_order).
Local Abbreviation attempt_events' :=
  (attempt_events Any Context json_Marshal url_Parse range_order).
Local Abbreviation bg := (Some Background).

Implicit Types (c : Client) (req : Request Any) (t : list (@Event Any Context)).

Lemma result_of_exactly_one rt : exactly_one (result_of rt).
Proof.
  destruct rt as [e|status header [body|e]]; [right|left|right]; simpl; eauto.
Qed.

Lemma outcome_exactly_one c ctx req k : exactly_one (outcome' c ctx req k).
Proof.
  unfold outcome. destruct (build' c ctx req) as [r|e].
  - apply result_of_exactly_one.
  - right; simpl; eauto.
Qed.

(** The loop returns a response only when an attempt gave one. *)
Lemma Do_loop_returns_response c req fuel : forall attempt lastErr t,
  match (Do_loop' c req fuel attempt lastErr t).1 with
  | Returned response => is_Some response
  | FellOut _ => True
  end.
Proof.
  induction fuel as [|fuel IH]; intros attempt lastErr t; [done|].
  rewrite Do_loop_turn. destruct (attempt <=? _); [|done].
  destruct (outcome_exactly_one c bg req (count is_send t)) as [[Hr He]|[Hr He]];
    destruct (outcome' _ _ _ _) as [response [e|]]; simpl in *;
    try done; try by destruct He.
  all: destruct (attempt =? _); [done|apply IH].
Qed.

Lemma Do_exactly_one c req t : exactly_one (Do' c req t).1.
Proof.
  unfold Do, mbind, M_bind.
  pose proof (Do_loop_returns_response c req
                (Z.to_nat (MaxRetries (retryConfig c) + 1)) 0 None t) as H.
  destruct (Do_loop' _ _ _ _ _ _) as [[response|lastErr] t1]; simpl in *.
  - by left.
  - right; eauto.
Qed.

(** The events of a call extend the trace, and none of them is a
    decoding. *)
Lemma Do_loop_no_unmarshal c req fuel : forall attempt lastErr t,
  count is_unmarshal (Do_loop' c req fuel attempt lastErr t).2
  = count is_unmarshal t.
Proof.
  assert (Hev : count is_unmarshal (attempt_events' c bg req) = 0%nat).
  { unfold attempt_events, build_events. rewrite count_app.
    destruct (ReqBody req) as [v|]; [destruct (json_Marshal v)|];
      by destruct (build' c bg req). }
  induction fuel as [|fuel IH]; intros attempt lastErr t; [done|].
  rewrite Do_loop_turn. destruct (attempt <=? _); [|done].
  destruct (outcome' _ _ _ _) as [response [e|]]; simpl.
  - destruct (attempt =? _); simpl.
    + rewrite count_app, Hev. lia.
    + rewrite IH, !count_app, Hev, count_cons, count_nil. simpl. lia.
  - rewrite count_app, Hev. lia.
Qed.

Lemma Do_no_unmarshal c req t :
  count is_unmarshal (Do' c req t).2 = count is_unmarshal t.
Proof.
  unfold Do, mbind, M_bind.
  pose proof (Do_loop_no_unmarshal c req
                (Z.to_nat (MaxRetries (retryConfig c) + 1)) 0 None t) as H.
  by destruct (Do_loop' _ _ _ _ _ _) as [[response|lastErr] t1].
Qed.

(** C9. [Do] returns a response and a nil error, or a nil response and an
    error, never both or neither. And when, after [k] failed attempts,
    the transport call of the next attempt brings a response, [Do] returns
    it at once, whatever its status code: the transport has been invoked
    [k + 1] times and [k] delays have been slept. *)
Theorem Do_response_or_error c req t :
  exactly_one (Do' c req t).1
  /\ forall k r status header body,
       build' c bg req = inl r ->
       Z.of_nat k <= MaxRetries (retryConfig c) ->
       (forall j, (j < k)%nat ->
          (result_of (transport (count is_send t + j) (httpClient c) r)).2 <> None) ->
       transport (count is_send t + k) (httpClient c) r
       = RTResponse status header (inl body) ->
       (Do' c req t).1
       = (Some {| StatusCode := status; Headers := header; Body := body |}, None)
       /\ count is_send (Do' c req t).2 = (count is_send t + S k)%nat
       /\ length (slept (Do' c req t).2) = (length (slept t) + k)%nat.
Proof.
  split; [apply Do_exactly_one|].
  intros k r status header body Hb Hk Hfail Hok.
  pose proof (per_attempt_built json_Marshal url_Parse range_order c bg req r Hb)
    as Hone.
  rewrite (Do_run _ _ _ _ _ c req k); rewrite ?Hone, ?Nat.mul_1_r; try done.
  - unfold outcome. rewrite Hb, Hok. simpl.
    rewrite count_app, count_send_attempts_trace, Hone, slept_app,
      slept_attempts_trace, length_app, length_fmap, length_seqZ.
    repeat split; lia.
  - intros j Hj. unfold outcome. rewrite Hb, Nat.mul_1_r. by apply Hfail.
  - left. unfold outcome. by rewrite Hb, Hok.
Qed.


(** The verb helpers of the JSON layer are [JSON] on the request they
    build. *)
Lemma JSON_helpers_delegate c url body result headers :
  GetJSON Any Context Background json_Marshal json_Unmarshal url_Parse transport
    range_order c url result headers
  = JSON' c {| Method := "GET"; URL := url; ReqHeaders := headers;
               ReqBody := None; Query := ∅ |} result
  /\ PostJSON Any Context Background json_Marshal json_Unmarshal url_Parse
       transport range_order c url body result headers
     = JSON' c {| Method := "POST"; URL := url; ReqHeaders := headers;
                  ReqBody := body; Query := ∅ |} result
  /\ PutJSON Any Context Background json_Marshal json_Unmarshal url_Parse
       transport range_order c url body result headers
     = JSON' c {| Method := "PUT"; URL := url; ReqHeaders := headers;
                  ReqBody := body; Query := ∅ |} result
  /\ DeleteJSON Any Context Background json_Marshal json_Unmarshal url_Parse
       transport range_order c url result headers
     = JSON' c {| Method := "DELETE"; URL := url; ReqHeaders := headers;
                  ReqBody := None; Query := ∅ |} result.
Proof. done. Qed.

(** C10. [WithContext] makes one attempt: it invokes the transport at most
    once, returns the error of a failed invocation as it is, sleeps no
    delay, and neither the retry configuration nor the circuit breaker
    configuration has any influence on it. *)
Theorem WithContext_single_attempt c ctx req t :
  (count is_send (WithContext' c ctx req t).2 <= count is_send t + 1)%nat
  /\ slept (WithContext' c ctx req t).2 = slept t
  /\ (forall r e,
        build' c ctx req = inl r ->
        transport (count is_send t) (httpClient c) r = RTError e ->
        (WithContext' c ctx req t).1 = (None, Some (ErrRequestFailed e))
        /\ count is_send (WithContext' c ctx req t).2 = (count is_send t + 1)%nat)
  /\ (forall rc cb,
        WithContext' (SetRetryConfig rc (SetCircuitBreaker cb c)) ctx req t
        = WithContext' c ctx req t).
Proof.
  rewrite WithContext_unfold. simpl.
  rewrite count_app, slept_app, count_send_attempt_events, slept_attempt_events,
    app_nil_r.
  split; [unfold sends_per_attempt; destruct (build' c ctx req); lia|].
  split; [done|]. split.
  - intros r e Hb Hrt. unfold outcome, sends_per_attempt. by rewrite Hb, Hrt.
  - intros rc cb. by rewrite !WithContext_unfold.
Qed.

End ResultFacts.

(** ** Headers *)

Section HeaderFacts.

Implicit Types (h : Header) (l : list (string * string)) (m : gmap string string).

Lemma canonical_content_type :
  CanonicalMIMEHeaderKey "Content-Type" = "Content-Type".
Proof. reflexivity. Qed.

Lemma set_all_cons k v l h :
  set_all ((k, v) :: l) h = set_all l (Header_Set k v h).
Proof. reflexivity. Qed.

(** Setting headers one after the other is a left-biased union with what
    was there. *)
Lemma set_all_union l : forall h, set_all l h = set_all l ∅ ∪ h.
Proof.
  induction l as [|[k v] l IH]; intros h.
  - simpl. by rewrite (left_id_L ∅ (∪)).
  - rewrite !set_all_cons, (IH (Header_Set k v h)), (IH (Header_Set k v ∅)).
    unfold Header_Set. rewrite insert_empty, <- (assoc_L (∪)).
    by rewrite <- insert_union_singleton_l.
Qed.

Lemma set_all_keeps l : forall h K,
  is_Some (h !! K) -> is_Some (set_all l h !! K).
Proof.
  induction l as [|[k v] l IH]; intros h K HK; [done|].
  rewrite set_all_cons. apply IH. unfold Header_Set.
  destruct (decide (CanonicalMIMEHeaderKey k = K)) as [->|Hne].
  - rewrite lookup_insert_eq. eauto.
  - by rewrite lookup_insert_ne.
Qed.

Lemma set_all_is_Some l k v : forall h,
  (k, v) ∈ l -> is_Some (set_all l h !! CanonicalMIMEHeaderKey k).
Proof.
  induction l as [|[k0 v0] l IH]; intros h Hin.
  - by apply elem_of_nil in Hin.
  - rewrite set_all_cons. apply elem_of_cons in Hin as [[= <- <-]|Hin].
    + apply set_all_keeps. unfold Header_Set. rewrite lookup_insert_eq. eauto.
    + by apply IH.
Qed.

(** A stored value comes from an entry with that canonical name, or was
    there before. *)
Lemma set_all_elem l : forall h K vs,
  set_all l h !! K = Some vs ->
  (exists k v, (k, v) ∈ l /\ CanonicalMIMEHeaderKey k = K /\ vs = [v])
  \/ h !! K = Some vs.
Proof.
  induction l as [|[k0 v0] l IH]; intros h K vs Hl; [by right|].
  rewrite set_all_cons in Hl. apply IH in Hl as [(k & v & Hin & HK & Hvs)|Hl].
  - left. exists k, v. split; [by apply elem_of_cons; right|done].
  - unfold Header_Set in Hl.
    destruct (decide (CanonicalMIMEHeaderKey k0 = K)) as [HK|Hne].
    + rewrite <- HK, lookup_insert_eq in Hl. injection Hl as <-.
      left. exists k0, v0. split; [apply elem_of_cons; by left|done].
    + rewrite lookup_insert_ne in Hl by done. by right.
Qed.

(** A key whose canonical name no other key of the map shares gets its
    own value, in whatever order the map is visited. *)
Lemma set_all_unique l m k v :
  l ≡ₚ map_to_list m ->
  m !! k = Some v ->
  (forall k', is_Some (m !! k') ->
     CanonicalMIMEHeaderKey k' = CanonicalMIMEHeaderKey k -> k' = k) ->
  set_all l ∅ !! CanonicalMIMEHeaderKey k = Some [v].
Proof.
  intros Hperm Hk Huniq.
  assert (Hin : (k, v) ∈ l) by (rewrite Hperm; by apply elem_of_map_to_list).
  destruct (set_all_is_Some l k v ∅ Hin) as [vs Hvs]. rewrite Hvs.
  apply set_all_elem in Hvs as [(k' & v' & Hin' & HK & ->)|Hvs]; [|done].
  rewrite Hperm in Hin'. apply elem_of_map_to_list in Hin'.
  assert (k' = k) as -> by (apply Huniq; eauto). congruence.
Qed.

(** Where no two keys of the map share a canonical name, the order in
    which the map is visited makes no difference. *)
Lemma set_all_perm l l' m :
  l ≡ₚ map_to_list m -> l' ≡ₚ map_to_list m -> distinct_names m ->
  set_all l ∅ = set_all l' ∅.
Proof.
  intros Hl Hl' Hm.
  assert (Hsub : forall l1 l2 K vs,
    l1 ≡ₚ map_to_list m -> l2 ≡ₚ map_to_list m ->
    set_all l1 ∅ !! K = Some vs -> set_all l2 ∅ !! K = Some vs).
  { intros l1 l2 K vs H1 H2 Hvs.
    apply set_all_elem in Hvs as [(k & v & Hin & <- & ->)|Hvs]; [|done].
    rewrite H1 in Hin. apply elem_of_map_to_list in Hin.
    apply (set_all_unique l2 m k v H2 Hin). apply Hm. eauto. }
  apply map_eq. intros K.
  destruct (set_all l ∅ !! K) as [vs|] eqn:Hvs.
  - symmetry. by apply (Hsub l l').
  - destruct (set_all l' ∅ !! K) as [vs'|] eqn:Hvs'; [|done].
    apply (Hsub l' l) in Hvs'; [|done..]. congruence.
Qed.

(** No entry with that canonical name, no header. *)
Lemma set_all_absent l m K :
  l ≡ₚ map_to_list m ->
  (forall k', CanonicalMIMEHeaderKey k' = K -> m !! k' = None) ->
  set_all l ∅ !! K = None.
Proof.
  intros Hperm Hnone.
  destruct (set_all l ∅ !! K) as [vs|] eqn:Hvs; [|done].
  apply set_all_elem in Hvs as [(k' & v' & Hin' & HK & ->)|Hvs]; [|done].
  rewrite Hperm in Hin'. apply elem_of_map_to_list in Hin'.
  rewrite (Hnone k' HK) in Hin'. done.
Qed.

End HeaderFacts.

(** ** The headers of the outgoing request *)

Section OutgoingFacts.

Context {Any Context : Type} (Background : Context).
Context (json_Marshal : Any -> bytes + Error).
Context (url_Parse : string -> option Error).
Context (transport : nat -> HttpClient -> HttpRequest Context -> RoundTrip).
Context (range_order : gmap string string -> list (string * string)).
Hypothesis range_order_perm : forall m, range_order m ≡ₚ map_to_list m.

Local Abbreviation doRequest' :=
  (doRequest Any Context Background json_Marshal url_Parse transport range_order).
Local Abbreviation build' :=
  (build Any Context json_Marshal url_Parse range_order).
Local Abbreviation outgoing_header' := (outgoing_header Any range_order).
Local Abbreviation bg := (Some Background).

Implicit Types (c : Client) (req : Request Any) (t : list (@Event Any Context)).

(** The request built is the request sent, and the only one. *)
Lemma doRequest_sent c req t r :
  build' c bg req = inl r ->
  sent (doRequest' c req t).2 = sent t ++ [r].
Proof.
  intros Hb. rewrite doRequest_unfold. simpl.
  unfold attempt_events, build_events. rewrite !sent_app, Hb.
  destruct (ReqBody req) as [v|]; [destruct (json_Marshal v)|]; done.
Qed.

Lemma build_header c ctx req r :
  build' c ctx req = inl r -> hHeader r = outgoing_header' c req.
Proof.
  unfold build. destruct (marshal_body _ _ _) as [b|e]; [|done].
  destruct (new_request_error _ _ _ _ _); [done|].
  destruct ctx; [|done]. by intros [= <-].
Qed.

(** Merge first, content type last. *)
Lemma outgoing_header_union c req :
  outgoing_header' c req
  = (match ReqBody req with
     | Some _ => Header_Set "Content-Type" "application/json"
     | None => fun h => h
     end)
      (set_all (range_order (ReqHeaders req)) ∅
       ∪ set_all (range_order (defaultHeaders c)) ∅).
Proof.
  unfold outgoing_header. rewrite (set_all_union (range_order (ReqHeaders req))).
  by destruct (ReqBody req).
Qed.

(** Outside the content type of a request with a body, the outgoing
    headers are the merge. *)
Lemma outgoing_header_merge c req K :
  ReqBody req = None \/ K <> "Content-Type" ->
  outgoing_header' c req !! K
  = (set_all (range_order (ReqHeaders req)) ∅
     ∪ set_all (range_order (defaultHeaders c)) ∅) !! K.
Proof.
  rewrite outgoing_header_union. intros [->|HK]; [done|].
  destruct (ReqBody req); [|done].
  unfold Header_Set. rewrite canonical_content_type. by rewrite lookup_insert_ne.
Qed.

(** C5, amended. A request with a body goes out with the content type
    [application/json], set after the headers of the client and of the
    request: a content type supplied by the caller, under any spelling of
    the header name, is overwritten. *)
Theorem content_type_always_json c req t r v :
  ReqBody req = Some v ->
  build' c bg req = inl r ->
  sent (doRequest' c req t).2 = sent t ++ [r]
  /\ hHeader r !! "Content-Type" = Some ["application/json"]
  /\ forall k, CanonicalMIMEHeaderKey k = "Content-Type" ->
       Header_Get k (hHeader r) = Some "application/json".
Proof.
  intros Hbody Hb. split; [by apply doRequest_sent|].
  rewrite (build_header c bg req r Hb). unfold outgoing_header. rewrite Hbody.
  unfold Header_Set, Header_Get. rewrite canonical_content_type.
  split; [by rewrite lookup_insert_eq|].
  intros k ->. by rewrite lookup_insert_eq.
Qed.

(** C7, amended. The headers of the outgoing request are the merge of the
    default headers and the headers of the request under their canonical
    names: a header of the request wins over a default header of the same
    name, a header present on one side only is passed through, a name
    present on neither side is absent. The content type of a request with
    a body is the exception: it is [application/json]. *)
Theorem headers_merged c req t r :
  build' c bg req = inl r ->
  sent (doRequest' c req t).2 = sent t ++ [r]
  /\ (forall k,
        ReqBody req = None \/ CanonicalMIMEHeaderKey k <> "Content-Type" ->
        (forall v, ReqHeaders req !! k = Some v ->
           sole_name (ReqHeaders req) k ->
           Header_Get k (hHeader r) = Some v)
        /\ (forall v, defaultHeaders c !! k = Some v ->
              sole_name (defaultHeaders c) k ->
              no_name (ReqHeaders req) (CanonicalMIMEHeaderKey k) ->
              Header_Get k (hHeader r) = Some v)
        /\ (no_name (ReqHeaders req) (CanonicalMIMEHeaderKey k) ->
            no_name (defaultHeaders c) (CanonicalMIMEHeaderKey k) ->
            Header_Get k (hHeader r) = None))
  /\ (is_Some (ReqBody req) ->
      Header_Get "Content-Type" (hHeader r) = Some "application/json").
Proof.
  intros Hb. split; [by apply doRequest_sent|].
  rewrite (build_header c bg req r Hb). split.
  - intros k Hk. unfold Header_Get.
    rewrite (outgoing_header_merge c req _ Hk).
    split; [|split].
    + intros v Hv Hsole.
      rewrite (lookup_union_Some_l _ _ _ [v]); [done|].
      by eapply set_all_unique.
    + intros v Hv Hsole Hnone.
      rewrite lookup_union_r by (by eapply set_all_absent).
      by rewrite (set_all_unique _ (defaultHeaders c) k v).
    + intros Hreq Hdef.
      rewrite lookup_union_r by (by eapply set_all_absent).
      by rewrite (set_all_absent _ (defaultHeaders c)).
  - intros [v Hv]. unfold outgoing_header, Header_Get, Header_Set.
    rewrite Hv, canonical_content_type. by rewrite lookup_insert_eq.
Qed.

End OutgoingFacts.

(** ** The rate limiter *)

Section LimiterFacts.

Implicit Types (s : LimiterState) (ch : Chan) (a : Action).

Lemma fill_full clock n : forall i ch,
  Z.of_nat (length (chan_buf ch)) + Z.of_nat n <= chan_cap ch ->
  exists ch', fill clock n i ch = Some ch'
    /\ chan_cap ch' = chan_cap ch
    /\ length (chan_buf ch') = (length (chan_buf ch) + n)%nat.
Proof.
  induction n as [|n IH]; intros i ch Hroom; simpl.
  - exists ch. repeat split; lia.
  - unfold chan_send.
    destruct (Z.ltb_spec (Z.of_nat (length (chan_buf ch))) (chan_cap ch)); [|lia].
    simpl.
    destruct (IH (S i) {| chan_cap := chan_cap ch;
                          chan_buf := chan_buf ch ++ [clock i] |})
      as (ch' & -> & Hcap & Hlen).
    { simpl. rewrite length_app. simpl. lia. }
    exists ch'. simpl in *. rewrite length_app in Hlen. simpl in Hlen.
    repeat split; [done|lia].
Qed.

Lemma NewRateLimiter_full clock rate burst :
  0 <= burst ->
  exists s0, NewRateLimiter clock rate burst = Some s0
    /\ tokens s0 = burst /\ conserved burst s0.
Proof.
  intros Hb. unfold NewRateLimiter.
  destruct (Z.ltb_spec burst 0); [lia|].
  destruct (fill_full clock (Z.to_nat burst) 0
              {| chan_cap := burst; chan_buf := [] |})
    as (ch & -> & Hcap & Hlen); [simpl; lia|].
  simpl in *. eexists. split; [done|].
  unfold conserved, tokens. simpl. rewrite Hlen. repeat split; lia.
Qed.

Lemma step_conserved burst a s s' :
  conserved burst s -> step a s = Some s' -> conserved burst s'.
Proof.
  unfold conserved, tokens. intros [Hcap Hsum] Hstep.
  destruct s as [[[cap buf] rt] cs rf]; simpl in *.
  destruct a as [now|i now|i|i]; simpl in Hstep.
  - unfold chan_recv in Hstep. simpl in Hstep.
    destruct buf as [|v rest]; [done|]. injection Hstep as <-. simpl in *.
    rewrite length_app. simpl. split; [done|lia].
  - destruct buf as [|v rest]; [|done].
    destruct (rf !! i) as [v|] eqn:Hi; [|done]. injection Hstep as <-.
    simpl in *. rewrite length_app, length_delete by eauto. simpl.
    apply lookup_lt_Some in Hi. split; [done|lia].
  - destruct (cs !! i) as [now|] eqn:Hi; [|done]. injection Hstep as <-.
    simpl in *. rewrite length_app, length_delete by eauto. simpl.
    apply lookup_lt_Some in Hi. split; [done|lia].
  - destruct (rf !! i) as [v|] eqn:Hi; [|done]. simpl in Hstep.
    unfold chan_send in Hstep. simpl in Hstep.
    destruct (Z.of_nat (length buf) <? cap); [|done]. injection Hstep as <-.
    simpl in *. rewrite length_app, length_delete by eauto. simpl.
    apply lookup_lt_Some in Hi. split; [done|lia].
Qed.

Lemma run_conserved burst acts : forall s s',
  conserved burst s -> run acts s = Some s' -> conserved burst s'.
Proof.
  induction acts as [|a acts IH]; intros s s' Hs Hrun; simpl in Hrun.
  - by injection Hrun as <-.
  - destruct (step a s) as [s1|] eqn:Hstep; [|done].
    eapply IH; [|done]. by eapply step_conserved.
Qed.

(** A goroutine that holds a token finds room for it. *)
Lemma refill_never_blocks burst s i :
  conserved burst s -> is_Some (refills s !! i) ->
  is_Some (step (ActRefill i) s).
Proof.
  unfold conserved, tokens. intros [Hcap Hsum] [v Hi]. simpl. rewrite Hi. simpl.
  unfold chan_send. apply lookup_lt_Some in Hi.
  destruct (Z.ltb_spec (Z.of_nat (length (chan_buf (requests (limiter s)))))
              (chan_cap (requests (limiter s)))); [by eauto|lia].
Qed.

(** C8. A limiter made with burst capacity [B >= 0] starts with exactly
    [B] tokens, and after any sequence of acquisitions and replenishments
    the number of available tokens is at least 0 and at most [B]; the
    tokens missing from the pool are those held by callers of [Wait] and
    by the replenishing goroutines, and none of these goroutines is ever
    kept from sending its token back. *)
Theorem tokens_bounded clock rate burst :
  0 <= burst ->
  exists s0,
    NewRateLimiter clock rate burst = Some s0
    /\ tokens s0 = burst
    /\ forall acts s, run acts s0 = Some s ->
         0 <= tokens s <= burst
         /\ tokens s + Z.of_nat (length (callers s))
              + Z.of_nat (length (refills s)) = burst
         /\ forall i, is_Some (refills s !! i) -> is_Some (step (ActRefill i) s).
Proof.
  intros Hb.
  destruct (NewRateLimiter_full clock rate burst Hb) as (s0 & Hnew & Htok & Hinv).
  exists s0. split; [done|]. split; [done|].
  intros acts s Hrun.
  pose proof (run_conserved burst acts s0 s Hinv Hrun) as Hs.
  split; [|split].
  - destruct Hs as [_ Hsum]. unfold tokens in *. lia.
  - by destruct Hs.
  - intros i. by apply (refill_never_blocks burst).
Qed.

End LimiterFacts.

(** ** Floating point

    Multiplications and conversions that involve no rounding: a float
    [F64.dyadic z t] holds the number [z * 2^t], and as long as the
    integer mantissas of the products fit 53 binary digits the results
    are again of that form. *)

Section FloatFacts.

Lemma digits2_pos_bounds p :
  2 ^ (Zpos (digits2_pos p) - 1) <= Zpos p < 2 ^ Zpos (digits2_pos p).
Proof.
  induction p as [p IH|p IH|]; simpl digits2_pos.
  - rewrite Pos2Z.inj_succ, Z.pow_succ_r by lia.
    replace (Z.succ (Zpos (digits2_pos p)) - 1)
      with (Z.succ (Zpos (digits2_pos p) - 1)) by lia.
    rewrite Z.pow_succ_r by lia. lia.
  - rewrite Pos2Z.inj_succ, Z.pow_succ_r by lia.
    replace (Z.succ (Zpos (digits2_pos p)) - 1)
      with (Z.succ (Zpos (digits2_pos p) - 1)) by lia.
    rewrite Z.pow_succ_r by lia. lia.
  - simpl. lia.
Qed.

Lemma digits_bounds z : 0 < z -> 2 ^ (F64.digits z - 1) <= z < 2 ^ F64.digits z.
Proof. destruct z as [|p|p]; try lia. intros _. apply digits2_pos_bounds. Qed.

Lemma digits_pos z : 0 < z -> 0 < F64.digits z.
Proof. destruct z; simpl; lia. Qed.

Lemma digits_unique z d : 0 < z -> 2 ^ (d - 1) <= z < 2 ^ d -> F64.digits z = d.
Proof.
  intros Hz [Hlo Hhi]. pose proof (digits_bounds z Hz) as [Hlo' Hhi'].
  pose proof (digits_pos z Hz).
  assert (0 < d).
  { destruct (Z.lt_trichotomy d 0) as [?|[->|?]]; [|simpl in *; lia|done].
    rewrite Z.pow_neg_r in Hhi by lia. lia. }
  destruct (Z.lt_trichotomy (F64.digits z) d) as [Hlt|[?|Hgt]]; [|done|].
  - assert (2 ^ F64.digits z <= 2 ^ (d - 1)) by (apply Z.pow_le_mono_r; lia). lia.
  - assert (2 ^ d <= 2 ^ (F64.digits z - 1)) by (apply Z.pow_le_mono_r; lia). lia.
Qed.

Lemma digits_shift z k : 0 < z -> 0 <= k -> F64.digits (z * 2 ^ k) = F64.digits z + k.
Proof.
  intros Hz Hk. pose proof (digits_bounds z Hz) as [Hlo Hhi].
  pose proof (digits_pos z Hz).
  assert (0 < 2 ^ k) by (apply Z.pow_pos_nonneg; lia).
  apply digits_unique; [lia|].
  replace (F64.digits z + k - 1) with ((F64.digits z - 1) + k) by lia.
  rewrite !Z.pow_add_r by lia. split; nia.
Qed.

Lemma digits_le_mono a b : 0 < a <= b -> F64.digits a <= F64.digits b.
Proof.
  intros [Ha Hab]. pose proof (digits_bounds a Ha) as [Hlo _].
  pose proof (digits_bounds b ltac:(lia)) as [_ Hhi].
  destruct (Z.le_gt_cases (F64.digits a) (F64.digits b)) as [|Hgt]; [done|].
  assert (2 ^ F64.digits b <= 2 ^ (F64.digits a - 1))
    by (apply Z.pow_le_mono_r; lia). lia.
Qed.

Lemma digits_lt_pow z d : 0 < z < 2 ^ d -> F64.digits z <= d.
Proof.
  intros [Hz Hd]. pose proof (digits_bounds z Hz) as [Hlo _].
  destruct (Z.le_gt_cases (F64.digits z) d) as [|Hgt]; [done|].
  assert (0 <= d).
  { destruct (Z.le_gt_cases 0 d); [done|]. rewrite Z.pow_neg_r in Hd; lia. }
  assert (2 ^ d <= 2 ^ (F64.digits z - 1)) by (apply Z.pow_le_mono_r; lia). lia.
Qed.

(** Shifting zeros out of a mantissa loses nothing. *)
Lemma iter_pos_nat {A} (f : A -> A) p : forall x,
  SpecFloat.iter_pos f p x = Nat.iter (Pos.to_nat p) f x.
Proof.
  induction p as [p IH|p IH|]; intros x; simpl SpecFloat.iter_pos.
  - rewrite !IH, Pos2Nat.inj_xI.
    replace (S (2 * Pos.to_nat p))%nat with (Pos.to_nat p + (Pos.to_nat p + 1))%nat by lia.
    rewrite !Nat.iter_add. reflexivity.
  - rewrite !IH, Pos2Nat.inj_xO.
    replace (2 * Pos.to_nat p)%nat with (Pos.to_nat p + Pos.to_nat p)%nat by lia.
    rewrite Nat.iter_add. reflexivity.
  - reflexivity.
Qed.

Lemma shr_1_even m :
  0 < m ->
  shr_1 {| shr_m := 2 * m; shr_r := false; shr_s := false |}
  = {| shr_m := m; shr_r := false; shr_s := false |}.
Proof. destruct m; try lia. reflexivity. Qed.

Lemma shr_zeros n : forall m,
  0 < m ->
  Nat.iter n shr_1 {| shr_m := m * 2 ^ Z.of_nat n; shr_r := false; shr_s := false |}
  = {| shr_m := m; shr_r := false; shr_s := false |}.
Proof.
  induction n as [|n IH]; intros m Hm.
  - simpl. f_equal. lia.
  - rewrite Nat.iter_succ_r, Nat2Z.inj_succ, Z.pow_succ_r by lia.
    replace (m * (2 * 2 ^ Z.of_nat n)) with (2 * (m * 2 ^ Z.of_nat n)) by lia.
    rewrite shr_1_even; [by apply IH|].
    assert (0 < 2 ^ Z.of_nat n) by (apply Z.pow_pos_nonneg; lia). nia.
Qed.

Lemma shr_exact m e n :
  0 < m -> 0 <= n ->
  shr {| shr_m := m * 2 ^ n; shr_r := false; shr_s := false |} e n
  = ({| shr_m := m; shr_r := false; shr_s := false |}, e + n).
Proof.
  intros Hm Hn. destruct n as [|p|p]; try lia.
  - simpl. rewrite Z.mul_1_r, Z.add_0_r. reflexivity.
  - unfold shr. rewrite iter_pos_nat.
    rewrite <- (positive_nat_Z p) at 1. by rewrite shr_zeros.
Qed.

Lemma fexp_64 x : -1074 <= x - 53 -> fexp 53 1024 x = x - 53.
Proof. unfold fexp, emin. lia. Qed.

Lemma dyadic_pos z t :
  0 < z -> F64.digits z <= 53 ->
  F64.dyadic z t
  = S754_finite false (Z.to_pos (z * 2 ^ (53 - F64.digits z))) (t + F64.digits z - 53).
Proof.
  intros Hz Hd. unfold F64.dyadic. destruct z as [|p|p]; try lia.
  unfold F64.prec. by rewrite Z.shiftl_mul_pow2 by lia.
Qed.

(** Rounding a number that needs no rounding. *)
Lemma round_exact z k e :
  0 < z -> F64.digits z <= 53 -> 53 - F64.digits z <= k ->
  -1074 <= e + k + F64.digits z - 53 <= 971 ->
  binary_round_aux 53 1024 false (z * 2 ^ k) e loc_Exact = F64.dyadic z (e + k).
Proof.
  intros Hz Hd Hk Hrange.
  pose proof (digits_pos z Hz) as HD.
  set (M := z * 2 ^ (53 - F64.digits z)).
  assert (HM : 0 < M).
  { unfold M. assert (0 < 2 ^ (53 - F64.digits z)) by (apply Z.pow_pos_nonneg; lia).
    nia. }
  assert (HdM : F64.digits M = 53) by (unfold M; rewrite digits_shift; lia).
  assert (Hsplit : z * 2 ^ k = M * 2 ^ (F64.digits z + k - 53)).
  { unfold M. rewrite <- Z.mul_assoc, <- Z.pow_add_r by lia. f_equal. f_equal. lia. }
  unfold binary_round_aux, shr_fexp.
  change (Zdigits2 (z * 2 ^ k)) with (F64.digits (z * 2 ^ k)).
  rewrite digits_shift by lia. rewrite fexp_64 by lia.
  change (shr_record_of_loc (z * 2 ^ k) loc_Exact)
    with {| shr_m := z * 2 ^ k; shr_r := false; shr_s := false |}.
  replace (F64.digits z + k + e - 53 - e) with (F64.digits z + k - 53) by lia.
  rewrite Hsplit, shr_exact by lia. simpl loc_of_shr_record. simpl shr_m.
  unfold round_nearest_even.
  change (Zdigits2 M) with (F64.digits M). rewrite HdM, fexp_64 by lia.
  replace (53 + (e + (F64.digits z + k - 53)) - 53 - (e + (F64.digits z + k - 53)))
    with 0 by lia.
  simpl shr. simpl shr_m.
  rewrite dyadic_pos by lia. fold M.
  destruct M as [|pM|pM]; try lia.
  destruct (Z.leb_spec (e + (F64.digits z + k - 53)) (1024 - 53)); [|lia].
  simpl. f_equal. lia.
Qed.

Lemma pos_iter_xO p d : Zpos (Pos.iter xO p d) = Zpos p * 2 ^ Zpos d.
Proof.
  induction d as [|d IH] using Pos.peano_ind.
  - simpl. lia.
  - rewrite Pos.iter_succ, Pos2Z.inj_xO, IH, Pos2Z.inj_succ, Z.pow_succ_r by lia.
    lia.
Qed.

Lemma of_int_exact z : 0 <= z < 2 ^ 53 -> F64.of_int z = F64.dyadic z 0.
Proof.
  intros [Hz Hlt]. destruct z as [|p|p]; [done| |lia].
  assert (HD : F64.digits (Zpos p) <= 53) by (apply digits_lt_pow; lia).
  pose proof (digits_pos (Zpos p) ltac:(lia)) as HD0.
  unfold F64.of_int, binary_normalize, binary_round, F64.prec, F64.emax.
  change (Zpos (digits2_pos p)) with (F64.digits (Zpos p)) in *.
  rewrite Z.add_0_r, fexp_64 by lia. unfold shl_align.
  destruct (F64.digits (Zpos p) - 53 - 0) as [|q|q] eqn:Hq; [|lia|].
  - replace (Zpos p) with (Zpos p * 2 ^ 0) at 1 by lia.
    rewrite round_exact; [done|lia..].
  - rewrite pos_iter_xO, round_exact; try lia. f_equal. lia.
Qed.

Lemma digits_mul a b : 0 < a -> 0 < b -> F64.digits a + F64.digits b - 1 <= F64.digits (a * b).
Proof.
  intros Ha Hb. pose proof (digits_bounds a Ha) as [Hla _].
  pose proof (digits_bounds b Hb) as [Hlb _].
  pose proof (digits_bounds (a * b) ltac:(nia)) as [_ Hh].
  pose proof (digits_pos a Ha). pose proof (digits_pos b Hb).
  destruct (Z.le_gt_cases (F64.digits a + F64.digits b - 1) (F64.digits (a * b)))
    as [|Hgt]; [done|].
  assert (2 ^ F64.digits (a * b) <= 2 ^ (F64.digits a - 1 + (F64.digits b - 1)))
    by (apply Z.pow_le_mono_r; lia).
  rewrite Z.pow_add_r in * by lia. nia.
Qed.

Lemma mul_exact z1 t1 z2 t2 :
  0 <= z1 -> 0 <= z2 -> z1 * z2 < 2 ^ 53 ->
  (0 < z1 * z2 -> -1074 <= t1 + t2 + F64.digits (z1 * z2) - 53 <= 971) ->
  F64.mul (F64.dyadic z1 t1) (F64.dyadic z2 t2) = F64.dyadic (z1 * z2) (t1 + t2).
Proof.
  intros H1 H2 Hlt Hrange.
  destruct (Z.eq_dec z1 0) as [->|Hn1].
  { destruct z2; done. }
  destruct (Z.eq_dec z2 0) as [->|Hn2].
  { rewrite Z.mul_0_r. destruct z1; done. }
  assert (Hp : 0 < z1 * z2) by nia. specialize (Hrange Hp).
  assert (HD1 : F64.digits z1 <= 53) by (apply digits_lt_pow; nia).
  assert (HD2 : F64.digits z2 <= 53) by (apply digits_lt_pow; nia).
  pose proof (digits_pos z1 ltac:(lia)). pose proof (digits_pos z2 ltac:(lia)).
  pose proof (digits_mul z1 z2 ltac:(lia) ltac:(lia)).
  assert (HD : F64.digits (z1 * z2) <= 53) by (apply digits_lt_pow; lia).
  rewrite (dyadic_pos z1), (dyadic_pos z2) by lia.
  unfold F64.mul, SFmul, F64.prec, F64.emax. simpl xorb.
  assert (0 < 2 ^ (53 - F64.digits z1)) by (apply Z.pow_pos_nonneg; lia).
  assert (0 < 2 ^ (53 - F64.digits z2)) by (apply Z.pow_pos_nonneg; lia).
  rewrite Pos2Z.inj_mul, !Z2Pos.id by nia.
  replace (z1 * 2 ^ (53 - F64.digits z1) * (z2 * 2 ^ (53 - F64.digits z2)))
    with (z1 * z2 * 2 ^ (106 - F64.digits z1 - F64.digits z2)).
  2:{ replace (106 - F64.digits z1 - F64.digits z2)
        with ((53 - F64.digits z1) + (53 - F64.digits z2)) by lia.
      rewrite Z.pow_add_r by lia. lia. }
  rewrite round_exact; try lia. f_equal. lia.
Qed.

Lemma trunc_exact z t :
  0 <= z -> F64.digits z <= 53 -> F64.trunc (F64.dyadic z t) = Some (Z.shiftl z t).
Proof.
  intros Hz HD. destruct (Z.eq_dec z 0) as [->|Hn].
  { simpl. by rewrite Z.shiftl_0_l. }
  pose proof (digits_pos z ltac:(lia)).
  rewrite dyadic_pos by lia. unfold F64.trunc. simpl cond_Zopp.
  assert (0 < 2 ^ (53 - F64.digits z)) by (apply Z.pow_pos_nonneg; lia).
  rewrite Z2Pos.id by nia. f_equal.
  rewrite <- (Z.shiftl_mul_pow2 z) by lia.
  transitivity (Z.shiftl (Z.shiftl z (53 - F64.digits z)) (t + F64.digits z - 53)).
  - destruct (t + F64.digits z - 53) as [|q|q]; [by rewrite Z.shiftl_0_r|done|].
    by rewrite <- Z.shiftl_opp_r.
  - rewrite Z.shiftl_shiftl by lia. f_equal. lia.
Qed.

(** [Z.shiftl a s] is [a * 2^s] rounded down; along the powers of a
    factor that is at least 1 it does not decrease. *)

Lemma shiftl_le_mono a b s : a <= b -> Z.shiftl a s <= Z.shiftl b s.
Proof.
  intros Hab. destruct (Z.le_gt_cases 0 s).
  - rewrite !Z.shiftl_mul_pow2 by lia.
    assert (0 < 2 ^ s) by (apply Z.pow_pos_nonneg; lia). nia.
  - rewrite !Z.shiftl_div_pow2 by lia.
    apply Z.div_le_mono; [apply Z.pow_pos_nonneg; lia|done].
Qed.

Lemma factor_ge_divisor zb tb :
  1 <= Z.shiftl zb tb -> tb < 0 -> 2 ^ (- tb) <= zb.
Proof.
  intros Hb Htb. rewrite Z.shiftl_div_pow2 in Hb by lia.
  assert (0 < 2 ^ (- tb)) by (apply Z.pow_pos_nonneg; lia).
  destruct (Z.le_gt_cases (2 ^ (- tb)) zb) as [|Hlt]; [done|].
  destruct (Z.le_gt_cases 0 zb).
  - rewrite Z.div_small in Hb; lia.
  - assert (zb / 2 ^ (- tb) < 0) by (apply Z.div_lt_upper_bound; lia). lia.
Qed.

Lemma value_step X zb tb j :
  0 <= X -> 1 <= zb -> 1 <= Z.shiftl zb tb -> 0 <= j ->
  Z.shiftl (X * zb ^ j) (j * tb) <= Z.shiftl (X * zb ^ (j + 1)) ((j + 1) * tb).
Proof.
  intros HX Hzb Hb Hj.
  assert (0 < zb ^ j) by (apply Z.pow_pos_nonneg; lia).
  rewrite Z.pow_add_r, Z.pow_1_r by lia.
  destruct (Z.le_gt_cases 0 tb) as [Htb|Htb].
  - rewrite !Z.shiftl_mul_pow2 by nia.
    replace ((j + 1) * tb) with (j * tb + tb) by lia.
    rewrite Z.pow_add_r by nia.
    assert (0 < 2 ^ (j * tb)) by (apply Z.pow_pos_nonneg; nia).
    assert (0 < 2 ^ tb) by (apply Z.pow_pos_nonneg; nia).
    replace (X * (zb ^ j * zb) * (2 ^ (j * tb) * 2 ^ tb))
      with (X * zb ^ j * 2 ^ (j * tb) * (zb * 2 ^ tb)) by ring.
    assert (0 <= X * zb ^ j * 2 ^ (j * tb))
      by (repeat apply Z.mul_nonneg_nonneg; lia).
    assert (1 <= zb * 2 ^ tb) by nia.
    nia.
  - pose proof (factor_ge_divisor zb tb Hb Htb) as HQ.
    rewrite !Z.shiftl_div_pow2 by nia.
    replace (- ((j + 1) * tb)) with (- (j * tb) + - tb) by lia.
    rewrite Z.pow_add_r by nia.
    assert (0 < 2 ^ (- (j * tb))) by (apply Z.pow_pos_nonneg; nia).
    assert (0 < 2 ^ (- tb)) by (apply Z.pow_pos_nonneg; nia).
    rewrite <- (Z.div_mul_cancel_r (X * zb ^ j) (2 ^ (- (j * tb))) (2 ^ (- tb)))
      by lia.
    apply Z.div_le_mono; nia.
Qed.

Lemma value_mono X zb tb j (k : nat) :
  0 <= X -> 1 <= zb -> 1 <= Z.shiftl zb tb -> 0 <= j ->
  Z.shiftl (X * zb ^ j) (j * tb)
  <= Z.shiftl (X * zb ^ (j + Z.of_nat k)) ((j + Z.of_nat k) * tb).
Proof.
  intros HX Hzb Hb Hj. induction k as [|k IH].
  - rewrite Z.add_0_r. lia.
  - etransitivity; [exact IH|].
    replace (j + Z.of_nat (S k)) with ((j + Z.of_nat k) + 1) by lia.
    apply value_step; lia.
Qed.

Lemma value_mono_le X zb tb j n :
  0 <= X -> 1 <= zb -> 1 <= Z.shiftl zb tb -> 0 <= j <= n ->
  Z.shiftl (X * zb ^ j) (j * tb) <= Z.shiftl (X * zb ^ n) (n * tb).
Proof.
  intros HX Hzb Hb Hj.
  replace n with (j + Z.of_nat (Z.to_nat (n - j))) by lia.
  apply value_mono; lia.
Qed.

Lemma value_ge_1 zb tb n :
  1 <= zb -> 1 <= Z.shiftl zb tb -> 0 <= n ->
  1 <= Z.shiftl (zb ^ n) (n * tb).
Proof.
  intros Hzb Hb Hn.
  pose proof (value_mono_le 1 zb tb 0 n ltac:(lia) Hzb Hb ltac:(lia)) as H.
  rewrite !Z.mul_1_l, Z.pow_0_r, Z.mul_0_l, Z.shiftl_0_r in H. lia.
Qed.

Lemma digits_value_lower X s : 0 < X -> 1 <= Z.shiftl X s -> 1 <= F64.digits X + s.
Proof.
  intros HX Hv. pose proof (digits_pos X HX).
  destruct (Z.le_gt_cases 0 s) as [|Hs]; [lia|].
  pose proof (factor_ge_divisor X s Hv Hs).
  pose proof (digits_bounds X HX) as [_ Hhi].
  destruct (Z.le_gt_cases 1 (F64.digits X + s)) as [|Hlt]; [done|].
  assert (2 ^ F64.digits X <= 2 ^ (- s)) by (apply Z.pow_le_mono_r; lia). lia.
Qed.

Lemma digits_value_upper X s :
  0 < X -> F64.digits X <= 53 -> Z.shiftl X s < 2 ^ 63 -> F64.digits X + s <= 63.
Proof.
  intros HX HD Hv. destruct (Z.le_gt_cases 0 s) as [Hs|]; [|lia].
  rewrite Z.shiftl_mul_pow2 in Hv by lia.
  assert (0 < 2 ^ s) by (apply Z.pow_pos_nonneg; lia).
  rewrite <- digits_shift by lia. apply digits_lt_pow. nia.
Qed.

(** [pow] on such a base. *)
Lemma iter_mul_exact zb tb (n : nat) :
  1 <= zb -> 1 <= Z.shiftl zb tb ->
  zb ^ Z.of_nat n < 2 ^ 53 ->
  Z.shiftl (zb ^ Z.of_nat n) (Z.of_nat n * tb) < 2 ^ 63 ->
  Nat.iter n (fun result => F64.mul result (F64.dyadic zb tb)) F64.one
  = F64.dyadic (zb ^ Z.of_nat n) (Z.of_nat n * tb).
Proof.
  intros Hzb Hb. induction n as [|n IH]; intros Hm Hv; [done|].
  assert (Hpow : zb ^ Z.of_nat (S n) = zb ^ Z.of_nat n * zb).
  { rewrite Nat2Z.inj_succ, Z.pow_succ_r by lia. lia. }
  assert (0 < zb ^ Z.of_nat n) by (apply Z.pow_pos_nonneg; lia).
  pose proof (value_step 1 zb tb (Z.of_nat n) ltac:(lia) Hzb Hb ltac:(lia)) as Hstep.
  rewrite !Z.mul_1_l in Hstep.
  replace (Z.of_nat n + 1) with (Z.of_nat (S n)) in Hstep by lia.
  rewrite Nat.iter_succ, IH by nia.
  rewrite mul_exact; try nia.
  - rewrite <- Hpow. f_equal. lia.
  - intros _. rewrite <- Hpow.
    replace (Z.of_nat n * tb + tb) with (Z.of_nat (S n) * tb) by lia.
    pose proof (value_ge_1 zb tb (Z.of_nat (S n)) Hzb Hb ltac:(lia)) as Hge.
    assert (Hpos : 0 < zb ^ Z.of_nat (S n)) by (apply Z.pow_pos_nonneg; lia).
    assert (HD : F64.digits (zb ^ Z.of_nat (S n)) <= 53) by (apply digits_lt_pow; lia).
    pose proof (digits_value_lower _ _ Hpos Hge).
    pose proof (digits_value_upper _ _ Hpos HD Hv). lia.
Qed.

Lemma to_int_of_int i : 0 <= i < 2 ^ 53 -> F64.to_int (F64.of_int i) = i.
Proof.
  intros Hi. rewrite of_int_exact by done. unfold F64.to_int.
  assert (F64.digits i <= 53).
  { destruct (Z.eq_dec i 0) as [->|]; [done|]. apply digits_lt_pow; lia. }
  rewrite trunc_exact, Z.shiftl_0_r by lia.
  assert (Hin : in_int64 i = true).
  { unfold in_int64, min_int64, max_int64.
    apply andb_true_intro; split; apply Z.leb_le; lia. }
  by rewrite Hin.
Qed.

Lemma pow_exact zb tb i :
  1 <= zb -> 1 <= Z.shiftl zb tb -> 0 <= i < 2 ^ 53 ->
  zb ^ i < 2 ^ 53 ->
  Z.shiftl (zb ^ i) (i * tb) < 2 ^ 63 ->
  pow (F64.dyadic zb tb) (F64.of_int i) = F64.dyadic (zb ^ i) (i * tb).
Proof.
  intros Hzb Hb Hi Hm Hv. unfold pow. rewrite to_int_of_int by done.
  rewrite iter_mul_exact; rewrite ?Z2Nat.id by lia; done.
Qed.

Lemma backoff_delay_exact cfg d zb tb i :
  Delay cfg = d -> Backoff cfg = F64.dyadic zb tb ->
  0 <= d -> 1 <= zb -> 1 <= Z.shiftl zb tb -> 0 <= i < 2 ^ 53 ->
  Z.max d 1 * zb ^ i < 2 ^ 53 ->
  Z.shiftl (Z.max d 1 * zb ^ i) (i * tb) <= max_int64 ->
  backoff_delay cfg i = Z.shiftl (d * zb ^ i) (i * tb).
Proof.
  intros <- Hback Hd Hzb Hb Hi Hm Hv. unfold backoff_delay. rewrite Hback.
  assert (0 < zb ^ i) by (apply Z.pow_pos_nonneg; lia).
  assert (Hle1 : Z.shiftl (zb ^ i) (i * tb)
                 <= Z.shiftl (Z.max (Delay cfg) 1 * zb ^ i) (i * tb))
    by (apply shiftl_le_mono; nia).
  assert (Hle2 : Z.shiftl (Delay cfg * zb ^ i) (i * tb)
                 <= Z.shiftl (Z.max (Delay cfg) 1 * zb ^ i) (i * tb))
    by (apply shiftl_le_mono; nia).
  unfold max_int64 in Hv.
  rewrite pow_exact, of_int_exact by (done || nia || lia).
  rewrite mul_exact; try nia.
  - unfold F64.to_int.
    assert (F64.digits (Delay cfg * zb ^ i) <= 53).
    { destruct (Z.eq_dec (Delay cfg) 0) as [->|]; [done|].
      apply digits_lt_pow; nia. }
    rewrite trunc_exact, Z.add_0_l by nia.
    assert (0 <= Z.shiftl (Delay cfg * zb ^ i) (i * tb))
      by (apply Z.shiftl_nonneg; nia).
    assert (Hin : in_int64 (Z.shiftl (Delay cfg * zb ^ i) (i * tb)) = true).
    { unfold in_int64, min_int64, max_int64.
      apply andb_true_intro; split; apply Z.leb_le; lia. }
    by rewrite Hin.
  - intros Hpos. rewrite Z.add_0_l.
    assert (1 <= Delay cfg) by nia.
    pose proof (value_ge_1 zb tb i Hzb Hb ltac:(lia)) as Hge.
    assert (Hge' : 1 <= Z.shiftl (Delay cfg * zb ^ i) (i * tb)).
    { etransitivity; [exact Hge|]. apply shiftl_le_mono. nia. }
    assert (HD : F64.digits (Delay cfg * zb ^ i) <= 53) by (apply digits_lt_pow; nia).
    pose proof (digits_value_lower _ _ Hpos Hge').
    assert (Hlt : Z.shiftl (Delay cfg * zb ^ i) (i * tb) < 2 ^ 63) by lia.
    pose proof (digits_value_upper _ _ Hpos HD Hlt). lia.
Qed.

Lemma to_Q_dyadic z t :
  0 < z -> F64.digits z <= 53 ->
  exists q, F64.to_Q (F64.dyadic z t) = Some q
    /\ (q == inject_Z z * Qpower 2 t)%Q.
Proof.
  intros Hz HD. rewrite dyadic_pos by lia. unfold F64.to_Q.
  eexists. split; [reflexivity|]. simpl cond_Zopp.
  assert (0 < 2 ^ (53 - F64.digits z)) by (apply Z.pow_pos_nonneg; lia).
  rewrite Z2Pos.id by nia.
  rewrite inject_Z_mult, Zpower_Qpower by lia.
  rewrite <- Qmult_assoc, <- Qpower_plus by done.
  replace (53 - F64.digits z + (t + F64.digits z - 53)) with t by lia.
  reflexivity.
Qed.

End FloatFacts.

(** ** Rounding

    [F64.mul] on floats from 1 upwards: the product of the mantissas is
    rounded to 53 digits, to nearest and ties to even, and this rounding
    keeps the order. So do the powers of a multiplier that is at least 1,
    the products with the base delay and their integer parts. The powers
    of a multiplier [zb * 2^tb] are exact as long as [zb^k] fits the
    mantissa and the power is in the normal range; below that range they
    are too small to leave a delay. *)

Section RoundingFacts.

Lemma shr_1_nonneg m r s :
  0 <= m ->
  shr_1 {| shr_m := m; shr_r := r; shr_s := s |}
  = {| shr_m := m / 2; shr_r := Z.odd m; shr_s := r || s |}.
Proof.
  intros Hm. destruct m as [|p|p]; [done| |lia].
  destruct p as [p|p|]; simpl; f_equal.
  - rewrite Pos2Z.inj_xI. Z.to_euclidean_division_equations. lia.
  - rewrite Pos2Z.inj_xO. Z.to_euclidean_division_equations. lia.
Qed.

Lemma shr_iter M (k : nat) :
  0 <= M ->
  Nat.iter k shr_1 {| shr_m := M; shr_r := false; shr_s := false |} = shifted M k.
Proof.
  intros HM. induction k as [|k IH].
  - unfold shifted. simpl. rewrite Z.div_1_r, Z.mod_1_r. done.
  - simpl Nat.iter. rewrite IH. unfold shifted.
    rewrite shr_1_nonneg by (apply Z.div_pos; lia).
    rewrite Nat2Z.inj_succ, Z.pow_succ_r by lia.
    set (P := 2 ^ Z.of_nat k). assert (HP : 0 < P) by (apply Z.pow_pos_nonneg; lia).
    assert (Hq : M / (2 * P) = M / P / 2).
    { rewrite (Z.mul_comm 2 P). by rewrite Z.div_div by lia. }
    assert (Hr : M mod (2 * P) = (M / P) mod 2 * P + M mod P).
    { rewrite (Z.mul_comm 2 P), Z.rem_mul_r by lia. lia. }
    assert (Ho : Z.odd (M / P) = ((M / P) mod 2 =? 1)).
    { rewrite Zmod_odd. by destruct (Z.odd (M / P)). }
    pose proof (Z.mod_pos_bound M P HP).
    pose proof (Z.mod_pos_bound (M / P) 2 ltac:(lia)) as Hx.
    remember ((M / P) mod 2) as x eqn:Heqx. clear Heqx.
    assert (Hx' : x = 0 \/ x = 1) by lia.
    f_equal.
    + done.
    + rewrite Hr, Ho.
      destruct Hx' as [E|E]; rewrite E; simpl;
        rewrite ?Z.mul_0_l, ?Z.mul_1_l, ?Z.add_0_l;
        match goal with |- _ = (?a <=? ?b) => destruct (Z.leb_spec a b) end;
        try done; lia.
    + rewrite Hr.
      destruct Hx' as [E|E]; rewrite E;
        rewrite ?Z.mul_0_l, ?Z.mul_1_l, ?Z.add_0_l;
        destruct (Z.leb_spec P (2 * (M mod P)));
        destruct (Z.eqb_spec (M mod P) 0);
        destruct (Z.eqb_spec (2 * (M mod P)) P);
        repeat match goal with
        | |- context [?a =? ?b] => destruct (Z.eqb_spec a b)
        end;
        simpl; try done; try lia.
Qed.

Lemma round_shifted M (k : nat) :
  0 <= M ->
  round_nearest_even (shr_m (shifted M k)) (loc_of_shr_record (shifted M k))
  = rne M (Z.of_nat k).
Proof.
  intros HM. unfold shifted, rne. simpl.
  set (P := 2 ^ Z.of_nat k). assert (HP : 0 < P) by (apply Z.pow_pos_nonneg; lia).
  pose proof (Z.mod_pos_bound M P HP).
  rewrite <- Z.negb_even.
  destruct (Z.leb_spec P (2 * (M mod P)));
    destruct (Z.eqb_spec (M mod P) 0);
    destruct (Z.eqb_spec (2 * (M mod P)) P);
    destruct (Z.ltb_spec P (2 * (M mod P)));
    destruct (Z.eqb_spec P (2 * (M mod P)));
    simpl; try done; try lia.
  all: by destruct (Z.even (M / P)).
Qed.

Lemma shr_shifted M E s :
  0 <= M -> 0 <= s ->
  shr {| shr_m := M; shr_r := false; shr_s := false |} E s
  = (shifted M (Z.to_nat s), E + s).
Proof.
  intros HM Hs. destruct s as [|p|p]; [| |lia].
  - simpl. rewrite Z.add_0_r. f_equal. apply (shr_iter M 0 HM).
  - simpl. f_equal. rewrite iter_pos_nat. by apply shr_iter.
Qed.

Lemma rne_bounds M :
  0 < M -> 53 <= F64.digits M ->
  2 ^ 52 <= rne M (F64.digits M - 53) <= 2 ^ 53.
Proof.
  intros HM Hn. pose proof (digits_bounds M HM) as [Hlo Hhi].
  set (s := F64.digits M - 53) in *.
  assert (HP : 0 < 2 ^ s) by (apply Z.pow_pos_nonneg; lia).
  assert (Hlo' : 2 ^ 52 * 2 ^ s <= M).
  { rewrite <- Z.pow_add_r by lia. by replace (52 + s) with (F64.digits M - 1) by lia. }
  assert (Hhi' : M < 2 ^ 53 * 2 ^ s).
  { rewrite <- Z.pow_add_r by lia. by replace (53 + s) with (F64.digits M) by lia. }
  assert (Hq : 2 ^ 52 <= M / 2 ^ s < 2 ^ 53).
  { split; [by apply Z.div_le_lower_bound; lia|].
    apply Z.div_lt_upper_bound; lia. }
  unfold rne. destruct (_ || _); lia.
Qed.

(** The rounding of [SpecFloat] on such a number. *)
Lemma binary_round_aux_pos M E :
  0 < M -> 53 <= F64.digits M -> -1074 <= F64.digits M + E - 53 ->
  binary_round_aux 53 1024 false M E loc_Exact = round_pos M E.
Proof.
  intros HM Hn Hmin. pose proof (rne_bounds M HM Hn) as Hb.
  unfold binary_round_aux, shr_fexp, round_pos.
  change (Zdigits2 M) with (F64.digits M).
  rewrite fexp_64 by lia.
  replace (F64.digits M + E - 53 - E) with (F64.digits M - 53) by lia.
  set (s := F64.digits M - 53) in *. simpl shr_record_of_loc.
  rewrite shr_shifted by lia. rewrite round_shifted by lia.
  rewrite Z2Nat.id by lia.
  set (m := rne M s) in *.
  destruct (Z.eqb_spec m (2 ^ 53)) as [->|Hne].
  - change (Zdigits2 (2 ^ 53)) with 54. rewrite fexp_64 by lia.
    replace (54 + (E + s) - 53 - (E + s)) with 1 by lia. simpl.
    replace (E + s + 1 <=? 971) with (E + s + 1 <=? 1024 - 53) by done. done.
  - assert (Hd : Zdigits2 m = 53).
    { apply (digits_unique m 53); lia. }
    rewrite Hd, fexp_64 by lia.
    replace (53 + (E + s) - 53 - (E + s)) with 0 by lia. simpl.
    destruct m as [|p|p]; [lia| |lia]. simpl. done.
Qed.

Lemma vle_base M1 E1 M2 E2 base :
  base <= E1 -> base <= E2 ->
  M1 * 2 ^ (E1 - base) <= M2 * 2 ^ (E2 - base) <-> vle M1 E1 M2 E2.
Proof.
  intros H1 H2. unfold vle. set (lo := Z.min E1 E2).
  assert (Hd : 0 < 2 ^ (lo - base)) by (apply Z.pow_pos_nonneg; lia).
  replace (E1 - base) with (E1 - lo + (lo - base)) by lia.
  replace (E2 - base) with (E2 - lo + (lo - base)) by lia.
  rewrite !Z.pow_add_r, !Z.mul_assoc by lia.
  split; intros H.
  - by apply Z.mul_le_mono_pos_r in H.
  - by apply Z.mul_le_mono_pos_r.
Qed.

Lemma rne_scale M s k :
  0 <= s -> 0 <= k -> rne (M * 2 ^ k) (s + k) = rne M s.
Proof.
  intros Hs Hk. unfold rne.
  assert (HP : 0 < 2 ^ s) by (apply Z.pow_pos_nonneg; lia).
  assert (HK : 0 < 2 ^ k) by (apply Z.pow_pos_nonneg; lia).
  rewrite Z.pow_add_r by lia.
  rewrite Z.div_mul_cancel_r by lia.
  rewrite Zmult_mod_distr_r.
  replace (2 ^ s * 2 ^ k <? 2 * (M mod 2 ^ s * 2 ^ k))
    with (2 ^ s <? 2 * (M mod 2 ^ s)).
  2:{ destruct (Z.ltb_spec (2 ^ s) (2 * (M mod 2 ^ s)));
      destruct (Z.ltb_spec (2 ^ s * 2 ^ k) (2 * (M mod 2 ^ s * 2 ^ k)));
      try done; nia. }
  replace (2 ^ s * 2 ^ k =? 2 * (M mod 2 ^ s * 2 ^ k))
    with (2 ^ s =? 2 * (M mod 2 ^ s)).
  2:{ destruct (Z.eqb_spec (2 ^ s) (2 * (M mod 2 ^ s)));
      destruct (Z.eqb_spec (2 ^ s * 2 ^ k) (2 * (M mod 2 ^ s * 2 ^ k)));
      try done; nia. }
  done.
Qed.

Lemma rne_mono M1 M2 s :
  0 <= M1 <= M2 -> 0 <= s -> rne M1 s <= rne M2 s.
Proof.
  intros HM Hs. unfold rne.
  assert (HP : 0 < 2 ^ s) by (apply Z.pow_pos_nonneg; lia).
  set (P := 2 ^ s) in *.
  pose proof (Z.div_mod M1 P ltac:(lia)) as H1.
  pose proof (Z.div_mod M2 P ltac:(lia)) as H2.
  pose proof (Z.mod_pos_bound M1 P HP) as Hr1.
  pose proof (Z.mod_pos_bound M2 P HP) as Hr2.
  assert (Hq : M1 / P <= M2 / P) by (apply Z.div_le_mono; lia).
  set (q1 := M1 / P) in *. set (q2 := M2 / P) in *.
  set (r1 := M1 mod P) in *. set (r2 := M2 mod P) in *.
  destruct (Z.eq_dec q1 q2) as [Heq|Hne].
  - assert (r1 <= r2) by nia. rewrite Heq.
    destruct (Z.ltb_spec P (2 * r1)); destruct (Z.eqb_spec P (2 * r1));
      destruct (Z.ltb_spec P (2 * r2)); destruct (Z.eqb_spec P (2 * r2));
      destruct (Z.odd q2); simpl; lia.
  - destruct (_ || _); destruct (_ || _); lia.
Qed.

(** The mantissa and the exponent of a rounded number. *)
Lemma round_pos_cases M E :
  0 < M -> 53 <= F64.digits M ->
  exists mf ef,
    2 ^ 52 <= mf < 2 ^ 53
    /\ E + (F64.digits M - 53) <= ef <= E + (F64.digits M - 53) + 1
    /\ (forall base, base <= E ->
          mf * 2 ^ (ef - base)
          = rne M (F64.digits M - 53) * 2 ^ (E + (F64.digits M - 53) - base))
    /\ round_pos M E
       = if ef <=? 971 then S754_finite false (Z.to_pos mf) ef
         else S754_infinity false.
Proof.
  intros HM Hn. pose proof (rne_bounds M HM Hn) as Hb. unfold round_pos.
  set (s := F64.digits M - 53) in *. set (m := rne M s) in *.
  destruct (Z.eqb_spec m (2 ^ 53)) as [Hm|Hm].
  - exists (2 ^ 52), (E + s + 1). split; [lia|]. split; [lia|]. split; [|done].
    intros base Hbase. rewrite Hm.
    replace (E + s + 1 - base) with (1 + (E + s - base)) by lia.
    rewrite Z.pow_add_r by lia. lia.
  - exists m, (E + s). split; [lia|]. split; [lia|]. done.
Qed.

(** Rounding keeps the order. *)
Lemma round_pos_mono M1 E1 M2 E2 :
  0 < M1 -> 53 <= F64.digits M1 ->
  0 < M2 -> 53 <= F64.digits M2 ->
  vle M1 E1 M2 E2 ->
  fle (round_pos M1 E1) (round_pos M2 E2).
Proof.
  intros HM1 Hn1 HM2 Hn2 Hle. unfold vle in Hle.
  set (base := Z.min E1 E2) in *.
  assert (Hk1 : 0 <= E1 - base) by lia. assert (Hk2 : 0 <= E2 - base) by lia.
  set (k1 := E1 - base) in *. set (k2 := E2 - base) in *.
  assert (HV1 : 0 < M1 * 2 ^ k1) by (apply Z.mul_pos_pos; [|apply Z.pow_pos_nonneg]; lia).
  assert (HV2 : 0 < M2 * 2 ^ k2) by (apply Z.mul_pos_pos; [|apply Z.pow_pos_nonneg]; lia).
  pose proof (digits_le_mono _ _ (conj HV1 Hle)) as Hg.
  rewrite !digits_shift in Hg by lia.
  destruct (round_pos_cases M1 E1 HM1 Hn1) as (mf1 & ef1 & Hmf1 & Hef1 & Hval1 & ->).
  destruct (round_pos_cases M2 E2 HM2 Hn2) as (mf2 & ef2 & Hmf2 & Hef2 & Hval2 & ->).
  specialize (Hval1 base ltac:(lia)). specialize (Hval2 base ltac:(lia)).
  pose proof (rne_bounds M1 HM1 Hn1) as Hb1.
  pose proof (rne_bounds M2 HM2 Hn2) as Hb2.
  set (s1 := F64.digits M1 - 53) in *. set (s2 := F64.digits M2 - 53) in *.
  replace (E1 + s1 - base) with (s1 + k1) in Hval1 by lia.
  replace (E2 + s2 - base) with (s2 + k2) in Hval2 by lia.
  (* the rounded values keep the order *)
  assert (HW : rne M1 s1 * 2 ^ (s1 + k1) <= rne M2 s2 * 2 ^ (s2 + k2)).
  { destruct (Z.eq_dec (s1 + k1) (s2 + k2)) as [Heq|Hne].
    - rewrite <- (rne_scale M1 s1 k1), <- (rne_scale M2 s2 k2) by lia.
      rewrite Heq. apply Z.mul_le_mono_nonneg_r; [apply Z.pow_nonneg; lia|].
      apply rne_mono; lia.
    - assert (Hlt : s1 + k1 + 1 <= s2 + k2) by lia.
      transitivity (2 ^ 53 * 2 ^ (s1 + k1)).
      { apply Z.mul_le_mono_nonneg_r; [apply Z.pow_nonneg; lia|lia]. }
      transitivity (2 ^ 52 * 2 ^ (s2 + k2)).
      { rewrite <- !Z.pow_add_r by lia. apply Z.pow_le_mono_r; lia. }
      apply Z.mul_le_mono_nonneg_r; [apply Z.pow_nonneg; lia|lia]. }
  rewrite <- Hval1, <- Hval2 in HW.
  (* so do the exponents *)
  assert (He : ef1 <= ef2).
  { destruct (Z.le_gt_cases ef1 ef2) as [|Hgt]; [done|exfalso].
    assert (2 ^ 53 * 2 ^ (ef2 - base) <= 2 ^ 52 * 2 ^ (ef1 - base)).
    { rewrite <- !Z.pow_add_r by lia. apply Z.pow_le_mono_r; lia. }
    assert (0 < 2 ^ (ef2 - base)) by (apply Z.pow_pos_nonneg; lia).
    assert (0 < 2 ^ (ef1 - base)) by (apply Z.pow_pos_nonneg; lia).
    nia. }
  destruct (Z.leb_spec ef2 971) as [H2|H2].
  - destruct (Z.leb_spec ef1 971) as [H1|H1]; [|lia]. simpl.
    rewrite !Z2Pos.id by lia. apply (vle_base _ _ _ _ base); [lia..|done].
  - destruct (ef1 <=? 971); done.
Qed.

Lemma big_digits m : 2 ^ 52 <= Zpos m < 2 ^ 53 -> F64.digits (Zpos m) = 53.
Proof. intros Hm. apply digits_unique; lia. Qed.

Lemma round_pos_bigi M E :
  0 < M -> 53 <= F64.digits M -> -52 <= E + (F64.digits M - 53) ->
  bigi (round_pos M E).
Proof.
  intros HM Hn HE.
  destruct (round_pos_cases M E HM Hn) as (mf & ef & Hmf & Hef & _ & ->).
  destruct (Z.leb_spec ef 971); [left|by right].
  simpl. rewrite Z2Pos.id by lia. lia.
Qed.

(** The product of two floats that are not below 1. *)
Lemma mul_big mx ex my ey :
  big (S754_finite false mx ex) -> big (S754_finite false my ey) ->
  F64.mul (S754_finite false mx ex) (S754_finite false my ey)
  = round_pos (Zpos mx * Zpos my) (ex + ey)
  /\ 0 < Zpos mx * Zpos my
  /\ 105 <= F64.digits (Zpos mx * Zpos my).
Proof.
  intros [Hmx Hex] [Hmy Hey].
  pose proof (digits_mul (Zpos mx) (Zpos my) ltac:(lia) ltac:(lia)) as Hd.
  rewrite !big_digits in Hd by done.
  split; [|split; [lia|lia]].
  unfold F64.mul, SFmul. simpl xorb. rewrite Pos2Z.inj_mul.
  apply binary_round_aux_pos; lia.
Qed.

Lemma mul_bigi x y : bigi x -> bigi y -> bigi (F64.mul x y).
Proof.
  intros [Hx| ->] [Hy| ->].
  - destruct x as [| | |[] mx ex]; try done. destruct y as [| | |[] my ey]; try done.
    destruct (mul_big mx ex my ey Hx Hy) as (-> & HM & Hd).
    destruct Hx as [_ Hex], Hy as [_ Hey]. apply round_pos_bigi; lia.
  - destruct x as [| | |[] mx ex]; try done. by right.
  - destruct y as [| | |[] my ey]; try done. by right.
  - by right.
Qed.

Lemma vle_refl M E : vle M E M E.
Proof. unfold vle. lia. Qed.

Lemma vle_trans M1 E1 M2 E2 M3 E3 :
  vle M1 E1 M2 E2 -> vle M2 E2 M3 E3 -> vle M1 E1 M3 E3.
Proof.
  set (base := Z.min E1 (Z.min E2 E3)).
  intros H12 H23.
  apply (vle_base _ _ _ _ base) in H12; [|lia..].
  apply (vle_base _ _ _ _ base) in H23; [|lia..].
  apply (vle_base _ _ _ _ base); lia.
Qed.

Lemma fle_refl x : bigi x -> fle x x.
Proof.
  intros [Hx| ->]; [|done]. destruct x as [| | |[] m e]; try done. apply vle_refl.
Qed.

Lemma fle_trans x y z : fle x y -> fle y z -> fle x z.
Proof.
  destruct x as [|[]| |[] m1 e1]; try done;
    destruct y as [|[]| |[] m2 e2]; try done;
    destruct z as [|[]| |[] m3 e3]; try done.
  apply vle_trans.
Qed.

(** Multiplication keeps the order, in either argument. *)
Lemma mul_mono_r x y y' :
  big x -> bigi y -> bigi y' -> fle y y' -> fle (F64.mul x y) (F64.mul x y').
Proof.
  intros Hx Hy Hy' Hle.
  destruct x as [| | |[] mx ex]; try done.
  destruct Hy' as [Hy'| ->].
  - destruct y' as [| | |[] my' ey']; try done.
    destruct Hy as [Hy| ->]; [|done].
    destruct y as [| | |[] my ey]; try done.
    destruct (mul_big mx ex my ey Hx Hy) as (-> & HM & Hd).
    destruct (mul_big mx ex my' ey' Hx Hy') as (-> & HM' & Hd').
    apply round_pos_mono; try lia.
    simpl in Hle. unfold vle in *.
    replace (Z.min (ex + ey) (ex + ey')) with (ex + Z.min ey ey') by lia.
    replace (ex + ey - (ex + Z.min ey ey')) with (ey - Z.min ey ey') by lia.
    replace (ex + ey' - (ex + Z.min ey ey')) with (ey' - Z.min ey ey') by lia.
    rewrite <- !Z.mul_assoc. apply Z.mul_le_mono_nonneg_l; lia.
  - assert (Hxy : bigi (F64.mul (S754_finite false mx ex) y))
      by (apply mul_bigi; [by left|done]).
    change (F64.mul (S754_finite false mx ex) (S754_infinity false))
      with (S754_infinity false).
    destruct Hxy as [Hxy| ->]; [|done].
    by destruct (F64.mul _ y) as [| | |[] m e].
Qed.

Lemma mul_one_r x : big x -> F64.mul x F64.one = x.
Proof.
  intros Hx. destruct x as [| | |[] m e]; try done.
  assert (H1 : big F64.one) by (simpl; lia). unfold F64.one in *.
  destruct (mul_big m e _ _ Hx H1) as (-> & _ & _).
  destruct Hx as [Hm He].
  change (Z.pos (2 ^ 52)%positive) with (2 ^ 52).
  unfold round_pos. rewrite (digits_shift (Zpos m) 52), big_digits by lia.
  replace (53 + 52 - 53) with 52 by lia.
  assert (Hr : rne (Zpos m * 2 ^ 52) 52 = Zpos m).
  { change 52 with (0 + 52) at 2.
    rewrite (rne_scale (Zpos m) 0 52 ltac:(lia) ltac:(lia)). unfold rne.
    change (2 ^ 0) with 1. rewrite Z.div_1_r, Z.mod_1_r. done. }
  rewrite Hr. destruct (Z.eqb_spec (Zpos m) (2 ^ 53)); [lia|].
  replace (e + -52 + 52) with e by lia.
  destruct (Z.leb_spec e 971); [|lia]. done.
Qed.

(** The shape of [float64(d)] for a positive [int64]. *)
Lemma of_int_shape d :
  0 < d < 2 ^ 63 ->
  exists m e, F64.of_int d = S754_finite false m e
    /\ 2 ^ 52 <= Zpos m < 2 ^ 53 /\ -52 <= e <= 11.
Proof.
  intros Hd. destruct (Z.lt_ge_cases d (2 ^ 53)) as [Hsmall|Hlarge].
  - rewrite of_int_exact by lia.
    pose proof (digits_bounds d ltac:(lia)) as Hb.
    pose proof (digits_pos d ltac:(lia)) as Hp.
    assert (Hn : F64.digits d <= 53) by (apply digits_lt_pow; lia).
    rewrite dyadic_pos by lia.
    assert (Hm : 2 ^ 52 <= d * 2 ^ (53 - F64.digits d) < 2 ^ 53).
    { pose proof (digits_bounds (d * 2 ^ (53 - F64.digits d))) as Hb'.
      rewrite digits_shift in Hb' by lia.
      replace (F64.digits d + (53 - F64.digits d)) with 53 in Hb' by lia.
      apply Hb'. apply Z.mul_pos_pos; [lia|apply Z.pow_pos_nonneg; lia]. }
    eexists _, _. split; [reflexivity|]. rewrite Z2Pos.id by lia. lia.
  - destruct d as [|p|p]; [lia| |lia].
    pose proof (digits_bounds (Zpos p) ltac:(lia)) as Hb.
    assert (Hn : 54 <= F64.digits (Zpos p) <= 63).
    { split.
      - destruct (Z.le_gt_cases 54 (F64.digits (Zpos p))) as [|Hlt]; [done|].
        assert (2 ^ F64.digits (Zpos p) <= 2 ^ 53) by (apply Z.pow_le_mono_r; lia).
        lia.
      - apply digits_lt_pow. lia. }
    unfold F64.of_int, binary_normalize, binary_round, shl_align.
    change (Zpos (digits2_pos p)) with (F64.digits (Zpos p)).
    rewrite Z.add_0_r, fexp_64 by lia.
    destruct (F64.digits (Zpos p) - 53 - 0) as [|q|q] eqn:Hq; [|clear Hq|lia].
    { lia. }
    rewrite binary_round_aux_pos by lia.
    destruct (round_pos_cases (Zpos p) 0 ltac:(lia) ltac:(lia))
      as (mf & ef & Hmf & Hef & _ & ->).
    destruct (Z.leb_spec ef 971); [|lia].
    eexists _, _. split; [reflexivity|]. rewrite Z2Pos.id by lia. lia.
Qed.

(** The float of a positive [int64] is not below 1. *)
Lemma of_int_big d : 0 < d < 2 ^ 63 -> big (F64.of_int d).
Proof.
  intros Hd. destruct (of_int_shape d Hd) as (m & e & -> & Hm & He).
  simpl. lia.
Qed.

(** The integer part of a float that is not below 1, and its order. *)
Lemma trunc_big m e :
  F64.trunc (S754_finite false m e) = Some (Z.shiftl (Zpos m) e).
Proof. by destruct e. Qed.

Lemma shiftl_floor M e base :
  0 <= M -> base <= e -> base <= 0 ->
  Z.shiftl M e = M * 2 ^ (e - base) / 2 ^ (- base).
Proof.
  intros HM He Hb.
  assert (HP : 0 < 2 ^ (- base)) by (apply Z.pow_pos_nonneg; lia).
  destruct (Z.le_gt_cases 0 e) as [Hpos|Hneg].
  - rewrite Z.shiftl_mul_pow2 by lia.
    replace (e - base) with (e + - base) by lia.
    rewrite Z.pow_add_r, Z.mul_assoc, Z.div_mul by lia. done.
  - rewrite Z.shiftl_div_pow2 by lia.
    replace (- base) with (- e + (e - base)) by lia.
    rewrite Z.pow_add_r by lia.
    rewrite Z.div_mul_cancel_r; [done|apply Z.pow_nonzero; lia|apply Z.pow_nonzero; lia].
Qed.

Lemma trunc_mono x y :
  big x -> big y -> fle x y ->
  exists zx zy,
    F64.trunc x = Some zx /\ F64.trunc y = Some zy /\ 0 <= zx <= zy.
Proof.
  intros Hx Hy Hle.
  destruct x as [| | |[] m1 e1]; try done. destruct y as [| | |[] m2 e2]; try done.
  rewrite !trunc_big. eexists _, _. split; [done|]. split; [done|].
  simpl in Hle. set (base := Z.min (Z.min e1 e2) 0).
  apply (vle_base _ _ _ _ base) in Hle; [|lia..].
  rewrite (shiftl_floor _ e1 base), (shiftl_floor _ e2 base) by lia.
  assert (HP : 0 < 2 ^ (- base)) by (apply Z.pow_pos_nonneg; lia).
  split.
  - apply Z.div_pos; [|done]. apply Z.mul_nonneg_nonneg; [lia|apply Z.pow_nonneg; lia].
  - by apply Z.div_le_mono.
Qed.

(** A valid float that compares as at least 1 is such a float. *)
Lemma at_least_one b :
  valid_binary 53 1024 b = true -> SFleb F64.one b = true ->
  bigi b /\ fle F64.one b.
Proof.
  intros Hvalid Hle. destruct b as [s|[]| |[] m e]; try done.
  - split; [by right|done].
  - unfold SFleb, SFcompare, F64.one in Hle.
    unfold valid_binary, bounded, canonical_mantissa in Hvalid.
    apply andb_prop in Hvalid as [Hcanon Hmax].
    apply Z.eqb_eq in Hcanon. apply Z.leb_le in Hmax.
    assert (He : -52 <= e).
    { destruct (Z.compare_spec (-52) e); [lia|lia|done]. }
    change (Zpos (digits2_pos m)) with (F64.digits (Zpos m)) in Hcanon.
    unfold fexp, emin in Hcanon.
    assert (Hd : F64.digits (Zpos m) = 53) by lia.
    pose proof (digits_bounds (Zpos m) ltac:(lia)) as Hm. rewrite Hd in Hm.
    change (2 ^ (53 - 1)) with (2 ^ 52) in Hm.
    split; [left; simpl; lia|].
    simpl. apply (vle_base _ _ _ _ (-52)); [lia..|].
    change (Z.pos (2 ^ 52)%positive) with (2 ^ 52).
    replace (-52 - -52) with 0 by lia. rewrite Z.pow_0_r, Z.mul_1_r.
    assert (1 <= 2 ^ (e - -52)) by (apply (Z.pow_le_mono_r 2 0); lia).
    nia.
Qed.

Section Growth.

Variable b : spec_float.
Hypothesis b_bigi : bigi b.
Hypothesis b_ge_1 : fle F64.one b.

Local Abbreviation power k :=
  (Nat.iter k (fun result => F64.mul result b) F64.one).

Lemma power_bigi (k : nat) : bigi (power k).
Proof.
  induction k as [|k IH]; [left; simpl; lia|]. simpl. by apply mul_bigi.
Qed.

Lemma power_step (k : nat) : fle (power k) (power (S k)).
Proof.
  simpl. destruct (power_bigi k) as [Hk|Hk].
  - rewrite <- (mul_one_r _ Hk) at 1.
    apply mul_mono_r; [done|left; simpl; lia|done|done].
  - rewrite Hk. by destruct b_bigi as [Hb| ->]; [destruct b as [| | |[] m e]|].
Qed.

Lemma power_mono (j i : nat) : (j <= i)%nat -> fle (power j) (power i).
Proof.
  induction 1 as [|i _ IH]; [apply fle_refl, power_bigi|].
  eapply fle_trans; [exact IH|apply power_step].
Qed.

Lemma fle_big x y : bigi x -> fle x y -> big y -> big x.
Proof.
  intros [Hx| ->] Hle Hy; [done|]. by destruct y as [|[]| |[] m e].
Qed.

(** Up to an attempt whose product is finite, the powers and the
    products are finite. *)
Lemma products_big d (i : nat) z :
  0 <= d < 2 ^ 63 ->
  F64.trunc (F64.mul (F64.of_int d) (power i)) = Some z ->
  forall j : nat, (j <= i)%nat ->
    big (power j)
    /\ (d <> 0 -> big (F64.of_int d) /\ big (F64.mul (F64.of_int d) (power j))).
Proof.
  intros Hd Hz j Hj.
  assert (Hi : big (power i)).
  { destruct (power_bigi i) as [Hi|Hi]; [done|]. rewrite Hi in Hz.
    destruct (Z.eq_dec d 0) as [->|Hne]; [done|].
    pose proof (of_int_big d ltac:(lia)) as HD.
    by destruct (F64.of_int d) as [| | |[] m e]. }
  assert (Hjb : big (power j)).
  { apply (fle_big _ (power i)); [apply power_bigi|by apply power_mono|done]. }
  split; [done|]. intros Hne.
  pose proof (of_int_big d ltac:(lia)) as HD. split; [done|].
  assert (Hpi : big (F64.mul (F64.of_int d) (power i))).
  { destruct (mul_bigi (F64.of_int d) (power i)) as [H|H];
      [by left|by left|done|]. by rewrite H in Hz. }
  eapply fle_big; [apply mul_bigi; by left| |exact Hpi].
  apply mul_mono_r; [done|by left|by left|by apply power_mono].
Qed.

(** The integer parts of the products [d * b^j] as the floats give
    them, up to an attempt whose product is finite. *)
Lemma products_mono d (i : nat) z :
  0 <= d < 2 ^ 63 ->
  F64.trunc (F64.mul (F64.of_int d) (power i)) = Some z ->
  forall j j' : nat, (j <= j' <= i)%nat ->
    exists zj zj',
      F64.trunc (F64.mul (F64.of_int d) (power j)) = Some zj
      /\ F64.trunc (F64.mul (F64.of_int d) (power j')) = Some zj'
      /\ 0 <= zj <= zj' /\ zj' <= z
      /\ (d = 0 -> zj = 0).
Proof.
  intros Hd Hz j j' Hj.
  destruct (products_big d i z Hd Hz i ltac:(lia)) as [Hi Hpi].
  destruct (products_big d i z Hd Hz j ltac:(lia)) as [Hjb Hpj].
  destruct (products_big d i z Hd Hz j' ltac:(lia)) as [Hjb' Hpj'].
  destruct (Z.eq_dec d 0) as [->|Hne].
  - change (F64.of_int 0) with (S754_zero false) in *.
    destruct (power i) as [| | |[] mi ei]; try done.
    destruct (power j) as [| | |[] mj ej]; try done.
    destruct (power j') as [| | |[] mj' ej']; try done.
    simpl in *. injection Hz as <-. exists 0, 0. repeat split; lia.
  - destruct (Hpi Hne) as [HD Hpi']. destruct (Hpj Hne) as [_ Hpj0].
    destruct (Hpj' Hne) as [_ Hpj'0].
    assert (Hle' : fle (F64.mul (F64.of_int d) (power j'))
                       (F64.mul (F64.of_int d) (power i))).
    { apply mul_mono_r; [done|by left|by left|apply power_mono; lia]. }
    assert (Hle : fle (F64.mul (F64.of_int d) (power j))
                      (F64.mul (F64.of_int d) (power j'))).
    { apply mul_mono_r; [done|by left|by left|apply power_mono; lia]. }
    destruct (trunc_mono _ _ Hpj0 Hpj'0 Hle) as (zj & zj' & Hzj & Hzj' & Hord).
    destruct (trunc_mono _ _ Hpj'0 Hpi' Hle') as (zj'' & zi & Hzj'' & Hzi & Hord').
    rewrite Hz in Hzi. injection Hzi as <-.
    rewrite Hzj' in Hzj''. injection Hzj'' as <-.
    exists zj, zj'. repeat split; try done; lia.
Qed.

End Growth.

(** The delays are never negative and never shrink, as long as the
    product of the last one is finite and fits an [int64]. *)
Lemma backoff_delay_mono cfg i z :
  0 <= Delay cfg <= max_int64 ->
  valid_binary 53 1024 (Backoff cfg) = true ->
  SFleb F64.one (Backoff cfg) = true ->
  0 <= i < 2 ^ 53 ->
  F64.trunc (F64.mul (F64.of_int (Delay cfg))
               (pow (Backoff cfg) (F64.of_int i))) = Some z ->
  z <= max_int64 ->
  forall j j', 0 <= j <= j' -> j' <= i ->
    0 <= backoff_delay cfg j <= backoff_delay cfg j'
    /\ backoff_delay cfg j' <= z
    /\ (Delay cfg = 0 -> backoff_delay cfg j = 0).
Proof.
  intros Hd Hvalid Hone Hi Hz Hfit j j' Hj Hj'.
  destruct (at_least_one _ Hvalid Hone) as [Hb H1].
  assert (Hpow : forall k, 0 <= k < 2 ^ 53 ->
    pow (Backoff cfg) (F64.of_int k)
    = Nat.iter (Z.to_nat k) (fun result => F64.mul result (Backoff cfg)) F64.one).
  { intros k Hk. unfold pow. by rewrite to_int_of_int. }
  rewrite Hpow in Hz by lia.
  destruct (products_mono (Backoff cfg) Hb H1 (Delay cfg) (Z.to_nat i) z
              ltac:(unfold max_int64 in Hd; lia) Hz (Z.to_nat j) (Z.to_nat j')
              ltac:(lia))
    as (zj & zj' & Hzj & Hzj' & Hord & Hlast & Hzero).
  unfold backoff_delay, F64.to_int. rewrite !Hpow by lia. rewrite Hzj, Hzj'.
  assert (Hin : forall x, 0 <= x <= z -> in_int64 x = true).
  { intros x Hx. unfold in_int64, min_int64, max_int64 in *.
    apply andb_true_intro. split; apply Z.leb_le; lia. }
  rewrite !Hin by lia. repeat split; lia.
Qed.

Lemma digits_mul_upper a b :
  0 < a -> 0 < b -> F64.digits (a * b) <= F64.digits a + F64.digits b.
Proof.
  intros Ha Hb. pose proof (digits_bounds a Ha) as [_ Hha].
  pose proof (digits_bounds b Hb) as [_ Hhb].
  pose proof (digits_pos a Ha). pose proof (digits_pos b Hb).
  apply digits_lt_pow. rewrite Z.pow_add_r by lia. nia.
Qed.

(** An integer [zd * 2^td] whose odd part fits 53 digits converts
    exactly. *)
Lemma of_int_dyadic zd td :
  0 <= zd < 2 ^ 53 -> 0 <= td -> zd * 2 ^ td < 2 ^ 1024 ->
  F64.of_int (zd * 2 ^ td) = F64.dyadic zd td.
Proof.
  intros [Hz Hlt] Htd Hfin.
  destruct (Z.eq_dec zd 0) as [->|Hne]; [done|].
  assert (HP : 0 < 2 ^ td) by (apply Z.pow_pos_nonneg; lia).
  assert (Hn : F64.digits zd <= 53) by (apply digits_lt_pow; lia).
  pose proof (digits_pos zd ltac:(lia)) as Hn0.
  pose proof (digits_shift zd td ltac:(lia) Htd) as HD.
  assert (HD' : F64.digits (zd * 2 ^ td) <= 1024) by (apply digits_lt_pow; nia).
  destruct (Z.le_gt_cases (F64.digits (zd * 2 ^ td)) 53) as [Hsmall|Hlarge].
  - rewrite of_int_exact.
    2:{ split; [nia|]. pose proof (digits_bounds (zd * 2 ^ td) ltac:(nia)) as [_ Hh].
        assert (2 ^ F64.digits (zd * 2 ^ td) <= 2 ^ 53)
          by (apply Z.pow_le_mono_r; lia). lia. }
    rewrite !dyadic_pos by (lia || nia). rewrite HD. f_equal; [|lia].
    f_equal. rewrite <- Z.mul_assoc, <- Z.pow_add_r by lia. f_equal. f_equal. lia.
  - remember (zd * 2 ^ td) as M eqn:HM.
    assert (HMpos : 0 < M) by nia.
    unfold F64.of_int, binary_normalize, binary_round, F64.prec, F64.emax.
    destruct M as [|p|p]; [lia| |lia].
    change (Zpos (digits2_pos p)) with (F64.digits (Zpos p)) in *.
    rewrite Z.add_0_r, fexp_64 by lia. unfold shl_align.
    destruct (F64.digits (Zpos p) - 53 - 0) as [|q|q] eqn:Hq; [lia| |lia].
    rewrite binary_round_aux_pos by lia.
    unfold round_pos. set (s := F64.digits (Zpos p) - 53).
    assert (Hs : 0 < s <= td) by lia.
    assert (Hsplit : Zpos p = zd * 2 ^ (td - s) * 2 ^ s).
    { rewrite HM, <- Z.mul_assoc, <- Z.pow_add_r by lia. f_equal. f_equal. lia. }
    assert (HPs : 0 < 2 ^ s) by (apply Z.pow_pos_nonneg; lia).
    assert (Hq' : Zpos p / 2 ^ s = zd * 2 ^ (td - s))
      by (rewrite Hsplit; apply Z.div_mul; lia).
    assert (Hr : Zpos p mod 2 ^ s = 0)
      by (rewrite Hsplit; apply Z.mod_mul; lia).
    assert (Hrne : rne (Zpos p) s = zd * 2 ^ (td - s)).
    { unfold rne. rewrite Hq', Hr.
      destruct (Z.ltb_spec (2 ^ s) (2 * 0)); [lia|].
      destruct (Z.eqb_spec (2 ^ s) (2 * 0)); [lia|]. done. }
    rewrite Hrne.
    replace (td - s) with (53 - F64.digits zd) by lia.
    pose proof (digits_bounds zd ltac:(lia)) as [_ Hh].
    assert (Hm : zd * 2 ^ (53 - F64.digits zd) < 2 ^ 53).
    { replace (2 ^ 53) with (2 ^ F64.digits zd * 2 ^ (53 - F64.digits zd)).
      - assert (0 < 2 ^ (53 - F64.digits zd)) by (apply Z.pow_pos_nonneg; lia). nia.
      - rewrite <- Z.pow_add_r by lia. f_equal. lia. }
    destruct (Z.eqb_spec (zd * 2 ^ (53 - F64.digits zd)) (2 ^ 53)); [lia|].
    destruct (Z.leb_spec (0 + s) 971); [|lia].
    rewrite dyadic_pos by lia. f_equal. lia.
Qed.

(** The binary exponent of [zb^n * 2^(n*tb)] grows with [n] for a
    multiplier from 1 upwards and falls for one below 1. *)
Lemma exponent_step zb tb (n : nat) :
  1 <= zb ->
  (1 <= F64.digits zb + tb ->
   Z.of_nat n * tb + F64.digits (zb ^ Z.of_nat n)
   <= Z.of_nat (S n) * tb + F64.digits (zb ^ Z.of_nat (S n)))
  /\ (F64.digits zb + tb <= 0 ->
      Z.of_nat (S n) * tb + F64.digits (zb ^ Z.of_nat (S n))
      <= Z.of_nat n * tb + F64.digits (zb ^ Z.of_nat n)).
Proof.
  intros Hzb. rewrite Nat2Z.inj_succ, Z.pow_succ_r by lia.
  assert (Hp : 0 < zb ^ Z.of_nat n) by (apply Z.pow_pos_nonneg; lia).
  pose proof (digits_mul zb (zb ^ Z.of_nat n) ltac:(lia) Hp).
  pose proof (digits_mul_upper zb (zb ^ Z.of_nat n) ltac:(lia) Hp).
  split; intros; lia.
Qed.

Lemma exponent_mono zb tb (m n : nat) :
  1 <= zb -> (m <= n)%nat ->
  (1 <= F64.digits zb + tb ->
   Z.of_nat m * tb + F64.digits (zb ^ Z.of_nat m)
   <= Z.of_nat n * tb + F64.digits (zb ^ Z.of_nat n))
  /\ (F64.digits zb + tb <= 0 ->
      Z.of_nat n * tb + F64.digits (zb ^ Z.of_nat n)
      <= Z.of_nat m * tb + F64.digits (zb ^ Z.of_nat m)).
Proof.
  intros Hzb Hmn. induction Hmn as [|n Hmn IH]; [lia|].
  destruct (exponent_step zb tb n Hzb). lia.
Qed.

(** So a power in the normal range has all earlier powers there. *)
Lemma power_exponent_range zb tb (j k : nat) :
  1 <= zb -> (k <= j)%nat ->
  -1021 <= Z.of_nat j * tb + F64.digits (zb ^ Z.of_nat j) <= 1024 ->
  -1021 <= Z.of_nat k * tb + F64.digits (zb ^ Z.of_nat k) <= 1024.
Proof.
  intros Hzb Hk Hj.
  destruct (exponent_mono zb tb 0 k Hzb ltac:(lia)) as [Hup0 Hdown0].
  destruct (exponent_mono zb tb k j Hzb Hk) as [Hup Hdown].
  change (F64.digits (zb ^ Z.of_nat 0)) with 1 in Hup0, Hdown0.
  destruct (Z.le_gt_cases 1 (F64.digits zb + tb)); lia.
Qed.

(** The powers of a multiplier [zb * 2^tb], exact as long as [zb^k] fits
    the mantissa and the power is in the normal range. *)
Lemma power_closed zb tb (k : nat) :
  1 <= zb -> zb ^ Z.of_nat k < 2 ^ 53 ->
  -1021 <= Z.of_nat k * tb + F64.digits (zb ^ Z.of_nat k) <= 1024 ->
  Nat.iter k (fun result => F64.mul result (F64.dyadic zb tb)) F64.one
  = F64.dyadic (zb ^ Z.of_nat k) (Z.of_nat k * tb).
Proof.
  intros Hzb. induction k as [|k IH]; intros Hm Hrange; [done|].
  assert (Hpow : zb ^ Z.of_nat (S k) = zb ^ Z.of_nat k * zb).
  { rewrite Nat2Z.inj_succ, Z.pow_succ_r by lia. lia. }
  assert (0 < zb ^ Z.of_nat k) by (apply Z.pow_pos_nonneg; lia).
  pose proof (power_exponent_range zb tb (S k) k Hzb ltac:(lia) Hrange).
  rewrite Nat.iter_succ, IH by (done || nia).
  rewrite mul_exact; try nia.
  - rewrite <- Hpow. f_equal. lia.
  - intros _. rewrite <- Hpow. lia.
Qed.

(** The delay where the power is in the normal range. *)
Lemma backoff_delay_closed cfg zd td zb tb j :
  Delay cfg = zd * 2 ^ td -> 0 <= zd -> 0 <= td -> Delay cfg <= max_int64 ->
  Backoff cfg = F64.dyadic zb tb -> 1 <= zb ->
  0 <= j < 2 ^ 53 ->
  Z.max zd 1 * zb ^ j < 2 ^ 53 ->
  -1021 <= j * tb + F64.digits (zb ^ j) <= 1024 ->
  Z.shiftl (zd * zb ^ j) (td + j * tb) <= max_int64 ->
  backoff_delay cfg j = Z.shiftl (zd * zb ^ j) (td + j * tb).
Proof.
  intros Hd Hzd Htd Hmax Hb Hzb Hj Hm Hrange Hfit.
  assert (Hp : 0 < zb ^ j) by (apply Z.pow_pos_nonneg; lia).
  assert (HP : 0 < 2 ^ td) by (apply Z.pow_pos_nonneg; lia).
  unfold backoff_delay, pow. rewrite to_int_of_int by done.
  rewrite Hb, power_closed; rewrite ?Z2Nat.id by lia; [|done|nia|done].
  destruct (Z.eq_dec zd 0) as [->|Hne].
  { rewrite Hd. simpl. rewrite (dyadic_pos (zb ^ j)) by (lia || apply digits_lt_pow; nia).
    simpl. by rewrite Z.shiftl_0_l. }
  assert (Hn : F64.digits (zd * zb ^ j) <= 53) by (apply digits_lt_pow; nia).
  pose proof (digits_mul zd (zb ^ j) ltac:(lia) Hp) as Hlow.
  pose proof (digits_pos zd ltac:(lia)).
  assert (Hup : F64.digits (zd * zb ^ j) + (td + j * tb) <= 63).
  { apply digits_value_upper; [nia|done|]. unfold max_int64 in Hfit. lia. }
  assert (Hd1024 : zd * 2 ^ td < 2 ^ 1024).
  { rewrite <- Hd. unfold max_int64 in Hmax.
    assert (2 ^ 63 <= 2 ^ 1024) by (apply Z.pow_le_mono_r; lia). lia. }
  rewrite Hd, of_int_dyadic by (lia || nia).
  rewrite mul_exact; [|lia|lia|nia|intros _; lia].
  unfold F64.to_int. rewrite trunc_exact by nia.
  assert (0 <= Z.shiftl (zd * zb ^ j) (td + j * tb)) by (apply Z.shiftl_nonneg; nia).
  assert (Hin : in_int64 (Z.shiftl (zd * zb ^ j) (td + j * tb)) = true).
  { unfold in_int64, min_int64, max_int64 in *.
    apply andb_true_intro; split; apply Z.leb_le; lia. }
  by rewrite Hin.
Qed.

Lemma fexp_min x : x - 53 <= -1074 -> fexp 53 1024 x = -1074.
Proof. unfold fexp, emin. lia. Qed.

Lemma rne_upper M s B :
  0 <= M -> 0 <= s -> M <= B * 2 ^ s -> rne M s <= B.
Proof.
  intros HM Hs HB. unfold rne.
  assert (HP : 0 < 2 ^ s) by (apply Z.pow_pos_nonneg; lia).
  pose proof (Z.div_mod M (2 ^ s) ltac:(lia)) as Hdm.
  pose proof (Z.mod_pos_bound M (2 ^ s) HP) as Hr.
  destruct (_ || _) eqn:Hup; [|nia].
  apply orb_prop in Hup as [Hup|Hup].
  - apply Z.ltb_lt in Hup. nia.
  - apply andb_prop in Hup as [Hup _]. apply Z.eqb_eq in Hup. nia.
Qed.

Lemma rne_nonneg M s : 0 <= M -> 0 <= s -> 0 <= rne M s.
Proof.
  intros HM Hs. unfold rne.
  assert (HP : 0 < 2 ^ s) by (apply Z.pow_pos_nonneg; lia).
  pose proof (Z.div_pos M (2 ^ s) HM HP). destruct (_ || _); lia.
Qed.

(** Rounding a number below the normal range. *)
Lemma binary_round_aux_small M E :
  0 < M -> E < -1074 -> M < 2 ^ (52 + (-1074 - E)) ->
  small (binary_round_aux 53 1024 false M E loc_Exact).
Proof.
  intros HM HE Hlt. set (s := -1074 - E) in *.
  assert (Hs : 0 < s) by lia.
  assert (HD : F64.digits M <= 52 + s) by (apply digits_lt_pow; lia).
  pose proof (digits_pos M HM) as HD0.
  unfold binary_round_aux, shr_fexp.
  change (Zdigits2 M) with (F64.digits M).
  rewrite fexp_min by lia. fold s. simpl shr_record_of_loc.
  rewrite shr_shifted by lia. rewrite round_shifted by lia.
  rewrite Z2Nat.id by lia.
  pose proof (rne_nonneg M s ltac:(lia) ltac:(lia)) as Hm0.
  assert (Hm : rne M s <= 2 ^ 52).
  { apply rne_upper; [lia..|]. rewrite <- Z.pow_add_r by lia. lia. }
  set (m := rne M s) in *. replace (E + s) with (-1074) by lia.
  destruct (Z.eq_dec m 0) as [->|Hne]; [done|].
  assert (Hdm : F64.digits m <= 53).
  { apply digits_lt_pow. split; [lia|].
    assert (2 ^ 52 < 2 ^ 53) by (apply Z.pow_lt_mono_r; lia). lia. }
  change (Zdigits2 m) with (F64.digits m).
  rewrite fexp_min by lia.
  destruct m as [|p|p]; [done| |lia]. simpl. done.
Qed.

Lemma trunc_small f : small f -> F64.trunc f = Some 0.
Proof.
  destruct f as [[]| | |[] m e]; try done. intros [-> Hm].
  unfold F64.trunc. simpl cond_Zopp. f_equal.
  change (- -1074) with 1074. rewrite Z.shiftr_div_pow2 by lia.
  apply Z.div_small. split; [lia|].
  assert (2 ^ 52 < 2 ^ 1074) by (apply Z.pow_lt_mono_r; lia). lia.
Qed.

(** A small float times a float below 1 is small. *)
Lemma mul_small x my ey :
  small x -> Zpos my < 2 ^ 53 -> ey <= -53 ->
  small (F64.mul x (S754_finite false my ey)).
Proof.
  intros Hx Hmy Hey. destruct x as [[]| | |[] m e]; try done.
  destruct Hx as [-> Hm].
  unfold F64.mul, SFmul. simpl xorb. rewrite Pos2Z.inj_mul.
  apply binary_round_aux_small; [lia|lia|].
  assert (Hpow : 2 ^ 52 * 2 ^ 53 <= 2 ^ (52 + (-1074 - (-1074 + ey)))).
  { rewrite <- Z.pow_add_r by lia. apply Z.pow_le_mono_r; lia. }
  nia.
Qed.

(** A multiplier below 1, as a float. *)
Lemma dyadic_below_one zb tb :
  1 <= zb -> F64.digits zb <= 53 -> F64.digits zb + tb <= 0 ->
  exists my ey,
    F64.dyadic zb tb = S754_finite false my ey
    /\ Zpos my < 2 ^ 53 /\ ey <= -53.
Proof.
  intros Hzb HD Hlt. pose proof (digits_pos zb ltac:(lia)) as HD0.
  pose proof (digits_bounds zb ltac:(lia)) as [_ Hh].
  rewrite dyadic_pos by lia.
  assert (HP : 0 < 2 ^ (53 - F64.digits zb)) by (apply Z.pow_pos_nonneg; lia).
  eexists _, _. split; [reflexivity|]. split; [|lia].
  rewrite Z2Pos.id by nia.
  replace (2 ^ 53) with (2 ^ F64.digits zb * 2 ^ (53 - F64.digits zb)).
  - nia.
  - rewrite <- Z.pow_add_r by lia. f_equal. lia.
Qed.

(** An exact product below the normal range gives a small float. *)
Lemma mul_underflow z1 t1 z2 t2 :
  0 < z1 -> 0 < z2 -> F64.digits z1 <= 53 -> F64.digits z2 <= 53 ->
  t1 + t2 + F64.digits (z1 * z2) <= -1022 ->
  small (F64.mul (F64.dyadic z1 t1) (F64.dyadic z2 t2)).
Proof.
  intros Hz1 Hz2 Hn1 Hn2 Hlow.
  pose proof (digits_pos z1 Hz1) as Hp1. pose proof (digits_pos z2 Hz2) as Hp2.
  pose proof (digits_mul z1 z2 Hz1 Hz2) as Hmul.
  pose proof (digits_bounds (z1 * z2) ltac:(nia)) as [_ Hh].
  rewrite (dyadic_pos z1 t1), (dyadic_pos z2 t2) by done.
  assert (HP1 : 0 < 2 ^ (53 - F64.digits z1)) by (apply Z.pow_pos_nonneg; lia).
  assert (HP2 : 0 < 2 ^ (53 - F64.digits z2)) by (apply Z.pow_pos_nonneg; lia).
  unfold F64.mul, SFmul. simpl xorb. rewrite Pos2Z.inj_mul.
  rewrite !Z2Pos.id by nia.
  apply binary_round_aux_small; [nia|lia|].
  replace (z1 * 2 ^ (53 - F64.digits z1) * (z2 * 2 ^ (53 - F64.digits z2)))
    with (z1 * z2 * 2 ^ (106 - F64.digits z1 - F64.digits z2))
    by (replace (106 - F64.digits z1 - F64.digits z2)
          with ((53 - F64.digits z1) + (53 - F64.digits z2)) by lia;
        rewrite Z.pow_add_r by lia; ring).
  assert (HP : 0 < 2 ^ (106 - F64.digits z1 - F64.digits z2))
    by (apply Z.pow_pos_nonneg; lia).
  assert (Hle : 2 ^ F64.digits (z1 * z2) <= 2 ^ (-1022 - t1 - t2))
    by (apply Z.pow_le_mono_r; lia).
  replace (52 + (-1074 - (t1 + F64.digits z1 - 53 + (t2 + F64.digits z2 - 53))))
    with ((-1022 - t1 - t2) + (106 - F64.digits z1 - F64.digits z2)) by lia.
  rewrite Z.pow_add_r by lia. nia.
Qed.

(** The powers of a multiplier [zb * 2^tb] below 1: exact in the normal
    range, small below it. *)
Lemma power_below_one zb tb (j k : nat) :
  1 <= zb -> zb ^ Z.of_nat j < 2 ^ 53 -> F64.digits zb + tb <= 0 ->
  (k <= j)%nat ->
  (-1021 <= Z.of_nat k * tb + F64.digits (zb ^ Z.of_nat k) ->
   Nat.iter k (fun result => F64.mul result (F64.dyadic zb tb)) F64.one
   = F64.dyadic (zb ^ Z.of_nat k) (Z.of_nat k * tb))
  /\ (Z.of_nat k * tb + F64.digits (zb ^ Z.of_nat k) <= -1022 ->
      small (Nat.iter k (fun result => F64.mul result (F64.dyadic zb tb))
               F64.one)).
Proof.
  intros Hzb Hfit Hlt. induction k as [|k IH]; intros Hk.
  { split; [done|]. simpl. lia. }
  destruct (IH ltac:(lia)) as [IHexact IHsmall].
  assert (Hpow : zb ^ Z.of_nat (S k) = zb ^ Z.of_nat k * zb).
  { rewrite Nat2Z.inj_succ, Z.pow_succ_r by lia. lia. }
  assert (Hpk : 0 < zb ^ Z.of_nat k) by (apply Z.pow_pos_nonneg; lia).
  assert (Hle : zb ^ Z.of_nat (S k) <= zb ^ Z.of_nat j)
    by (apply Z.pow_le_mono_r; lia).
  assert (Hnk : F64.digits (zb ^ Z.of_nat k) <= 53) by (apply digits_lt_pow; nia).
  assert (Hnb : F64.digits zb <= 53).
  { apply digits_lt_pow. split; [lia|]. nia. }
  destruct (exponent_step zb tb k Hzb) as [_ Hstep]. specialize (Hstep Hlt).
  destruct (exponent_mono zb tb 0 (S k) Hzb ltac:(lia)) as [_ Hone].
  specialize (Hone Hlt). change (F64.digits (zb ^ Z.of_nat 0)) with 1 in Hone.
  rewrite Nat.iter_succ. split.
  - intros Hnormal. rewrite IHexact by lia.
    rewrite mul_exact; try nia.
    + rewrite <- Hpow. f_equal. lia.
    + intros _. rewrite <- Hpow. lia.
  - intros Hunder.
    destruct (Z.le_gt_cases (-1021)
                (Z.of_nat k * tb + F64.digits (zb ^ Z.of_nat k))) as [Hnormal|Hbelow].
    + rewrite IHexact by done. apply mul_underflow; try done; try lia.
      rewrite <- Hpow. lia.
    + destruct (dyadic_below_one zb tb Hzb Hnb Hlt) as (my & ey & Heq & Hmy & Hey).
      pose proof (mul_small _ my ey (IHsmall ltac:(lia)) Hmy Hey) as Hs.
      by rewrite <- Heq in Hs.
Qed.

(** A base delay times a small float has no integer part. *)
Lemma trunc_mul_small d f :
  0 <= d < 2 ^ 63 -> small f -> F64.trunc (F64.mul (F64.of_int d) f) = Some 0.
Proof.
  intros Hd Hf. destruct (Z.eq_dec d 0) as [->|Hne].
  { change (F64.of_int 0) with (S754_zero false).
    by destruct f as [[]| | |[] m e]. }
  destruct (of_int_shape d ltac:(lia)) as (md & ed & -> & Hmd & Hed).
  destruct f as [[]| | |[] m e]; try done.
  destruct Hf as [-> Hm].
  pose proof (digits_mul (Zpos md) (Zpos m) ltac:(lia) ltac:(lia)) as Hlow.
  pose proof (digits_mul_upper (Zpos md) (Zpos m) ltac:(lia) ltac:(lia)) as Hup.
  rewrite big_digits in Hlow, Hup by done.
  pose proof (digits_pos (Zpos m) ltac:(lia)) as Hpm.
  assert (Hnm : F64.digits (Zpos m) <= 53).
  { apply digits_lt_pow. split; [lia|].
    assert (2 ^ 52 < 2 ^ 53) by (apply Z.pow_lt_mono_r; lia). lia. }
  unfold F64.mul, SFmul. simpl xorb. rewrite Pos2Z.inj_mul.
  set (M := Zpos md * Zpos m) in *.
  destruct (Z.le_gt_cases (-1074) (F64.digits M + (ed + -1074) - 53))
    as [Hnormal|Hbelow].
  - rewrite binary_round_aux_pos by (subst M; lia).
    destruct (round_pos_cases M (ed + -1074) ltac:(subst M; lia) ltac:(lia))
      as (mf & ef & Hmf & Hef & _ & ->).
    destruct (Z.leb_spec ef 971); [|lia].
    rewrite trunc_big. f_equal. rewrite Z2Pos.id by lia.
    rewrite Z.shiftl_div_pow2 by lia. apply Z.div_small. split; [lia|].
    assert (2 ^ 53 <= 2 ^ (- ef)) by (apply Z.pow_le_mono_r; lia). lia.
  - apply trunc_small. apply binary_round_aux_small; [subst M; lia|lia|].
    pose proof (digits_bounds M ltac:(subst M; lia)) as [_ Hh].
    assert (2 ^ F64.digits M <= 2 ^ (52 + (-1074 - (ed + -1074))))
      by (apply Z.pow_le_mono_r; lia). lia.
Qed.

(** Below the normal range no delay is left. *)
Lemma backoff_delay_underflow cfg zb tb j :
  0 <= Delay cfg <= max_int64 ->
  Backoff cfg = F64.dyadic zb tb -> 1 <= zb ->
  0 <= j < 2 ^ 53 -> zb ^ j < 2 ^ 53 ->
  j * tb + F64.digits (zb ^ j) <= -1022 ->
  backoff_delay cfg j = 0.
Proof.
  intros Hd Hb Hzb Hj Hfit Hunder.
  assert (Hlt : F64.digits zb + tb <= 0).
  { destruct (Z.le_gt_cases (F64.digits zb + tb) 0) as [|Hge]; [done|].
    destruct (exponent_mono zb tb 0 (Z.to_nat j) Hzb ltac:(lia)) as [Hup _].
    specialize (Hup ltac:(lia)). rewrite Z2Nat.id in Hup by lia.
    change (F64.digits (zb ^ Z.of_nat 0)) with 1 in Hup. lia. }
  unfold backoff_delay, pow. rewrite to_int_of_int by done. rewrite Hb.
  destruct (power_below_one zb tb (Z.to_nat j) (Z.to_nat j) Hzb
              ltac:(by rewrite Z2Nat.id by lia) Hlt ltac:(lia)) as [_ Hsmall].
  rewrite Z2Nat.id in Hsmall by lia. specialize (Hsmall Hunder).
  unfold F64.to_int. rewrite trunc_mul_small; [done| |done].
  unfold max_int64 in Hd. lia.
Qed.

(** The delay in closed form: for a base delay [zd * 2^td] and a
    multiplier [zb * 2^tb], as long as [max(zd,1) * zb^j] fits the
    mantissa, the power is finite and the delay fits an [int64], the
    delay is [zd * zb^j * 2^(td + j*tb)] rounded down. *)
Lemma backoff_delay_rounded_down cfg zd td zb tb j :
  Delay cfg = zd * 2 ^ td -> 0 <= zd -> 0 <= td -> Delay cfg <= max_int64 ->
  Backoff cfg = F64.dyadic zb tb -> 1 <= zb ->
  0 <= j < 2 ^ 53 ->
  Z.max zd 1 * zb ^ j < 2 ^ 53 ->
  j * tb + F64.digits (zb ^ j) <= 1024 ->
  Z.shiftl (zd * zb ^ j) (td + j * tb) <= max_int64 ->
  backoff_delay cfg j = Z.shiftl (zd * zb ^ j) (td + j * tb).
Proof.
  intros Hd Hzd Htd Hmax Hb Hzb Hj Hm Hrange Hfit.
  destruct (Z.le_gt_cases (-1021) (j * tb + F64.digits (zb ^ j)))
    as [Hnormal|Hunder].
  { by apply backoff_delay_closed. }
  assert (Hp : 0 < zb ^ j) by (apply Z.pow_pos_nonneg; lia).
  assert (HP : 0 < 2 ^ td) by (apply Z.pow_pos_nonneg; lia).
  rewrite (backoff_delay_underflow cfg zb tb j); try done; try nia.
  destruct (Z.eq_dec zd 0) as [->|Hne]; [by rewrite Z.mul_0_l, Z.shiftl_0_l|].
  pose proof (digits_bounds (zb ^ j) Hp) as [_ Hh].
  pose proof (digits_pos (zb ^ j) Hp) as HD0.
  unfold max_int64 in Hmax.
  assert (Htd63 : td < 63).
  { destruct (Z.lt_ge_cases td 63) as [|Hge]; [done|].
    assert (2 ^ 63 <= 2 ^ td) by (apply Z.pow_le_mono_r; lia). nia. }
  symmetry. rewrite Z.shiftl_div_pow2 by lia. apply Z.div_small.
  split; [nia|].
  assert (Hsplit : 2 ^ (- (td + j * tb))
                   = 2 ^ (- (td + j * tb) - (63 - td) - F64.digits (zb ^ j))
                     * 2 ^ (63 - td) * 2 ^ F64.digits (zb ^ j)).
  { rewrite <- !Z.pow_add_r by lia. f_equal. lia. }
  assert (0 < 2 ^ (- (td + j * tb) - (63 - td) - F64.digits (zb ^ j)))
    by (apply Z.pow_pos_nonneg; lia).
  assert (Hzd63 : zd < 2 ^ (63 - td)).
  { assert (Hs : 2 ^ 63 = 2 ^ (63 - td) * 2 ^ td)
      by (rewrite <- Z.pow_add_r by lia; f_equal; lia). nia. }
  assert (0 < 2 ^ (63 - td)) by (apply Z.pow_pos_nonneg; lia).
  assert (Hprod : zd * zb ^ j < 2 ^ (63 - td) * 2 ^ F64.digits (zb ^ j)) by nia.
  rewrite Hsplit, <- Z.mul_assoc. nia.
Qed.

(** A number [X * 2^s] below [2^1024], in binary digits. *)
Lemma digits_value_below X s :
  0 < X -> F64.digits X <= 53 -> Z.shiftl X s < 2 ^ 1024 ->
  s + F64.digits X <= 1024.
Proof.
  intros HX HD Hv. destruct (Z.le_gt_cases s 971) as [|Hs]; [lia|].
  rewrite Z.shiftl_mul_pow2 in Hv by lia.
  assert (0 < 2 ^ s) by (apply Z.pow_pos_nonneg; lia).
  rewrite Z.add_comm, <- digits_shift by lia. apply digits_lt_pow. nia.
Qed.

End RoundingFacts.

(** ** The back-off delays *)

Section BackoffFacts.

Context {Any Context : Type} (Background : Context).
Context (json_Marshal : Any -> bytes + Error).
Context (url_Parse : string -> option Error).
Context (transport : nat -> HttpClient -> HttpRequest Context -> RoundTrip).
Context (range_order : gmap string string -> list (string * string)).

Local Abbreviation Do_loop' :=
  (Do_loop Any Context Background json_Marshal url_Parse transport range_order).
Local Abbreviation Do' :=
  (Do Any Context Background json_Marshal url_Parse transport range_order).
Local Abbreviation build' :=
  (build Any Context json_Marshal url_Parse range_order).
Local Abbreviation outcome' :=
  (outcome Any Context json_Marshal url_Parse transport range_order).
Local Abbreviation attempt_events' :=
  (attempt_events Any Context json_Marshal url_Parse range_order).
Local Abbreviation per_attempt :=
  (sends_per_attempt Any Context json_Marshal url_Parse range_order).
Local Abbreviation retried_trace' :=
  (retried_trace Any Context Background json_Marshal url_Parse range_order).
Local Abbreviation bg := (Some Background).

Implicit Types (c : Client) (req : Request Any) (t : list (@Event Any Context)).

(** After [k] failed attempts that leave a retry, the loop goes on from
    the trace of these attempts and their sleeps. *)
Lemma Do_loop_retried c req k : forall fuel attempt lastErr t,
  (k <= fuel)%nat ->
  attempt + Z.of_nat k <= MaxRetries (retryConfig c) ->
  (forall j, (j < k)%nat ->
     (outcome' c bg req (count is_send t + j * per_attempt c bg req)).2 <> None) ->
  exists lastErr',
    Do_loop' c req fuel attempt lastErr t
    = Do_loop' c req (fuel - k) (attempt + Z.of_nat k) lastErr'
        (t ++ retried_trace' c req k attempt).
Proof.
  induction k as [|k IH]; intros fuel attempt lastErr t Hfuel Hle Hfail.
  - exists lastErr. simpl. by rewrite Nat.sub_0_r, Z.add_0_r, app_nil_r.
  - destruct fuel as [|fuel]; [lia|]. rewrite Do_loop_turn.
    destruct (Z.leb_spec attempt (MaxRetries (retryConfig c))); [|lia].
    pose proof (Hfail 0%nat ltac:(lia)) as H0.
    simpl in H0. rewrite Nat.add_0_r in H0.
    destruct (outcome' c bg req (count is_send t)) as [response [e|]]; [|done].
    destruct (Z.eqb_spec attempt (MaxRetries (retryConfig c))); [lia|].
    destruct (IH fuel (attempt + 1) (Some e)
                ((t ++ attempt_events' c bg req)
                   ++ [EvSleep (backoff_delay (retryConfig c) attempt)]))
      as [lastErr' ->]; [lia|lia| |].
    + intros j Hj. rewrite !count_app, count_send_attempt_events.
      change (count is_send [EvSleep _]) with 0%nat.
      replace (count is_send t + per_attempt c bg req + 0
               + j * per_attempt c bg req)%nat
        with (count is_send t + S j * per_attempt c bg req)%nat by lia.
      apply Hfail. lia.
    + exists lastErr'. simpl. rewrite <- !app_assoc. simpl.
      by replace (attempt + 1 + Z.of_nat k) with (attempt + Z.pos (Pos.of_succ_nat k))
        by lia.
Qed.

(** The loop only adds to the trace. *)
Lemma Do_loop_extends c req fuel : forall attempt lastErr t,
  exists events, (Do_loop' c req fuel attempt lastErr t).2 = t ++ events.
Proof.
  induction fuel as [|fuel IH]; intros attempt lastErr t.
  - exists []. simpl. by rewrite app_nil_r.
  - rewrite Do_loop_turn. destruct (attempt <=? _).
    + destruct (outcome' _ _ _ _) as [response [e|]]; [|by eexists].
      destruct (attempt =? _); [by eexists|].
      destruct (IH (attempt + 1) (Some e)
                  ((t ++ attempt_events' c bg req)
                     ++ [EvSleep (backoff_delay (retryConfig c) attempt)]))
        as [events ->].
      eexists. by rewrite <- !app_assoc.
    + exists []. simpl. by rewrite app_nil_r.
Qed.

Lemma slept_retried_trace c req k attempt :
  slept (retried_trace' c req k attempt)
  = backoff_delay (retryConfig c) <$> seqZ attempt (Z.of_nat k).
Proof.
  revert attempt. induction k as [|k IH]; intros attempt; simpl retried_trace.
  - done.
  - rewrite slept_app, slept_attempt_events. simpl. rewrite IH.
    rewrite Nat2Z.inj_succ. rewrite (seqZ_cons attempt) by lia.
    simpl. by rewrite Z.pred_succ, Z.add_1_r.
Qed.

(** The delays slept by a call begin with those of its failed attempts
    that leave a retry. *)
Lemma Do_slept_retried c req t k :
  Z.of_nat k <= MaxRetries (retryConfig c) ->
  (forall j, (j < k)%nat ->
     (outcome' c bg req (count is_send t + j * per_attempt c bg req)).2 <> None) ->
  exists rest,
    slept (Do' c req t).2
    = slept t ++ (backoff_delay (retryConfig c) <$> seqZ 0 (Z.of_nat k)) ++ rest.
Proof.
  intros Hk Hfail. unfold Do, mbind, M_bind.
  destruct (Do_loop_retried c req k
              (Z.to_nat (MaxRetries (retryConfig c) + 1)) 0 None t)
    as [lastErr' ->]; [lia|lia|done|].
  destruct (Do_loop_extends c req
              (Z.to_nat (MaxRetries (retryConfig c) + 1) - k)
              (0 + Z.of_nat k) lastErr' (t ++ retried_trace' c req k 0))
    as [events Hev].
  destruct (Do_loop' _ _ _ _ _ _) as [[response|lastErr] t1];
    simpl in *; subst t1; exists (slept events);
    by rewrite !slept_app, slept_retried_trace, <- app_assoc.
Qed.

(** C3, amended. The delay slept after failed attempt [j] is
    [backoff_delay]: the float64 product
    [float64(d) * pow(b, float64(j))] cut to whole nanoseconds, for a base
    delay [d] that is a non-negative [int64] and attempt numbers below
    [2^53], which a float64 holds exactly.
    - For every float64 multiplier [b >= 1]: if the product after attempt
      [i] is finite and its integer part fits an [int64], the delays
      after the attempts [0..i] are non-negative and do not decrease, and
      all of them are 0 when [d = 0].
    - For [d = zd * 2^td] and a multiplier [b = zb * 2^tb] of any size:
      as long as the integer [max(zd,1) * zb^j] fits the 53 digits of a
      float64 mantissa, [b^j] is below [2^1024] and [d * b^j] rounded
      down fits an [int64], the delay after attempt [j] is [d * b^j]
      rounded down, and exactly [d * b^j] when [b] is an integer
      ([tb >= 0]). *)
Theorem backoff_delays_floor c req t r n d b i :
  MaxRetries (retryConfig c) = n ->
  Delay (retryConfig c) = d ->
  Backoff (retryConfig c) = b ->
  0 <= d <= max_int64 ->
  0 <= i < n -> i < 2 ^ 53 ->
  build' c bg req = inl r ->
  (forall j, Z.of_nat j <= i ->
     (result_of (transport (count is_send t + j) (httpClient c) r)).2 <> None) ->
  forall j, 0 <= j <= i ->
    slept (Do' c req t).2 !! (length (slept t) + Z.to_nat j)%nat
    = Some (backoff_delay (retryConfig c) j)
    /\ (forall z,
          valid_binary F64.prec F64.emax b = true ->
          SFleb F64.one b = true ->
          F64.trunc (F64.mul (F64.of_int d) (pow b (F64.of_int i))) = Some z ->
          z <= max_int64 ->
          (forall j', j <= j' <= i ->
             0 <= backoff_delay (retryConfig c) j
               <= backoff_delay (retryConfig c) j')
          /\ (d = 0 -> backoff_delay (retryConfig c) j = 0))
    /\ (forall zd td zb tb,
          d = zd * 2 ^ td -> 0 <= zd -> 0 <= td ->
          b = F64.dyadic zb tb -> 1 <= zb ->
          Z.max zd 1 * zb ^ j < 2 ^ 53 ->
          Z.shiftl (zb ^ j) (j * tb) < 2 ^ 1024 ->
          Z.shiftl (zd * zb ^ j) (td + j * tb) <= max_int64 ->
          backoff_delay (retryConfig c) j
          = Z.shiftl (zd * zb ^ j) (td + j * tb)
          /\ (0 <= tb ->
              backoff_delay (retryConfig c) j = d * (zb * 2 ^ tb) ^ j)).
Proof.
  intros Hn Hd Hback Hd0 Hi Hi53 Hbuild Hfail j Hj.
  split; [|split].
  - destruct (Do_slept_retried c req t (S (Z.to_nat i))) as [rest ->]; [lia| |].
    { intros k Hk. unfold outcome.
      rewrite Hbuild, (per_attempt_built _ _ _ _ _ _ r Hbuild), Nat.mul_1_r.
      apply Hfail. lia. }
    rewrite lookup_app_r by lia.
    replace (length (slept t) + Z.to_nat j - length (slept t))%nat
      with (Z.to_nat j) by lia.
    rewrite lookup_app_l by (rewrite length_fmap, length_seqZ; lia).
    rewrite list_lookup_fmap, lookup_seqZ_lt by lia. simpl.
    by rewrite Z2Nat.id by lia.
  - intros z Hvalid Hone Hz Hfit. subst d b. split.
    + intros j' Hj'.
      by destruct (backoff_delay_mono (retryConfig c) i z Hd0 Hvalid Hone
                     ltac:(lia) Hz Hfit j j' ltac:(lia) ltac:(lia)) as (H & _).
    + intros H0.
      destruct (backoff_delay_mono (retryConfig c) i z Hd0 Hvalid Hone
                  ltac:(lia) Hz Hfit j j ltac:(lia) ltac:(lia)) as (_ & _ & H).
      by apply H.
  - intros zd td zb tb Hdz Hzd Htd Hb Hzb Hm Hrange Hfit. subst d b.
    assert (Hp : 0 < zb ^ j) by (apply Z.pow_pos_nonneg; lia).
    assert (Hdig : F64.digits (zb ^ j) <= 53) by (apply digits_lt_pow; nia).
    pose proof (digits_value_below _ _ Hp Hdig Hrange) as Hfin.
    pose proof (backoff_delay_rounded_down (retryConfig c) zd td zb tb j Hdz
                  Hzd Htd ltac:(lia) Hb Hzb ltac:(lia) Hm ltac:(lia) Hfit) as Hcl.
    split; [done|]. intros Htb. rewrite Hcl, Hdz.
    rewrite Z.shiftl_mul_pow2 by nia.
    rewrite Z.pow_add_r by nia.
    rewrite Z.pow_mul_l, (Z.mul_comm j tb), Z.pow_mul_r by lia. ring.
Qed.

End BackoffFacts.

(** ** Scenarios *)

Section Scenarios.

Import Scenario.

(** Scenario A of the design on the code: after three failed calls the
    fourth still reaches the transport and reports exhausted attempts. *)
Lemma fourth_call_reaches_transport :
  MaxFailures (circuitBreaker guarded) = 3
  /\ count is_send (Do_times refusing order 3 guarded get []).2 = 3%nat
  /\ count is_send
       (Do refusing order guarded get
          (Do_times refusing order 3 guarded get []).2).2 = 4%nat
  /\ (Do refusing order guarded get
        (Do_times refusing order 3 guarded get []).2).1
     = (None,
        Some (ErrAfterAttempts 1
                (Some (ErrRequestFailed (ErrLib "connection refused"))))).
Proof. vm_compute. repeat split. Qed.

Lemma Do_never_consults_breaker_witness :
  count is_send (Do_times refusing order 3 guarded get []).2 = (0 + 3 * 1)%nat
  /\ (exists e,
       (Do refusing order guarded get
          (Do_times refusing order 3 guarded get []).2).1
       = (None, Some (ErrAfterAttempts (0 + 1) (Some (ErrRequestFailed e)))))
  /\ count is_send
       (Do refusing order guarded get
          (Do_times refusing order 3 guarded get []).2).2
     = (count is_send (Do_times refusing order 3 guarded get []).2 + 1)%nat
  /\ (forall t',
        Do refusing order guarded get t'
        = Do refusing order (retrying 0 (1 * Second) (F64.of_int 2)) get t').
Proof.
  apply (Do_never_consults_breaker tt marshal parse refusing order
           (retrying 0 (1 * Second) (F64.of_int 2))
           {| MaxFailures := 3; cbTimeout := 30 * Second;
              ResetTimeout := 60 * Second |}
           get 3%nat [] get_sent 0).
  - reflexivity.
  - unfold max_int64. lia.
  - reflexivity.
  - intros k hc r. eexists. reflexivity.
Defined.

Lemma Do_permanent_failure_witness :
  exists e,
    refusing 3 (httpClient fresh) get_sent = RTError e
    /\ (Do refusing order fresh get []).1
       = (None, Some (ErrAfterAttempts (3 + 1) (Some (ErrRequestFailed e))))
    /\ count is_send (Do refusing order fresh get []).2 = 4%nat
    /\ Unwrap (ErrAfterAttempts (3 + 1) (Some (ErrRequestFailed e)))
       = Some (ErrRequestFailed e).
Proof.
  apply (Do_permanent_failure tt marshal parse refusing order fresh get []
           get_sent 3).
  - reflexivity.
  - unfold max_int64. lia.
  - reflexivity.
  - intros k hc r. eexists. reflexivity.
Defined.

(** A body that cannot be encoded is encoded four times by the default
    client, with the three back-off delays slept in between. *)
Lemma marshal_failure_is_retried :
  marshal GoChan = inr (ErrLib "json: unsupported type: chan int")
  /\ count is_marshal (Do refusing order fresh post_chan []).2 = 4%nat
  /\ slept (Do refusing order fresh post_chan []).2
     = [1 * Second; 2 * Second; 4 * Second]
  /\ (Do refusing order fresh post_chan []).1
     = (None,
        Some (ErrAfterAttempts 4
                (Some (ErrMarshalBody
                         (ErrLib "json: unsupported type: chan int"))))).
Proof. vm_compute. repeat split. Qed.

(** The same for a URL that does not parse. *)
Lemma bad_url_is_retried :
  count is_new_request (Do refusing order bare get_bad_url []).2 = 4%nat
  /\ slept (Do refusing order bare get_bad_url []).2
     = [1 * Second; 2 * Second; 4 * Second]
  /\ count is_send (Do refusing order bare get_bad_url []).2 = 0%nat.
Proof. vm_compute. repeat split. Qed.

Lemma Do_build_failure_retried_witness :
  (Do refusing order fresh post_chan []).1
  = (None,
     Some (ErrAfterAttempts (3 + 1)
             (Some (ErrMarshalBody (ErrLib "json: unsupported type: chan int")))))
  /\ count (starts_build GoValue unit post_chan)
       (Do refusing order fresh post_chan []).2 = 4%nat
  /\ slept (Do refusing order fresh post_chan []).2
     = backoff_delay (retryConfig fresh) <$> seqZ 0 3
  /\ count is_send (Do refusing order fresh post_chan []).2 = 0%nat.
Proof.
  apply (Do_build_failure_retried tt marshal parse refusing order fresh
           post_chan []
           (ErrMarshalBody (ErrLib "json: unsupported type: chan int")) 3).
  - reflexivity.
  - unfold max_int64. lia.
  - reflexivity.
Defined.

(** The caller's content type does not survive on a request with a
    body. *)
Lemma caller_content_type_overwritten :
  ReqHeaders post_plain !! "Content-Type" = Some "text/plain"
  /\ (Header_Get "Content-Type" ∘ hHeader)
       <$> sent (doRequest (answering 200 "true") order fresh post_plain []).2
     = [Some "application/json"].
Proof. vm_compute. repeat split. Qed.

Lemma content_type_always_json_witness :
  sent (doRequest (answering 200 "true") order fresh post_plain []).2
  = [post_plain_sent]
  /\ hHeader post_plain_sent !! "Content-Type" = Some ["application/json"]
  /\ forall k, CanonicalMIMEHeaderKey k = "Content-Type" ->
       Header_Get k (hHeader post_plain_sent) = Some "application/json".
Proof.
  apply (content_type_always_json tt marshal parse (answering 200 "true") order
           fresh post_plain [] post_plain_sent (GoBool true)).
  - reflexivity.
  - reflexivity.
Defined.

(** Neither the default nor the request's own content type is what goes
    out with a body: the merged value is replaced. *)
Lemma merged_content_type_replaced :
  defaultHeaders xml_client !! "content-type" = Some "text/xml"
  /\ ReqHeaders post_plain !! "Content-Type" = Some "text/plain"
  /\ (Header_Get "Content-Type" ∘ hHeader)
       <$> sent (doRequest (answering 200 "true") order xml_client post_plain []).2
     = [Some "application/json"].
Proof. vm_compute. repeat split. Qed.

(** Without a body the merge is all there is. *)
Lemma merged_headers_example :
  (fun r => map_to_list (hHeader r))
    <$> sent (doRequest (answering 200 "true") order token_client get_traced []).2
  = [[("Accept", ["text/html"]); ("X-Trace", ["mine"])]].
Proof. vm_compute. reflexivity. Qed.

Lemma headers_merged_witness :
  (forall m, order m ≡ₚ map_to_list m)
  /\ build order token_client (Some tt) get_traced
     = inl {| hMethod := "GET"; hURL := "http://h/x";
              hHeader := {["Accept" := ["text/html"]; "X-Trace" := ["mine"]]};
              hBody := None; hCtx := tt |}
  /\ Header_Get "x-trace"
       {["Accept" := ["text/html"]; "X-Trace" := ["mine"]]} = Some "mine"
  /\ Header_Get "accept"
       {["Accept" := ["text/html"]; "X-Trace" := ["mine"]]} = Some "text/html"
  /\ (forall k,
        ReqBody get_traced = None \/ CanonicalMIMEHeaderKey k <> "Content-Type" ->
        (forall v, ReqHeaders get_traced !! k = Some v ->
           sole_name (ReqHeaders get_traced) k ->
           Header_Get k {["Accept" := ["text/html"]; "X-Trace" := ["mine"]]}
           = Some v)
        /\ (forall v, defaultHeaders token_client !! k = Some v ->
              sole_name (defaultHeaders token_client) k ->
              no_name (ReqHeaders get_traced) (CanonicalMIMEHeaderKey k) ->
              Header_Get k {["Accept" := ["text/html"]; "X-Trace" := ["mine"]]}
              = Some v)
        /\ (no_name (ReqHeaders get_traced) (CanonicalMIMEHeaderKey k) ->
            no_name (defaultHeaders token_client) (CanonicalMIMEHeaderKey k) ->
            Header_Get k {["Accept" := ["text/html"]; "X-Trace" := ["mine"]]}
            = None)).
Proof.
  split; [intros m; reflexivity|].
  split; [reflexivity|].
  split; [reflexivity|].
  split; [reflexivity|].
  refine (proj1 (proj2
    (headers_merged tt marshal parse (answering 200 "true") order
       (fun m => reflexivity (order m)) token_client get_traced []
       {| hMethod := "GET"; hURL := "http://h/x";
          hHeader := {["Accept" := ["text/html"]; "X-Trace" := ["mine"]]};
          hBody := None; hCtx := tt |} _))).
  reflexivity.
Defined.

(** Two refused connections, then a response with status 500: it is
    returned as it is, after three invocations and two delays. *)
Lemma Do_response_or_error_witness :
  exactly_one (Do (flaky 2 500 "oops") order fresh get []).1
  /\ (Do (flaky 2 500 "oops") order fresh get []).1
     = (Some {| StatusCode := 500; Headers := ∅; Body := text "oops" |}, None)
  /\ count is_send (Do (flaky 2 500 "oops") order fresh get []).2 = 3%nat
  /\ length (slept (Do (flaky 2 500 "oops") order fresh get []).2) = 2%nat.
Proof.
  split.
  - apply (Do_response_or_error tt marshal parse (flaky 2 500 "oops") order
             fresh get []).
  - apply (proj2 (Do_response_or_error tt marshal parse (flaky 2 500 "oops")
                    order fresh get [])
             2%nat get_sent 500 ∅ (text "oops")).
    + reflexivity.
    + simpl. lia.
    + intros [|[|j]] Hj; [discriminate|discriminate|lia].
    + reflexivity.
Defined.

(** A response whose body cannot be read is a failed attempt like a
    refused connection. *)
Lemma unread_body_is_retried :
  count is_send (Do truncating order fresh get []).2 = 4%nat
  /\ (Do truncating order fresh get []).1
     = (None,
        Some (ErrAfterAttempts 4 (Some (ErrReadBody (ErrLib "unexpected EOF"))))).
Proof. vm_compute. repeat split. Qed.


(** One refused connection ends [WithContext]; the same client and
    request keep [Do] busy for four. *)
Lemma WithContext_single_attempt_witness :
  (WithContext refusing order fresh (Some tt) get []).1
  = (None, Some (ErrRequestFailed (ErrLib "connection refused")))
  /\ count is_send (WithContext refusing order fresh (Some tt) get []).2 = 1%nat
  /\ slept (WithContext refusing order fresh (Some tt) get []).2 = []
  /\ count is_send (Do refusing order fresh get []).2 = 4%nat.
Proof.
  pose proof (WithContext_single_attempt marshal parse refusing order fresh
                (Some tt) get []) as (_ & Hslept & Hfail & _).
  destruct (Hfail get_sent (ErrLib "connection refused") eq_refl eq_refl)
    as [Hres Hcount].
  split; [exact Hres|]. split; [exact Hcount|]. split; [exact Hslept|reflexivity].
Defined.

Lemma tokens_bounded_witness :
  0 <= 3
  /\ exists s0,
       NewRateLimiter Z.of_nat (100 * Millisecond) 3 = Some s0
       /\ tokens s0 = 3
       /\ forall acts s, run acts s0 = Some s ->
            0 <= tokens s <= 3
            /\ tokens s + Z.of_nat (length (callers s))
                 + Z.of_nat (length (refills s)) = 3
            /\ forall i, is_Some (refills s !! i) ->
                 is_Some (step (ActRefill i) s).
Proof.
  split; [lia|].
  apply (tokens_bounded Z.of_nat (100 * Millisecond) 3). lia.
Defined.

(** A burst of three is admitted at once, the fourth caller blocks until a
    token has come back. *)
Lemma burst_then_block :
  (s0 ← NewRateLimiter Z.of_nat (100 * Millisecond) 3;
   tokens <$> run (Wait 10 ++ Wait 11 ++ Wait 12) s0) = Some 0
  /\ (s0 ← NewRateLimiter Z.of_nat (100 * Millisecond) 3;
      run (Wait 10 ++ Wait 11 ++ Wait 12 ++ Wait 13) s0) = None
  /\ (s0 ← NewRateLimiter Z.of_nat (100 * Millisecond) 3;
      tokens <$> run (Wait 10 ++ Wait 11 ++ Wait 12 ++ [ActRefill 0] ++ Wait 13)
                   s0) = Some 0.
Proof. vm_compute. repeat split. Qed.

(** Three nanoseconds times one and a half is four and a half; four are
    slept. *)
Lemma delay_is_truncated :
  slept (Do refusing order odd_delays get []).2 = [3; 4; 6]
  /\ exists q, F64.to_Q one_and_a_half = Some q
       /\ (q == 3 # 2)%Q
       /\ ~ (inject_Z 4 == inject_Z 3 * q ^ 1)%Q.
Proof.
  split; [vm_compute; reflexivity|].
  eexists. split; [reflexivity|]. split.
  - vm_compute. reflexivity.
  - vm_compute. discriminate.
Qed.

(** One second and a factor of [float64(1.1)]: the delays grow, and the
    second is what the float64 product gives. Three nanoseconds and a
    factor of one and a half: four nanoseconds after the second failed
    attempt, six after the third. The default configuration: four seconds
    after the third failed attempt. No delay and a factor of [2^64]: no
    delay after the second failed attempt. One second and a factor of one
    half: half a second after the second failed attempt. *)
Lemma backoff_delays_floor_witness :
  (slept (Do refusing order gentle get []).2 !! 1%nat = Some 1100000000
   /\ 0 <= 1100000000 <= 1210000000)
  /\ backoff_delay (retryConfig odd_delays) 1 = Z.shiftl (3 * 3 ^ 1) (0 + 1 * -1)
  /\ slept (Do refusing order odd_delays get []).2 !! 2%nat = Some 6
  /\ backoff_delay (retryConfig fresh) 2 = 1 * Second * (1 * 2 ^ 1) ^ 2
  /\ slept (Do refusing order idle_client get []).2 !! 1%nat = Some 0
  /\ backoff_delay (retryConfig idle_client) 1 = Z.shiftl (0 * 1 ^ 1) (0 + 1 * 64)
  /\ backoff_delay (retryConfig halving) 1
     = Z.shiftl (1000000000 * 1 ^ 1) (0 + 1 * -1).
Proof.
  assert (Hfail : forall (c : Client) (i : Z) (j : nat), Z.of_nat j <= i ->
    (result_of (refusing (count is_send (nil : list (Event GoValue unit)) + j)
                  (httpClient c) get_sent)).2 <> None)
    by (intros; discriminate).
  assert (Hsecond : 0 <= 1 * Second <= max_int64) by (vm_compute; intuition discriminate).
  assert (Hthree : 0 <= 3 <= max_int64) by (vm_compute; intuition discriminate).
  assert (Hzero : 0 <= 0 <= max_int64) by (vm_compute; intuition discriminate).
  split; [|split; [|split; [|split; [|split; [|split]]]]].
  - destruct (backoff_delays_floor tt marshal parse refusing order
                gentle get [] get_sent 3 (1 * Second) eleven_tenths 2
                eq_refl eq_refl eq_refl Hsecond ltac:(lia) ltac:(lia) eq_refl
                (Hfail gentle 2) 1 ltac:(lia)) as (Hs & Hm & _).
    split; [exact Hs|].
    destruct (Hm 1210000000 eq_refl eq_refl ltac:(vm_compute; reflexivity)
                ltac:(vm_compute; discriminate)) as [Hmono _].
    exact (Hmono 2 ltac:(lia)).
  - destruct (backoff_delays_floor tt marshal parse refusing order
                odd_delays get [] get_sent 3 3 one_and_a_half 2
                eq_refl eq_refl eq_refl Hthree ltac:(lia) ltac:(lia) eq_refl
                (Hfail odd_delays 2) 1 ltac:(lia)) as (_ & _ & Hc).
    destruct (Hc 3 0 3 (-1) eq_refl ltac:(lia) ltac:(lia) eq_refl
                ltac:(lia) ltac:(vm_compute; reflexivity)
                ltac:(vm_compute; intuition discriminate)
                ltac:(vm_compute; discriminate)) as [Hfloor _].
    exact Hfloor.
  - destruct (backoff_delays_floor tt marshal parse refusing order
                odd_delays get [] get_sent 3 3 one_and_a_half 2
                eq_refl eq_refl eq_refl Hthree ltac:(lia) ltac:(lia) eq_refl
                (Hfail odd_delays 2) 2 ltac:(lia)) as (Hs & _).
    exact Hs.
  - destruct (backoff_delays_floor tt marshal parse refusing order
                fresh get [] get_sent 3 (1 * Second) (F64.of_int 2) 2
                eq_refl eq_refl eq_refl Hsecond ltac:(lia) ltac:(lia) eq_refl
                (Hfail fresh 2) 2 ltac:(lia)) as (_ & _ & Hc).
    destruct (Hc 1000000000 0 1 1 eq_refl ltac:(lia) ltac:(lia) eq_refl
                ltac:(lia) ltac:(vm_compute; reflexivity)
                ltac:(vm_compute; intuition discriminate)
                ltac:(vm_compute; discriminate)) as [_ Hexact].
    exact (Hexact ltac:(lia)).
  - destruct (backoff_delays_floor tt marshal parse refusing order
                idle_client get [] get_sent 20 0 (F64.dyadic 1 64) 1
                eq_refl eq_refl eq_refl Hzero ltac:(lia) ltac:(lia) eq_refl
                (Hfail idle_client 1) 1 ltac:(lia)) as (Hs & _).
    exact Hs.
  - destruct (backoff_delays_floor tt marshal parse refusing order
                idle_client get [] get_sent 20 0 (F64.dyadic 1 64) 1
                eq_refl eq_refl eq_refl Hzero ltac:(lia) ltac:(lia) eq_refl
                (Hfail idle_client 1) 1 ltac:(lia)) as (_ & _ & Hc).
    destruct (Hc 0 0 1 64 eq_refl ltac:(lia) ltac:(lia) eq_refl
                ltac:(lia) ltac:(vm_compute; reflexivity)
                ltac:(vm_compute; intuition discriminate)
                ltac:(vm_compute; discriminate)) as [Hfloor _].
    exact Hfloor.
  - destruct (backoff_delays_floor tt marshal parse refusing order
                halving get [] get_sent 3 (1 * Second) (F64.dyadic 1 (-1)) 2
                eq_refl eq_refl eq_refl Hsecond ltac:(lia) ltac:(lia) eq_refl
                (Hfail halving 2) 1 ltac:(lia)) as (_ & _ & Hc).
    destruct (Hc 1000000000 0 1 (-1) eq_refl ltac:(lia) ltac:(lia) eq_refl
                ltac:(lia) ltac:(vm_compute; reflexivity)
                ltac:(vm_compute; intuition discriminate)
                ltac:(vm_compute; discriminate)) as [Hfloor _].
    exact Hfloor.
Defined.

(** The delays of a factor of [float64(1.1)]. *)
Lemma gentle_delays :
  slept (Do refusing order gentle get []).2
  = [1000000000; 1100000000; 1210000000].
Proof. vm_compute. reflexivity. Qed.

(** Ten nanoseconds times [float64(1.7)], a number just below 1.7: the
    float64 product rounds to 17, whereas ten times that number, rounded
    down, is 16. Beyond the products that a float holds exactly the delay
    need not be [d * b^i] rounded down. *)
Lemma product_is_rounded :
  Backoff rounding = F64.dyadic 7656119366529843 (-52)
  /\ backoff_delay rounding 1 = 17
  /\ Z.shiftl (Delay rounding * 7656119366529843 ^ 1) (1 * -52) = 16.
Proof. vm_compute. repeat split. Qed.

(** One second and a factor of one half: the delays shrink to nothing,
    also where the power has left the range of float64. *)
Lemma halving_delays :
  slept (Do refusing order halving get []).2
  = [1000000000; 500000000; 250000000]
  /\ backoff_delay (retryConfig halving) 30 = 0
  /\ backoff_delay (retryConfig halving) 1100 = 0.
Proof. vm_compute. repeat split. Qed.

(** No delay and a factor of [2^64]: the delays are 0 as long as the
    power is finite; the sixteenth power is infinite, zero times infinity
    is no number, and what is slept is what the conversion of the platform
    makes of it. *)
Lemma idle_steep_delays :
  backoff_delay idle_steep 1 = 0
  /\ backoff_delay idle_steep 15 = 0
  /\ pow (Backoff idle_steep) (F64.of_int 16) = S754_infinity false
  /\ backoff_delay idle_steep 16 = F64.indefinite.
Proof. vm_compute. repeat split. Qed.

(** The delays of the default configuration: one, two and four seconds. *)
Lemma default_delays :
  slept (Do refusing order fresh get []).2 = [1 * Second; 2 * Second; 4 * Second].
Proof. vm_compute. reflexivity. Qed.

(** A product beyond the range of [int64]: what is slept is what the
    conversion of the platform makes of it, here a negative duration. *)
Lemma steep_delay_out_of_range :
  backoff_delay steep 0 = 1 * Second
  /\ F64.trunc (F64.mul (F64.of_int (Delay steep))
                  (pow (Backoff steep) (F64.of_int 1)))
     = Some (10 ^ 19)
  /\ backoff_delay steep 1 = F64.indefinite.
Proof. vm_compute. repeat split. Qed.

End Scenarios.

(** ** Whole calls, whatever the remote side answers *)

Section CallFacts.

Context {Any Context : Type} (Background : Context).
Context (json_Marshal : Any -> bytes + Error).
Context (json_Unmarshal : bytes -> Any -> Any * option Error).
Context (url_Parse : string -> option Error).
Context (transport : nat -> HttpClient -> HttpRequest Context -> RoundTrip).
Context (range_order : gmap string string -> list (string * string)).

Local Abbreviation Do_loop' :=
  (Do_loop Any Context Background json_Marshal url_Parse transport range_order).
Local Abbreviation Do' :=
  (Do Any Context Background json_Marshal url_Parse transport range_order).
Local Abbreviation JSON' :=
  (JSON Any Context Background json_Marshal json_Unmarshal url_Parse transport
     range_order).
Local Abbreviation WithContext' :=
  (WithContext Any Context json_Marshal url_Parse transport range_order).
Local Abbreviation build' :=
  (build Any Context json_Marshal url_Parse range_order).
Local Abbreviation outcome' :=
  (outcome Any Context json_Marshal url_Parse transport range_order).
Local Abbreviation attempt_events' :=
  (attempt_events Any Context json_Marshal url_Parse range_order).
Local Abbreviation per_attempt :=
  (sends_per_attempt Any Context json_Marshal url_Parse range_order).
Local Abbreviation attempts_trace' :=
  (attempts_trace Any Context Background json_Marshal url_Parse range_order).
Local Abbreviation bg := (Some Background).

Implicit Types (c : Client) (req : Request Any) (t : list (@Event Any Context)).

(** A loop that starts within the allowed attempts leaves the events of
    some number of retried attempts and of one attempt more, none of
    them numbered beyond [MaxRetries]. *)
Lemma Do_loop_attempts c req fuel : forall attempt lastErr t,
  attempt <= MaxRetries (retryConfig c) ->
  (Z.to_nat (MaxRetries (retryConfig c) + 1 - attempt) <= fuel)%nat ->
  exists k,
    attempt + Z.of_nat k <= MaxRetries (retryConfig c)
    /\ (Do_loop' c req fuel attempt lastErr t).2
       = t ++ attempts_trace' c req k attempt.
Proof.
  induction fuel as [|fuel IH]; intros attempt lastErr t Hle Hfuel; [lia|].
  rewrite Do_loop_turn.
  destruct (Z.leb_spec attempt (MaxRetries (retryConfig c))); [|lia].
  destruct (outcome' _ _ _ _) as [response [e|]].
  - destruct (Z.eqb_spec attempt (MaxRetries (retryConfig c))).
    + exists 0%nat. split; [lia|done].
    + destruct (IH (attempt + 1) (Some e)
                  ((t ++ attempt_events' c bg req)
                     ++ [EvSleep (backoff_delay (retryConfig c) attempt)]))
        as (k & Hk & ->); [lia..|].
      exists (S k). split; [lia|]. simpl. by rewrite <- !app_assoc.
  - exists 0%nat. split; [lia|done].
Qed.

(** The events of a call: none when no attempt is allowed, and otherwise
    those of at most [MaxRetries] retried attempts and one more. *)
Lemma Do_attempts c req t :
  (MaxRetries (retryConfig c) < 0
   /\ Do' c req t
      = (None, Some (ErrAfterAttempts
                       (wrap64 (MaxRetries (retryConfig c) + 1)) None), t))
  \/ exists k,
       Z.of_nat k <= MaxRetries (retryConfig c)
       /\ (Do' c req t).2 = t ++ attempts_trace' c req k 0.
Proof.
  destruct (Z.lt_ge_cases (MaxRetries (retryConfig c)) 0) as [Hneg|Hpos].
  - left. split; [done|]. unfold Do, mbind, M_bind.
    replace (Z.to_nat (MaxRetries (retryConfig c) + 1)) with 0%nat by lia.
    done.
  - right.
    destruct (Do_loop_attempts c req (Z.to_nat (MaxRetries (retryConfig c) + 1))
                0 None t) as (k & Hk & Htrace); [lia..|].
    exists k. split; [lia|]. unfold Do, mbind, M_bind.
    destruct (Do_loop' _ _ _ _ _ _) as [[response|lastErr] t1]; by simpl in *.
Qed.

Lemma count_marshal_attempt_events c ctx req :
  count is_marshal (attempt_events' c ctx req)
  = match ReqBody req with Some _ => 1%nat | None => 0%nat end.
Proof.
  unfold attempt_events, build_events. rewrite count_app.
  destruct (ReqBody req) as [v|]; [destruct (json_Marshal v)|];
    by destruct (build' c ctx req).
Qed.

Lemma count_marshal_attempts_trace c req k attempt :
  count is_marshal (attempts_trace' c req k attempt)
  = (S k * match ReqBody req with Some _ => 1 | None => 0 end)%nat.
Proof.
  revert attempt. induction k as [|k IH]; intros attempt; simpl attempts_trace.
  - rewrite count_marshal_attempt_events. lia.
  - rewrite count_app, count_cons, count_marshal_attempt_events, IH. simpl. lia.
Qed.

Lemma sent_attempts_trace_unbuilt c req k attempt e :
  build' c bg req = inr e -> sent (attempts_trace' c req k attempt) = [].
Proof.
  intros Hb.
  assert (Hnone : sent (attempt_events' c bg req) = []).
  { unfold attempt_events, build_events. rewrite sent_app, Hb.
    destruct (ReqBody req) as [v|]; [destruct (json_Marshal v)|]; done. }
  revert attempt. induction k as [|k IH]; intros attempt; simpl attempts_trace.
  - done.
  - rewrite sent_app, Hnone. simpl. apply IH.
Qed.

(** X1. Whatever the remote side answers, a call of [Do] invokes the
    transport at most [MaxRetries + 1] times and sleeps at most
    [MaxRetries] times, and the delays it sleeps are the first ones of the
    back-off schedule, in order. ([MaxRetries] is below the largest
    [int], so that the attempt counter does not wrap around.) *)
Theorem Do_attempts_bounded c req t :
  MaxRetries (retryConfig c) < max_int64 ->
  exists k,
    Z.of_nat k <= Z.max 0 (MaxRetries (retryConfig c))
    /\ slept (Do' c req t).2
       = slept t ++ (backoff_delay (retryConfig c) <$> seqZ 0 (Z.of_nat k))
    /\ (count is_send (Do' c req t).2
        <= count is_send t + Z.to_nat (MaxRetries (retryConfig c) + 1))%nat.
Proof.
  intros _.
  destruct (Do_attempts c req t) as [[Hneg ->]|(k & Hk & ->)].
  - exists 0%nat. simpl. rewrite app_nil_r. repeat split; lia.
  - exists k. rewrite slept_app, slept_attempts_trace, count_app,
      count_send_attempts_trace.
    split; [lia|]. split; [done|].
    unfold sends_per_attempt. destruct (build' c bg req); lia.
Qed.

(** X3. With [MaxRetries = 0] a call of [Do] is the single attempt that
    [WithContext] makes on the background context: the same events, none
    of them a sleep, the same response when the attempt succeeds, and on
    failure the attempt's error wrapped as the cause of "request failed
    after 1 attempts". *)
Theorem Do_without_retries c req t :
  MaxRetries (retryConfig c) = 0 ->
  (Do' c req t).2 = (WithContext' c bg req t).2
  /\ slept (Do' c req t).2 = slept t
  /\ match (WithContext' c bg req t).1 with
     | (response, None) => (Do' c req t).1 = (response, None)
     | (_, Some e) =>
         (Do' c req t).1 = (None, Some (ErrAfterAttempts 1 (Some e)))
     end.
Proof.
  intros Hn. rewrite WithContext_unfold. unfold Do, mbind, M_bind. rewrite Hn.
  change (Z.to_nat (0 + 1)) with 1%nat. rewrite Do_loop_turn, Hn. simpl.
  destruct (outcome' _ _ _ _) as [response [e|]]; simpl;
    by rewrite slept_app, slept_attempt_events, app_nil_r.
Qed.

(** X4. With a negative [MaxRetries] the loop of [Do] is never entered:
    the call builds no request, invokes nothing and sleeps nothing, and
    returns an "after attempts" error that wraps no cause. *)
Theorem Do_negative_retries c req t :
  min_int64 <= MaxRetries (retryConfig c) < 0 ->
  Do' c req t
  = (None, Some (ErrAfterAttempts (MaxRetries (retryConfig c) + 1) None), t)
  /\ Unwrap (ErrAfterAttempts (MaxRetries (retryConfig c) + 1) None) = None.
Proof.
  intros Hn. split; [|done].
  destruct (Do_attempts c req t) as [[_ ->]|(k & Hk & _)]; [|lia].
  rewrite wrap64_id; [done|]. unfold min_int64, max_int64 in *. lia.
Qed.

(** X5. [JSON] adds no attempt of its own: it invokes the transport and
    sleeps exactly as the call of [Do] inside it. When that call fails,
    [JSON] returns its error as it is, decodes nothing and leaves the
    destination as it was. *)
Theorem JSON_error_passthrough c req result t :
  sent (JSON' c req result t).2 = sent (Do' c req t).2
  /\ slept (JSON' c req result t).2 = slept (Do' c req t).2
  /\ forall e, (Do' c req t).1.2 = Some e ->
       JSON' c req result t = (result, Some e, (Do' c req t).2)
       /\ count is_unmarshal (JSON' c req result t).2 = count is_unmarshal t.
Proof.
  pose proof (Do_no_unmarshal Background json_Marshal url_Parse transport
                range_order c req t) as Hnone.
  unfold JSON, mbind, M_bind.
  destruct (Do' c req t) as [[resp err] t1]; simpl in *.
  destruct err as [err|]; simpl.
  - split; [done|]. split; [done|]. intros e [= <-]. done.
  - destruct resp as [resp|]; simpl.
    + destruct (400 <=? StatusCode resp); simpl.
      * split; [done|]. split; [done|]. by intros e.
      * unfold Unmarshal, emit, mbind, M_bind, mret, M_ret. simpl.
        rewrite sent_app, slept_app. simpl. rewrite !app_nil_r.
        split; [done|]. split; [done|]. by intros e.
    + split; [done|]. split; [done|]. by intros e.
Qed.

End CallFacts.

(** ** The orders of the [range] statements *)

Section RangeFacts.

Context {Any Context : Type} (Background : Context).
Context (json_Marshal : Any -> bytes + Error).
Context (url_Parse : string -> option Error).
Context (transport : nat -> HttpClient -> HttpRequest Context -> RoundTrip).

Local Abbreviation Do_loop' :=
  (Do_loop Any Context Background json_Marshal url_Parse transport).
Local Abbreviation Do' :=
  (Do Any Context Background json_Marshal url_Parse transport).
Local Abbreviation Do_anew' :=
  (Do_anew Background json_Marshal url_Parse transport).
Local Abbreviation doRequest' :=
  (doRequest Any Context Background json_Marshal url_Parse transport).
Local Abbreviation build' := (build Any Context json_Marshal url_Parse).
Local Abbreviation bg := (Some Background).

Implicit Types (c : Client) (req : Request Any) (t : list (@Event Any Context)).
Implicit Types (order : gmap string string -> list (string * string)).

(** The headers [doRequest] sets are those of the orders the embedding
    takes. *)
Lemma outgoing_header_in_order order c req :
  outgoing_header Any order c req
  = header_in_order (order (defaultHeaders c)) (order (ReqHeaders req)) req.
Proof. reflexivity. Qed.

(** With distinct canonical names in each of the two maps, the headers do
    not depend on the orders of the two [range] statements. *)
Lemma header_in_order_perm c req defaults defaults' headers headers' :
  distinct_names (defaultHeaders c) -> distinct_names (ReqHeaders req) ->
  defaults ≡ₚ map_to_list (defaultHeaders c) ->
  defaults' ≡ₚ map_to_list (defaultHeaders c) ->
  headers ≡ₚ map_to_list (ReqHeaders req) ->
  headers' ≡ₚ map_to_list (ReqHeaders req) ->
  header_in_order defaults headers req = header_in_order defaults' headers' req.
Proof.
  intros Hdc Hdr Hd Hd' Hh Hh'. unfold header_in_order.
  rewrite (set_all_union headers), (set_all_union headers').
  rewrite (set_all_perm defaults defaults' _ Hd Hd' Hdc).
  by rewrite (set_all_perm headers headers' _ Hh Hh' Hdr).
Qed.

(** Nor does the request, nor the attempt. *)
Lemma build_any_order order order' c ctx req :
  (forall m, order m ≡ₚ map_to_list m) ->
  (forall m, order' m ≡ₚ map_to_list m) ->
  distinct_names (defaultHeaders c) -> distinct_names (ReqHeaders req) ->
  build' order c ctx req = build' order' c ctx req.
Proof.
  intros Ho Ho' Hdc Hdr. unfold build.
  rewrite !outgoing_header_in_order.
  by rewrite (header_in_order_perm c req _ (order' (defaultHeaders c))
                _ (order' (ReqHeaders req))).
Qed.

Lemma doRequest_any_order order order' c req t :
  (forall m, order m ≡ₚ map_to_list m) ->
  (forall m, order' m ≡ₚ map_to_list m) ->
  distinct_names (defaultHeaders c) -> distinct_names (ReqHeaders req) ->
  doRequest' order c req t = doRequest' order' c req t.
Proof.
  intros Ho Ho' Hdc Hdr. rewrite !doRequest_unfold.
  unfold outcome, attempt_events.
  by rewrite (build_any_order order order').
Qed.

(** The loop over an attempt that does in every turn what [doRequest]
    does is the loop of [Do]. *)
Lemma Do_loop_over_same order c req attempt_at :
  (forall k t, attempt_at k t = doRequest' order c req t) ->
  forall fuel attempt lastErr t,
    Do_loop_over Any Context attempt_at c fuel attempt lastErr t
    = Do_loop' order c req fuel attempt lastErr t.
Proof.
  intros Hsame. induction fuel as [|fuel IH]; intros attempt lastErr t; [done|].
  simpl. destruct (attempt <=? _); [|done].
  unfold mbind, M_bind at 1 3. rewrite Hsame.
  destruct (doRequest' order c req t) as [[response [e|]] t']; [|done].
  destruct (attempt =? _); [done|].
  unfold mbind, M_bind, time_Sleep, emit. apply IH.
Qed.

(** With distinct canonical names, a call whose [range] statements take
    new orders in every attempt is the call that keeps those of the first
    attempt. *)
Lemma Do_anew_same orders c req t :
  (forall k m, orders k m ≡ₚ map_to_list m) ->
  distinct_names (defaultHeaders c) -> distinct_names (ReqHeaders req) ->
  Do_anew' orders c req t = Do' (orders 0) c req t.
Proof.
  intros Ho Hdc Hdr. unfold Do_anew, Do_over, Do, mbind, M_bind.
  rewrite (Do_loop_over_same (orders 0) c req); [done|].
  intros k t'. by apply doRequest_any_order.
Qed.

(** X2. Where no two default headers of the client share a canonical name
    and no two headers of the request do, every attempt of a call hands
    the same request to the transport, whatever orders the [range]
    statements of [doRequest] take in each attempt: the request built
    from the client and the caller's request, with the headers that the
    two [range] statements set in any orders of the two maps. The call
    does what [Do] does with the orders of the first attempt throughout.
    When the request cannot be built the transport is not invoked. A body
    is encoded anew on every attempt. ([MaxRetries] is below the largest
    [int].) *)
Theorem Do_resends_same_request orders c req t :
  MaxRetries (retryConfig c) < max_int64 ->
  (forall k m, orders k m ≡ₚ map_to_list m) ->
  distinct_names (defaultHeaders c) ->
  distinct_names (ReqHeaders req) ->
  exists m,
    (m <= Z.to_nat (MaxRetries (retryConfig c) + 1))%nat
    /\ (0 <= MaxRetries (retryConfig c) -> (1 <= m)%nat)
    /\ sent (Do_anew' orders c req t).2
       = sent t ++ match build' (orders 0) c bg req with
                   | inl r => replicate m r
                   | inr _ => []
                   end
    /\ (forall defaults headers r,
          defaults ≡ₚ map_to_list (defaultHeaders c) ->
          headers ≡ₚ map_to_list (ReqHeaders req) ->
          build' (orders 0) c bg req = inl r ->
          hHeader r = header_in_order defaults headers req)
    /\ count is_marshal (Do_anew' orders c req t).2
       = (count is_marshal t
          + m * match ReqBody req with Some _ => 1 | None => 0 end)%nat
    /\ Do_anew' orders c req t = Do' (orders 0) c req t.
Proof.
  intros _ Hperm Hdc Hdr.
  assert (Hheader : forall defaults headers r,
    defaults ≡ₚ map_to_list (defaultHeaders c) ->
    headers ≡ₚ map_to_list (ReqHeaders req) ->
    build' (orders 0) c bg req = inl r ->
    hHeader r = header_in_order defaults headers req).
  { intros defaults headers r Hd Hh Hb.
    rewrite (build_header json_Marshal url_Parse (orders 0) c bg req r Hb).
    rewrite outgoing_header_in_order.
    by apply (header_in_order_perm c). }
  rewrite (Do_anew_same orders c req t Hperm Hdc Hdr).
  destruct (Do_attempts Background json_Marshal url_Parse transport (orders 0)
              c req t) as [[Hneg ->]|(k & Hk & ->)].
  - exists 0%nat. simpl. split; [lia|]. split; [lia|].
    split; [|split; [done|split; [lia|done]]].
    destruct (build' (orders 0) c bg req); by rewrite app_nil_r.
  - exists (S k). split; [lia|]. split; [lia|].
    rewrite sent_app, count_app, count_marshal_attempts_trace.
    split; [|split; [done|split; done]].
    destruct (build' (orders 0) c bg req) as [r|e] eqn:Hb.
    + by rewrite (sent_attempts_trace _ _ _ _ _ _ _ _ r Hb).
    + by rewrite (sent_attempts_trace_unbuilt _ _ _ _ _ _ _ _ e Hb).
Qed.

End RangeFacts.

(** ** Configuration *)

Section ConfigFacts.

Context {Any Context : Type} (Background : Context).
Context (json_Marshal : Any -> bytes + Error).
Context (url_Parse : string -> option Error).
Context (transport : nat -> HttpClient -> HttpRequest Context -> RoundTrip).
Context (range_order : gmap string string -> list (string * string)).

Local Abbreviation Do' :=
  (Do Any Context Background json_Marshal url_Parse transport range_order).
Local Abbreviation build' :=
  (build Any Context json_Marshal url_Parse range_order).
Local Abbreviation bg := (Some Background).

Implicit Types (c : Client) (req : Request Any) (t : list (@Event Any Context)).
Implicit Types (l : list (string * string)) (m : gmap string string).

(** Assigning the entries of a list with distinct keys one by one is a
    union in which the list wins. *)
Lemma assign_all_union l : forall m,
  NoDup l.*1 ->
  fold_left (fun m kv => <[kv.1 := kv.2]> m) l m = list_to_map l ∪ m.
Proof.
  induction l as [|[k v] l IH]; intros m Hnd; simpl.
  - by rewrite (left_id_L ∅ (∪)).
  - apply NoDup_cons in Hnd as [Hk Hnd]. rewrite IH by done.
    rewrite <- insert_union_l.
    rewrite insert_union_r by (by apply not_elem_of_list_to_map_1). done.
Qed.

(** X6. [SetDefaultHeaders] leaves the default headers as the union of
    the given map and the former defaults in which the given map wins, in
    whatever order the map is visited: a key of the given map gets its
    value, any other key keeps what it had. With a one-entry map it does
    what [SetDefaultHeader] does, and with an empty map nothing. *)
Theorem SetDefaultHeaders_union headers c :
  (forall m, range_order m ≡ₚ map_to_list m) ->
  defaultHeaders (SetDefaultHeaders range_order headers c)
  = headers ∪ defaultHeaders c
  /\ (forall key v, headers !! key = Some v ->
        defaultHeaders (SetDefaultHeaders range_order headers c) !! key = Some v)
  /\ (forall key, headers !! key = None ->
        defaultHeaders (SetDefaultHeaders range_order headers c) !! key
        = defaultHeaders c !! key)
  /\ (forall key v,
        SetDefaultHeaders range_order {[key := v]} c = SetDefaultHeader key v c)
  /\ defaultHeaders (SetDefaultHeaders range_order ∅ c) = defaultHeaders c.
Proof.
  intros Hperm.
  assert (Hunion : forall m,
    defaultHeaders (SetDefaultHeaders range_order m c) = m ∪ defaultHeaders c).
  { intros m. simpl. rewrite assign_all_union.
    - f_equal. rewrite <- (list_to_map_to_list m) at 2.
      apply list_to_map_proper; [|done].
      rewrite (Hperm m). apply NoDup_fst_map_to_list.
    - rewrite (Hperm m). apply NoDup_fst_map_to_list. }
  split; [done|]. split; [|split; [|split]].
  - intros key v Hv. rewrite Hunion. by apply lookup_union_Some_l.
  - intros key Hv. rewrite Hunion. by apply lookup_union_r.
  - intros key v. unfold SetDefaultHeaders, SetDefaultHeader. f_equal.
    pose proof (Hperm {[key := v]}) as Hone.
    rewrite map_to_list_singleton in Hone.
    apply Permutation_singleton_r in Hone. by rewrite Hone.
  - rewrite Hunion. by rewrite (left_id_L ∅ (∪)).
Qed.

(** X7. A client as [NewClient] makes it invokes the transport at most
    four times in a call of [Do], whatever the remote side answers, and
    what it sleeps in between is one second, then two, then four: seven
    seconds at most. *)
Theorem NewClient_defaults base req t :
  (count is_send (Do' (NewClient base) req t).2 <= count is_send t + 4)%nat
  /\ exists k,
       (k <= 3)%nat
       /\ slept (Do' (NewClient base) req t).2
          = slept t ++ take k [1 * Second; 2 * Second; 4 * Second].
Proof.
  destruct (Do_attempts Background json_Marshal url_Parse transport range_order
              (NewClient base) req t) as [[Hneg _]|(k & Hk & ->)];
    [simpl in Hneg; lia|].
  simpl in Hk. rewrite count_app, count_send_attempts_trace. split.
  - unfold sends_per_attempt. destruct (build' _ _ _); lia.
  - exists k. split; [lia|]. rewrite slept_app, slept_attempts_trace. f_equal.
    assert (k = 0 \/ k = 1 \/ k = 2 \/ k = 3)%nat
      as [-> | [-> | [-> | ->]]] by lia; vm_compute; reflexivity.
Qed.

End ConfigFacts.

(** ** The verb helpers and the context variant *)

Section HelperFacts.

Context {Any Context : Type} (Background : Context).
Context (json_Marshal : Any -> bytes + Error).
Context (url_Parse : string -> option Error).
Context (transport : nat -> HttpClient -> HttpRequest Context -> RoundTrip).
Context (range_order : gmap string string -> list (string * string)).

Local Abbreviation Do' :=
  (Do Any Context Background json_Marshal url_Parse transport range_order).
Local Abbreviation Get' :=
  (Get Any Context Background json_Marshal url_Parse transport range_order).
Local Abbreviation Post' :=
  (Post Any Context Background json_Marshal url_Parse transport range_order).
Local Abbreviation Put' :=
  (Put Any Context Background json_Marshal url_Parse transport range_order).
Local Abbreviation Delete' :=
  (Delete Any Context Background json_Marshal url_Parse transport range_order).
Local Abbreviation WithContext' :=
  (WithContext Any Context json_Marshal url_Parse transport range_order).
Local Abbreviation build' :=
  (build Any Context json_Marshal url_Parse range_order).
Local Abbreviation bg := (Some Background).

Implicit Types (c : Client) (req : Request Any) (t : list (@Event Any Context)).

(** What a call of [Do] sends is what [build] gives. *)
Lemma Do_sent_by c req t :
  Forall (fun r => build' c bg req = inl r) (sent_by (Do' c req) t).
Proof.
  unfold sent_by.
  destruct (Do_attempts Background json_Marshal url_Parse transport range_order
              c req t) as [[_ ->]|(k & _ & ->)]; simpl.
  - rewrite drop_all. constructor.
  - rewrite sent_app, drop_app_length.
    destruct (build' c bg req) as [r|e] eqn:Hb.
    + rewrite (sent_attempts_trace _ _ _ _ _ _ _ _ r Hb).
      apply Forall_forall. by intros r' ->%elem_of_replicate_inv.
    + rewrite (sent_attempts_trace_unbuilt _ _ _ _ _ _ _ _ e Hb). constructor.
Qed.

Lemma Do_count_marshal c req t :
  ReqBody req = None ->
  count is_marshal (Do' c req t).2 = count is_marshal t.
Proof.
  intros Hbody.
  destruct (Do_attempts Background json_Marshal url_Parse transport range_order
              c req t) as [[_ ->]|(k & _ & ->)]; [done|].
  rewrite count_app, count_marshal_attempts_trace, Hbody. lia.
Qed.

(** The parts of a request that has been built. *)
Lemma build_parts c ctx req r :
  build' c ctx req = inl r ->
  hMethod r = effective_method (Method req)
  /\ hURL r = baseURL c +:+ URL req
  /\ marshal_body Any json_Marshal req = inl (hBody r)
  /\ hHeader r = outgoing_header Any range_order c req.
Proof.
  unfold build. destruct (marshal_body _ _ _) as [b|e]; [|done].
  destruct (new_request_error _ _ _ _ _); [done|].
  destruct ctx; [|done]. by intros [= <-].
Qed.

(** X8. [Get] and [Delete] send requests without a body: every request
    they hand to the transport has the helper's method, the base URL
    followed by the given URL, no body and, as headers, the default
    headers overlaid with the given ones and nothing else; the encoder is
    never called. [Post] and [Put] given a nil body do the same. *)
Theorem helpers_without_body c url headers t :
  let merged :=
    set_all (range_order headers) (set_all (range_order (defaultHeaders c)) ∅) in
  let shape method := fun r : HttpRequest Context =>
    hMethod r = method /\ hURL r = baseURL c +:+ url
    /\ hBody r = None /\ hHeader r = merged in
  (Forall (shape "GET") (sent_by (Get' c url headers) t)
   /\ count is_marshal (Get' c url headers t).2 = count is_marshal t)
  /\ (Forall (shape "DELETE") (sent_by (Delete' c url headers) t)
      /\ count is_marshal (Delete' c url headers t).2 = count is_marshal t)
  /\ (Forall (shape "POST") (sent_by (Post' c url None headers) t)
      /\ count is_marshal (Post' c url None headers t).2 = count is_marshal t)
  /\ (Forall (shape "PUT") (sent_by (Put' c url None headers) t)
      /\ count is_marshal (Put' c url None headers t).2 = count is_marshal t).
Proof.
  intros merged shape.
  assert (Hany : forall method,
    method <> "" ->
    let req := {| Method := method; URL := url; ReqHeaders := headers;
                  ReqBody := None; Query := ∅ |} in
    Forall (shape method) (sent_by (Do' c req) t)
    /\ count is_marshal (Do' c req t).2 = count is_marshal t).
  { intros method Hm req. split; [|by apply Do_count_marshal].
    eapply Forall_impl; [apply Do_sent_by|].
    intros r Hb. apply build_parts in Hb as (HM & HU & HB & HH).
    unfold shape. rewrite HM, HU, HH. simpl in *.
    unfold effective_method. apply String.eqb_neq in Hm. rewrite Hm.
    unfold marshal_body in HB. simpl in HB. by injection HB as <-. }
  repeat split; by apply Hany.
Qed.

(** X9. [Post] and [Put] given a body send it encoded: every request they
    hand to the transport has the helper's method, the base URL followed
    by the given URL, the bytes the encoder gives for the body and the
    content type [application/json]; when the encoder fails nothing is
    sent. *)
Theorem helpers_with_body c url v headers t :
  let shape method := fun r : HttpRequest Context =>
    hMethod r = method /\ hURL r = baseURL c +:+ url
    /\ (exists b, json_Marshal v = inl b /\ hBody r = Some b)
    /\ Header_Get "Content-Type" (hHeader r) = Some "application/json" in
  (Forall (shape "POST") (sent_by (Post' c url (Some v) headers) t)
   /\ Forall (shape "PUT") (sent_by (Put' c url (Some v) headers) t))
  /\ (forall e, json_Marshal v = inr e ->
        sent_by (Post' c url (Some v) headers) t = []
        /\ sent_by (Put' c url (Some v) headers) t = []).
Proof.
  intros shape.
  assert (Hany : forall method,
    method <> "" ->
    let req := {| Method := method; URL := url; ReqHeaders := headers;
                  ReqBody := Some v; Query := ∅ |} in
    Forall (shape method) (sent_by (Do' c req) t)
    /\ (forall e, json_Marshal v = inr e -> sent_by (Do' c req) t = [])).
  { intros method Hm req.
    pose proof (Do_sent_by c req t) as Hsent. split.
    - eapply Forall_impl; [exact Hsent|].
      intros r Hb. apply build_parts in Hb as (HM & HU & HB & HH).
      unfold shape. rewrite HM, HU, HH. simpl in *.
      unfold effective_method. apply String.eqb_neq in Hm. rewrite Hm.
      unfold marshal_body in HB. simpl in HB.
      destruct (json_Marshal v) as [b|e]; [|done]. injection HB as <-.
      repeat split; [by exists b|].
      unfold outgoing_header, Header_Get, Header_Set. simpl.
      rewrite canonical_content_type. by rewrite lookup_insert_eq.
    - intros e He.
      destruct (sent_by (Do' c req) t) as [|r rest]; [done|].
      apply Forall_cons in Hsent as [Hb _].
      unfold build, marshal_body in Hb. simpl in Hb. by rewrite He in Hb. }
  split; [split|]; try by apply Hany.
  intros e He. split; by eapply Hany.
Qed.

(** X10. [WithContext] given a nil context hands nothing to the
    transport and sleeps nothing: it returns the failure to encode the
    body if there is one, else the failure to create the request, whose
    cause is the invalid method or, for a valid method, the nil
    context. *)
Theorem WithContext_nil_context c req t :
  sent (WithContext' c None req t).2 = sent t
  /\ slept (WithContext' c None req t).2 = slept t
  /\ (WithContext' c None req t).1
     = (None,
        Some match marshal_body Any json_Marshal req with
             | inr cause => ErrMarshalBody cause
             | inl _ =>
                 ErrCreateRequest
                   (if validMethod (effective_method (Method req))
                    then ErrLib "net/http: nil Context"
                    else ErrInvalidMethod (effective_method (Method req)))
             end).
Proof.
  rewrite WithContext_unfold. simpl.
  rewrite sent_app, slept_app, slept_attempt_events, app_nil_r.
  unfold attempt_events, outcome, build, build_events, new_request_error,
    marshal_body.
  destruct (ReqBody req) as [v|]; [destruct (json_Marshal v) as [b|e]|];
    simpl; try destruct (validMethod _); simpl;
    by rewrite app_nil_r.
Qed.

End HelperFacts.

(** ** The power function *)

Section PowFacts.

Implicit Types (x y : spec_float).

Lemma pow_no_turn x y : F64.to_int y <= 0 -> pow x y = F64.one.
Proof.
  intros Hy. unfold pow.
  replace (Z.to_nat (F64.to_int y)) with 0%nat by lia. done.
Qed.

Lemma to_int_nonpositive y z :
  F64.trunc y = Some z -> z <= 0 -> F64.to_int y <= 0.
Proof.
  intros Ht Hz. unfold F64.to_int. rewrite Ht.
  destruct (in_int64 z); [done|]. unfold F64.indefinite, min_int64. lia.
Qed.

(** X11. For whole numbers [x >= 1] and [n >= 0] whose power [x ^ n]
    has at most 53 binary digits, [pow] applied to the floats of [x] and
    [n] gives the float of [x ^ n], exactly. *)
Theorem pow_integer_power (x n : Z) :
  1 <= x -> 0 <= n < 2 ^ 53 -> x ^ n < 2 ^ 53 ->
  pow (F64.of_int x) (F64.of_int n) = F64.of_int (x ^ n).
Proof.
  intros Hx Hn Hpow.
  destruct (decide (n = 0)) as [->|Hn0].
  - rewrite pow_no_turn by (rewrite to_int_of_int; lia). reflexivity.
  - assert (Hxn : x <= x ^ n).
    { rewrite <- (Z.pow_1_r x) at 1. apply Z.pow_le_mono_r; lia. }
    assert (H63 : (2 : Z) ^ 53 < 2 ^ 63) by (apply Z.pow_lt_mono_r; lia).
    rewrite (of_int_exact x) by lia.
    rewrite pow_exact; rewrite ?Z.mul_0_r, ?Z.shiftl_0_r; try lia.
    rewrite of_int_exact; [done|]. split; [|done]. apply Z.pow_nonneg. lia.
Qed.

(** X12. For an exponent below 1 (a negative one, minus infinity, zero
    or a fraction) the loop of [pow] takes no turn and the result is
    [1.0], whatever the base: no reciprocal and no root is computed. *)
Theorem pow_below_one x y :
  valid_binary F64.prec F64.emax y = true ->
  SFltb y F64.one = true ->
  pow x y = F64.one.
Proof.
  intros Hvalid Hlt. apply pow_no_turn.
  destruct y as [s|s| |s m e].
  - done.
  - destruct s; [|done]. unfold F64.to_int, F64.indefinite, min_int64. simpl. lia.
  - done.
  - destruct s.
    + eapply to_int_nonpositive; [reflexivity|]. simpl.
      destruct e as [|p|p]; simpl.
      * lia.
      * pose proof (Z.shiftl_nonneg (Zpos m) (Zpos p)). lia.
      * pose proof (Z.shiftr_nonneg (Zpos m) (- Zneg p)). lia.
    + eapply to_int_nonpositive; [reflexivity|]. simpl.
      unfold valid_binary, bounded, canonical_mantissa in Hvalid.
      apply andb_prop in Hvalid as [Hcanon _].
      apply Z.eqb_eq in Hcanon.
      pose proof (digits2_pos_bounds m) as [_ Hm].
      unfold fexp, emin, F64.prec, F64.emax in Hcanon.
      unfold SFltb, SFcompare, F64.one in Hlt.
      assert (Hsmall : e < 0 /\ Zpos m < 2 ^ (- e)).
      { destruct (Z.compare_spec e (-52)) as [->|He|He]; [| |done].
        - split; [lia|].
          assert (Hc : (m ?= 2 ^ 52)%positive = Lt).
          { unfold Pos.compare.
            by destruct (Pos.compare_cont Eq m (2 ^ 52)%positive). }
          apply Pos.compare_lt_iff, Pos2Z.pos_lt_pos in Hc.
          exact Hc.
        - split; [lia|].
          assert (Zpos (digits2_pos m) <= - e) by lia.
          eapply Z.lt_le_trans; [exact Hm|]. apply Z.pow_le_mono_r; lia. }
      destruct Hsmall as [He Hm'].
      destruct e as [|p|p]; [lia|lia|].
      rewrite Z.shiftr_div_pow2 by lia. rewrite Z.div_small; lia.
Qed.

(** X13. Only the integer part of the exponent counts: for an exponent
    [z * 2^t >= 0], [pow] gives what it gives for the whole number that
    the conversion to [int] makes of it, the fraction being dropped. *)
Theorem pow_drops_fraction x z t :
  0 <= z -> F64.digits z <= 53 -> Z.shiftl z t < 2 ^ 53 ->
  pow x (F64.dyadic z t) = pow x (F64.of_int (Z.shiftl z t))
  /\ F64.to_int (F64.dyadic z t) = Z.shiftl z t.
Proof.
  intros Hz Hd Hs.
  assert (H0 : 0 <= Z.shiftl z t) by (by apply Z.shiftl_nonneg).
  assert (Hto : F64.to_int (F64.dyadic z t) = Z.shiftl z t).
  { unfold F64.to_int. rewrite trunc_exact by done.
    unfold in_int64, min_int64, max_int64.
    assert (H63 : (2 : Z) ^ 53 < 2 ^ 63) by (apply Z.pow_lt_mono_r; lia).
    destruct (Z.leb_spec (- 2 ^ 63) (Z.shiftl z t)); [|lia].
    destruct (Z.leb_spec (Z.shiftl z t) (2 ^ 63 - 1)); [done|lia]. }
  split; [|done]. unfold pow. by rewrite Hto, to_int_of_int.
Qed.

End PowFacts.

(** ** Runs of the rate limiter *)

Section LimiterRuns.

Implicit Types (s : LimiterState) (ch : Chan) (a : Action) (nows : list Z).

Lemma run_app acts1 acts2 s :
  run (acts1 ++ acts2) s = run acts1 s ≫= run acts2.
Proof.
  revert s. induction acts1 as [|a acts1 IH]; intros s; simpl; [done|].
  destruct (step a s) as [s1|]; simpl; [apply IH|done].
Qed.

(** Callers that come one after the other and find enough tokens: each
    takes the oldest token and leaves a goroutine behind. *)
Lemma run_Waits nows : forall s,
  callers s = [] ->
  (length nows <= length (chan_buf (requests (limiter s))))%nat ->
  run (mjoin (Wait <$> nows)) s
  = Some {| limiter :=
              with_requests
                {| chan_cap := chan_cap (requests (limiter s));
                   chan_buf := drop (length nows)
                                 (chan_buf (requests (limiter s))) |}
                (limiter s);
            callers := [];
            refills := refills s ++ nows |}.
Proof.
  induction nows as [|now nows IH]; intros s Hcallers Hlen.
  - destruct s as [[[cap buf] rt] cs rf]. simpl in *. subst cs.
    by rewrite app_nil_r.
  - destruct s as [[[cap buf] rt] cs rf]. simpl in *. subst cs.
    destruct buf as [|v buf]; [simpl in Hlen; lia|].
    unfold chan_recv. simpl. rewrite IH; simpl; [|done|simpl in Hlen; lia].
    by rewrite <- app_assoc.
Qed.

(** Goroutines that wake up one after the other while no caller holds a
    token: each finds room, and the tokens queue up in that order. *)
Lemma run_refills burst : forall s,
  conserved burst s -> callers s = [] ->
  run (replicate (length (refills s)) (ActRefill 0)) s
  = Some {| limiter :=
              with_requests
                {| chan_cap := chan_cap (requests (limiter s));
                   chan_buf := chan_buf (requests (limiter s)) ++ refills s |}
                (limiter s);
            callers := [];
            refills := [] |}.
Proof.
  intros s. remember (refills s) as rf eqn:Hrf. revert s Hrf.
  induction rf as [|v rf IH]; intros s Hrf Hs Hcallers.
  - destruct s as [[[cap buf] rt] cs rf']. simpl in *. subst.
    by rewrite app_nil_r.
  - pose proof Hs as [Hcap Hsum].
    destruct s as [[[cap buf] rt] cs rf']. unfold tokens in *. simpl in *.
    subst cs rf'. simpl in *. unfold chan_send. simpl.
    destruct (Z.ltb_spec (Z.of_nat (length buf)) cap); [|lia]. simpl.
    unfold with_requests. simpl.
    rewrite (IH {| limiter := {| requests := {| chan_cap := cap;
                                                 chan_buf := buf ++ [v] |};
                                 rate := rt |};
                   callers := []; refills := rf |}); simpl; try done.
    + unfold with_requests. simpl. by rewrite <- app_assoc.
    + unfold conserved, tokens. simpl. rewrite length_app. simpl. lia.
Qed.

(** X14. A limiter made for a burst of [B] lets [B] callers of [Wait]
    through one after the other without any token coming back; each
    leaves a goroutine behind that holds its call time. With the pool
    empty the next caller blocks, and once the first goroutine has sent
    its token that caller gets through. *)
Theorem burst_then_blocks clock rate burst nows :
  Z.of_nat (length nows) <= burst ->
  exists s0 s,
    NewRateLimiter clock rate burst = Some s0
    /\ run (mjoin (Wait <$> nows)) s0 = Some s
    /\ tokens s = burst - Z.of_nat (length nows)
    /\ callers s = [] /\ refills s = nows
    /\ (Z.of_nat (length nows) = burst ->
        forall now,
          run (Wait now) s = None
          /\ (nows <> [] -> is_Some (run (ActRefill 0 :: Wait now) s))).
Proof.
  intros Hlen.
  destruct (NewRateLimiter_full clock rate burst) as (s0 & Hnew & Htok & Hinv);
    [lia|].
  assert (Hs0 : callers s0 = [] /\ refills s0 = []).
  { unfold NewRateLimiter in Hnew. destruct (burst <? 0); [done|].
    destruct (fill _ _ _ _); [|done]. by injection Hnew as <-. }
  destruct Hs0 as [Hc0 Hr0]. unfold tokens in Htok.
  eexists s0, _. split; [done|].
  split; [apply run_Waits; [done|lia]|]. unfold tokens. simpl.
  rewrite length_drop, Hr0. split; [lia|]. split; [done|]. split; [done|].
  intros Hall now. destruct Hinv as [Hcap _].
  assert (Hempty : drop (length nows) (chan_buf (requests (limiter s0))) = []).
  { apply drop_ge. lia. }
  unfold chan_recv. simpl. rewrite Hempty. split; [done|].
  intros Hne. destruct nows as [|v nows]; [done|]. simpl.
  unfold chan_send. simpl. rewrite Hcap.
  replace (Z.of_nat 0 <? burst) with true
    by (symmetry; apply Z.ltb_lt; simpl in Hlen; lia).
  simpl. eauto.
Qed.

(** X15. A limiter made for a burst of zero has no token and never gets
    one: whatever is tried first, it blocks, so no call of [Wait] ever
    returns. A negative burst does not even give a limiter: the
    construction panics. *)
Theorem zero_burst_deadlock clock rate :
  (exists s0,
     NewRateLimiter clock rate 0 = Some s0
     /\ tokens s0 = 0
     /\ forall a acts, run (a :: acts) s0 = None)
  /\ forall burst, burst < 0 -> NewRateLimiter clock rate burst = None.
Proof.
  split.
  - eexists. split; [reflexivity|]. split; [done|].
    intros a acts. by destruct a as [now|[|i] now|[|i]|[|i]].
  - intros burst Hb. unfold NewRateLimiter.
    by destruct (Z.ltb_spec burst 0); [|lia].
Qed.

(** X16. However the limiter got where it is, once no caller is left
    holding a token and every pending goroutine has sent, the pool is
    full again: it holds [B] tokens, in the order in which the goroutines
    sent them behind those that were left. *)
Theorem pool_refills clock rate burst s0 acts s :
  NewRateLimiter clock rate burst = Some s0 ->
  run acts s0 = Some s ->
  callers s = [] ->
  exists s',
    run (replicate (length (refills s)) (ActRefill 0)) s = Some s'
    /\ tokens s' = burst
    /\ chan_buf (requests (limiter s'))
       = chan_buf (requests (limiter s)) ++ refills s
    /\ callers s' = [] /\ refills s' = [].
Proof.
  intros Hnew Hrun Hcallers.
  assert (Hb : 0 <= burst).
  { unfold NewRateLimiter in Hnew.
    by destruct (Z.ltb_spec burst 0). }
  destruct (NewRateLimiter_full clock rate burst Hb) as (s0' & Hnew' & _ & Hinv).
  rewrite Hnew in Hnew'. injection Hnew' as <-.
  pose proof (run_conserved burst acts s0 s Hinv Hrun) as Hs.
  eexists. split; [by apply (run_refills burst)|].
  destruct Hs as [_ Hsum]. unfold tokens in *. simpl.
  rewrite length_app, Hcallers in *. simpl in *. repeat split. lia.
Qed.

End LimiterRuns.

(** ** UUIDs *)

Section UuidFacts.

Implicit Types (u v : UUID) (b n : Z) (c d : ascii) (cs : list ascii) (s : string).

#[local] Arguments hex_digit : simpl never.
#[local] Arguments hex_value : simpl never.
#[local] Arguments hex_pair : simpl never.
#[local] Arguments is_hex : simpl never.
#[local] Arguments is_variant : simpl never.

(** A property checked on every number of a range holds for each. *)
Lemma range_forallb (P : Z -> bool) lo len n :
  forallb P (seqZ lo len) = true -> lo <= n < lo + len -> P n = true.
Proof.
  intros Hall Hn. rewrite forallb_forall in Hall. apply Hall.
  apply list_elem_of_In, elem_of_seqZ. lia.
Qed.

Lemma nibbles b :
  0 <= b < 256 ->
  0 <= b / 16 < 16 /\ 0 <= b mod 16 < 16 /\ 16 * (b / 16) + b mod 16 = b.
Proof. intros Hb. Z.to_euclidean_division_equations. lia. Qed.

Lemma hex_digit_is_hex n : 0 <= n < 16 -> is_hex (hex_digit n) = true.
Proof. intros Hn. by apply (range_forallb (fun n => is_hex (hex_digit n)) 0 16). Qed.

Lemma hex_value_digit n : 0 <= n < 16 -> hex_value (hex_digit n) = n.
Proof.
  intros Hn. apply Z.eqb_eq.
  by apply (range_forallb (fun n => hex_value (hex_digit n) =? n) 0 16).
Qed.

Lemma is_hex_digit c :
  is_hex c = true -> 0 <= hex_value c < 16 /\ hex_digit (hex_value c) = c.
Proof.
  destruct c as [[] [] [] [] [] [] [] []]; intros Hc;
    try discriminate Hc; by vm_compute.
Qed.

Lemma is_hex_not_hyphen c : is_hex c = true -> Ascii.eqb c "-" = false.
Proof.
  destruct c as [[] [] [] [] [] [] [] []]; intros Hc; try discriminate Hc; done.
Qed.

Lemma is_variant_is_hex c : is_variant c = true -> is_hex c = true.
Proof.
  destruct c as [[] [] [] [] [] [] [] []]; intros Hc; try discriminate Hc; done.
Qed.

Ltac explode l H :=
  repeat (destruct l as [|? l]; [discriminate H|]);
  destruct l; [clear H|discriminate H].

Lemma String_layout u :
  length u = 16%nat -> UUID_String u = layout (hex_chars u).
Proof. intros Hlen. explode u Hlen. reflexivity. Qed.

Lemma is_hex_4 : is_hex "4" = true.
Proof. reflexivity. Qed.

Lemma unlayout_layout cs : length cs = 32%nat -> unlayout (layout cs) = cs.
Proof. intros Hlen. explode cs Hlen. reflexivity. Qed.

Ltac rewrite_tests :=
  repeat (progress (simpl;
    repeat match goal with H : _ = true |- _ => rewrite H end)).

Lemma forallb_cons_true {A} (p : A -> bool) x l :
  forallb p (x :: l) = true -> p x = true /\ forallb p l = true.
Proof. simpl. apply andb_prop. Qed.

(** A text of that layout matches when its characters are hexadecimal
    digits, the thirteenth is a 4 and the seventeenth one of 8, 9, a, b. *)
Lemma matches_layout cs :
  length cs = 32%nat ->
  forallb is_hex cs = true ->
  nth 12 cs "0"%char = "4"%char ->
  is_variant (nth 16 cs "0"%char) = true ->
  matches v4_pattern (layout cs) = true.
Proof.
  intros Hlen Hhex H4 Hv. explode cs Hlen. simpl in H4, Hv. subst.
  repeat (apply forallb_cons_true in Hhex as [? Hhex]). clear Hhex.
  cbv -[is_hex is_variant Ascii.eqb]. rewrite_tests. reflexivity.
Qed.

Lemma repeat_class_inv cl (k : nat) : forall s rest,
  repeat_class cl k s = Some rest ->
  exists cs, length cs = k /\ forallb (in_class cl) cs = true
    /\ s = String.string_of_list_ascii cs +:+ rest.
Proof.
  induction k as [|k IH]; intros s rest H; simpl in H.
  - injection H as ->. by exists [].
  - destruct s as [|c s]; [done|].
    destruct (in_class cl c) eqn:Hc; [|done].
    apply IH in H as (cs & Hlen & Hall & ->).
    exists (c :: cs). simpl. rewrite Hc, Hlen. done.
Qed.

(** Conversely, a text that matches has that layout. *)
Lemma matches_inv s :
  matches v4_pattern s = true ->
  exists cs,
    s = layout cs /\ length cs = 32%nat /\ forallb is_hex cs = true
    /\ nth 12 cs "0"%char = "4"%char
    /\ is_variant (nth 16 cs "0"%char) = true.
Proof.
  unfold v4_pattern. intros H. cbn [matches] in H.
  repeat match type of H with
  | context [repeat_class ?cl ?n ?s] =>
      is_var s;
      let cs := fresh "cs" in
      let Hlen := fresh "Hlen" in
      let Hall := fresh "Hall" in
      let rest := fresh "rest" in
      let Hr := fresh "Hr" in
      destruct (repeat_class cl n s) as [rest|] eqn:Hr; [|discriminate H];
      apply repeat_class_inv in Hr as (cs & Hlen & Hall & ->);
      explode cs Hlen
  end.
  apply String.eqb_eq in H. subst.
  repeat match goal with
  | H : forallb (in_class (Lit _)) [_] = true |- _ =>
      simpl in H; rewrite andb_true_r in H; apply Ascii.eqb_eq in H; subst
  | H : forallb (in_class Variant) [_] = true |- _ =>
      simpl in H; rewrite andb_true_r in H;
      pose proof (is_variant_is_hex _ H)
  | H : forallb (in_class Hex) (_ :: _) = true |- _ =>
      apply forallb_cons_true in H as [? H]
  | H : forallb (in_class Hex) [] = true |- _ => clear H
  end.
  match goal with |- exists cs, ?s = _ /\ _ => exists (unlayout s) end.
  split; [reflexivity|]. split; [reflexivity|]. split; [|by split].
  cbv -[is_hex]. simpl in *. rewrite_tests. reflexivity.
Qed.

Lemma length_append s1 s2 :
  String.length (s1 +:+ s2) = (String.length s1 + String.length s2)%nat.
Proof. induction s1 as [|c s1 IH]; simpl; [done|]. by rewrite IH. Qed.

Lemma length_layout cs : length cs = 32%nat -> String.length (layout cs) = 36%nat.
Proof. intros Hlen. explode cs Hlen. reflexivity. Qed.

Lemma remove_all_append c s1 s2 :
  remove_all c (s1 +:+ s2) = remove_all c s1 +:+ remove_all c s2.
Proof.
  induction s1 as [|c' s1 IH]; simpl; [done|].
  destruct (Ascii.eqb c' c); simpl; by rewrite IH.
Qed.

Lemma remove_all_hex cs :
  forallb is_hex cs = true ->
  remove_all "-" (String.string_of_list_ascii cs) = String.string_of_list_ascii cs.
Proof.
  induction cs as [|c cs IH]; [done|].
  intros [Hc Hcs]%forallb_cons_true. simpl.
  by rewrite (is_hex_not_hyphen c Hc), IH.
Qed.

Lemma string_of_list_ascii_app cs1 cs2 :
  String.string_of_list_ascii (cs1 ++ cs2)
  = String.string_of_list_ascii cs1 +:+ String.string_of_list_ascii cs2.
Proof. induction cs1 as [|c cs1 IH]; simpl; [done|]. by rewrite IH. Qed.

Lemma remove_all_layout cs :
  length cs = 32%nat -> forallb is_hex cs = true ->
  remove_all "-" (layout cs) = String.string_of_list_ascii cs.
Proof.
  intros Hlen Hhex. explode cs Hlen.
  repeat (apply forallb_cons_true in Hhex as [? Hhex]). clear Hhex.
  unfold layout. cbn [take drop]. rewrite !remove_all_append.
  rewrite !remove_all_hex
    by (cbn [forallb];
        repeat match goal with H : is_hex _ = true |- _ => rewrite H; clear H end;
        reflexivity).
  reflexivity.
Qed.

(** *** Bytes and their digits *)

Lemma hex_pair_byte c d :
  is_hex c = true -> is_hex d = true ->
  0 <= hex_pair c d < 256 /\ hex_byte (hex_pair c d) = [c; d].
Proof.
  intros [Hc Hc']%is_hex_digit [Hd Hd']%is_hex_digit. unfold hex_pair, hex_byte.
  split; [lia|].
  replace ((16 * hex_value c + hex_value d) / 16) with (hex_value c)
    by (Z.to_euclidean_division_equations; lia).
  replace ((16 * hex_value c + hex_value d) mod 16) with (hex_value d)
    by (Z.to_euclidean_division_equations; lia).
  by rewrite Hc', Hd'.
Qed.

Lemma hex_byte_pair b :
  0 <= b < 256 -> hex_pair (hex_digit (b / 16)) (hex_digit (b mod 16)) = b.
Proof.
  intros (Hhi & Hlo & Hb)%nibbles. unfold hex_pair.
  by rewrite !hex_value_digit.
Qed.

Lemma hex_chars_cons b bs : hex_chars (b :: bs) = hex_byte b ++ hex_chars bs.
Proof. reflexivity. Qed.

Lemma bytes_of_hex_chars u :
  Forall (fun b => 0 <= b < 256) u -> bytes_of (hex_chars u) = u.
Proof.
  induction 1 as [|b u Hb _ IH]; [done|].
  rewrite hex_chars_cons. simpl. by rewrite hex_byte_pair, IH.
Qed.

Lemma forallb_hex_chars u :
  Forall (fun b => 0 <= b < 256) u -> forallb is_hex (hex_chars u) = true.
Proof.
  induction 1 as [|b u Hb _ IH]; [done|].
  rewrite hex_chars_cons. simpl.
  apply nibbles in Hb as (Hhi & Hlo & _).
  by rewrite !hex_digit_is_hex, IH.
Qed.

Lemma length_hex_chars u : length (hex_chars u) = (2 * length u)%nat.
Proof.
  induction u as [|b u IH]; [done|].
  rewrite hex_chars_cons. simpl. rewrite IH. lia.
Qed.

Lemma hex_chars_bytes_of (k : nat) : forall cs,
  length cs = (2 * k)%nat -> forallb is_hex cs = true ->
  hex_chars (bytes_of cs) = cs
  /\ length (bytes_of cs) = k
  /\ Forall (fun b => 0 <= b < 256) (bytes_of cs).
Proof.
  induction k as [|k IH]; intros cs Hlen Hhex.
  - by destruct cs.
  - destruct cs as [|c [|d cs]]; [done|simpl in Hlen; lia|].
    apply forallb_cons_true in Hhex as [Hc Hhex].
    apply forallb_cons_true in Hhex as [Hd Hhex].
    destruct (IH cs) as (Hchars & Hl & Hall); [simpl in Hlen; lia|done|].
    destruct (hex_pair_byte c d Hc Hd) as [Hrange Hbyte].
    cbn [bytes_of]. rewrite hex_chars_cons, Hbyte, Hchars. simpl. rewrite Hl.
    split; [done|]. split; [done|]. by constructor.
Qed.

Section ParseFacts.

Context (Sscanf_02x : string -> option Z).
Hypothesis Hscan : scans_hex Sscanf_02x.

Lemma scan_bytes_chars cs :
  length cs = 32%nat -> forallb is_hex cs = true ->
  scan_bytes Sscanf_02x 16 0 (String.string_of_list_ascii cs) zero_UUID
  = (bytes_of cs, None).
Proof.
  intros Hlen Hhex. explode cs Hlen.
  repeat (apply forallb_cons_true in Hhex as [? Hhex]). clear Hhex.
  cbv -[hex_pair].
  repeat (rewrite Hscan by assumption; cbv -[hex_pair]).
  reflexivity.
Qed.

Lemma Parse_layout cs :
  length cs = 32%nat -> forallb is_hex cs = true ->
  nth 12 cs "0"%char = "4"%char ->
  is_variant (nth 16 cs "0"%char) = true ->
  Parse Sscanf_02x (layout cs) = (bytes_of cs, None).
Proof.
  intros Hlen Hhex H4 Hv. unfold Parse.
  rewrite matches_layout, remove_all_layout by done. simpl negb.
  cbv iota.
  replace (String.length (String.string_of_list_ascii cs) =? 32)%nat with true.
  - simpl. by apply scan_bytes_chars.
  - symmetry. apply Nat.eqb_eq. rewrite <- Hlen. clear.
    induction cs as [|c cs IH]; simpl; [done|]. by rewrite IH.
Qed.

End ParseFacts.

(** *** Version and variant *)

Lemma version_byte b :
  0 <= b < 256 ->
  let b' := Z.lor (Z.land b 0x0f) 0x40 in
  0 <= b' < 256 /\ b' / 16 = 4 /\ b' mod 16 = b mod 16.
Proof.
  intros Hb b'. subst b'.
  pose proof (range_forallb
    (fun b => let b' := Z.lor (Z.land b 0x0f) 0x40 in
       (0 <=? b') && (b' <? 256) && (b' / 16 =? 4) && (b' mod 16 =? b mod 16))
    0 256 b eq_refl Hb) as H.
  cbv zeta in H. repeat (apply andb_prop in H as [H ?]). lia.
Qed.

Lemma variant_byte b :
  0 <= b < 256 ->
  let b' := Z.lor (Z.land b 0x3f) 0x80 in
  0 <= b' < 256 /\ b' / 64 = 2 /\ b' mod 64 = b mod 64.
Proof.
  intros Hb b'. subst b'.
  pose proof (range_forallb
    (fun b => let b' := Z.lor (Z.land b 0x3f) 0x80 in
       (0 <=? b') && (b' <? 256) && (b' / 64 =? 2) && (b' mod 64 =? b mod 64))
    0 256 b eq_refl Hb) as H.
  cbv zeta in H. repeat (apply andb_prop in H as [H ?]). lia.
Qed.

Lemma byte_at_range u i :
  Forall (fun b => 0 <= b < 256) u -> 0 <= byte_at i u < 256.
Proof.
  intros Hall. unfold byte_at. destruct (u !! i) as [b|] eqn:Hi; simpl; [|lia].
  by eapply (Forall_lookup_1 _ _ _ _ Hall).
Qed.

Lemma byte_at_insert u i j b :
  (i < length u)%nat ->
  byte_at j (<[i := b]> u) = if decide (i = j) then b else byte_at j u.
Proof.
  intros Hi. unfold byte_at. destruct (decide (i = j)) as [->|Hne].
  - by rewrite list_lookup_insert_eq.
  - by rewrite list_lookup_insert_ne.
Qed.

(** What [NewV4] returns for 16 random bytes. *)
Lemma NewV4_bytes drawn :
  well_formed drawn ->
  exists u,
    NewV4 (drawn, None) = (u, None) /\ well_formed u
    /\ (byte_at 6 u / 16 = 4 /\ byte_at 6 u mod 16 = byte_at 6 drawn mod 16)
    /\ (byte_at 8 u / 64 = 2 /\ byte_at 8 u mod 64 = byte_at 8 drawn mod 64)
    /\ forall i, i <> 6%nat -> i <> 8%nat -> byte_at i u = byte_at i drawn.
Proof.
  intros [Hlen Hall].
  destruct (version_byte (byte_at 6 drawn)) as (H6 & Hv & Hlow);
    [by apply byte_at_range|].
  destruct (variant_byte (byte_at 8 drawn)) as (H8 & Hv' & Hlow');
    [by apply byte_at_range|].
  exists (<[8%nat := Z.lor (Z.land (byte_at 8 drawn) 0x3f) 0x80]>
            (<[6%nat := Z.lor (Z.land (byte_at 6 drawn) 0x0f) 0x40]> drawn)).
  split; [|split; [|split; [|split]]].
  - unfold NewV4. by rewrite byte_at_insert by lia.
  - split; [by rewrite !length_insert|].
    apply Forall_insert; [|done]. by apply Forall_insert.
  - rewrite !byte_at_insert by (rewrite ?length_insert; lia). simpl. done.
  - rewrite !byte_at_insert by (rewrite ?length_insert; lia). simpl. done.
  - intros i Hi6 Hi8.
    rewrite !byte_at_insert by (rewrite ?length_insert; lia).
    by repeat case_decide.
Qed.

(** *** The text of a UUID *)

Lemma hex_digit_4 n :
  0 <= n < 16 -> Ascii.eqb (hex_digit n) "4" = (n =? 4).
Proof.
  intros Hn. apply Bool.eqb_prop.
  by apply (range_forallb
    (fun n => Bool.eqb (Ascii.eqb (hex_digit n) "4") (n =? 4)) 0 16).
Qed.

Lemma hex_digit_variant n :
  0 <= n < 16 -> is_variant (hex_digit n) = (8 <=? n) && (n <=? 11).
Proof.
  intros Hn. apply Bool.eqb_prop.
  by apply (range_forallb
    (fun n => Bool.eqb (is_variant (hex_digit n)) ((8 <=? n) && (n <=? 11)))
    0 16).
Qed.

Lemma nth_hex_chars u :
  length u = 16%nat ->
  nth 12 (hex_chars u) "0"%char = hex_digit (byte_at 6 u / 16)
  /\ nth 16 (hex_chars u) "0"%char = hex_digit (byte_at 8 u / 16).
Proof. intros Hlen. explode u Hlen. by split. Qed.

(** The text of a UUID is of the valid format exactly when the UUID has
    version 4 and the variant bits 10. *)
Lemma IsValid_String u :
  well_formed u ->
  IsValid (UUID_String u)
  = (byte_at 6 u / 16 =? 4) && (byte_at 8 u / 64 =? 2).
Proof.
  intros [Hlen Hall]. unfold IsValid. rewrite String_layout by done.
  pose proof (length_hex_chars u) as Hlen'. rewrite Hlen in Hlen'.
  pose proof (forallb_hex_chars u Hall) as Hhex.
  destruct (nth_hex_chars u Hlen) as [H12 H16].
  destruct (nibbles (byte_at 6 u)) as (Hn6 & _ & _); [by apply byte_at_range|].
  destruct (nibbles (byte_at 8 u)) as (Hn8 & _ & _); [by apply byte_at_range|].
  assert (Hvar : (byte_at 8 u / 64 =? 2)
                 = (8 <=? byte_at 8 u / 16) && (byte_at 8 u / 16 <=? 11)).
  { pose proof (byte_at_range u 8 Hall).
    apply eq_true_iff_eq. rewrite andb_true_iff, Z.eqb_eq, !Z.leb_le.
    Z.to_euclidean_division_equations. lia. }
  rewrite Hvar, <- hex_digit_4, <- hex_digit_variant, <- H12, <- H16 by done.
  destruct (matches v4_pattern (layout (hex_chars u))) eqn:Hm.
  - apply matches_inv in Hm as (cs & Hl & Hlen'' & _ & H4 & Hv).
    apply (f_equal unlayout) in Hl.
    rewrite !unlayout_layout in Hl by done. subst cs.
    rewrite H4, Hv. reflexivity.
  - destruct (Ascii.eqb_spec (nth 12 (hex_chars u) "0"%char) "4") as [H4|]; [|done].
    destruct (is_variant (nth 16 (hex_chars u) "0"%char)) eqn:Hv; [|done].
    by rewrite matches_layout in Hm.
Qed.

Lemma matches_length s : matches v4_pattern s = true -> String.length s = 36%nat.
Proof.
  intros (cs & -> & Hlen & _)%matches_inv. by apply length_layout.
Qed.

Lemma remove_all_String u :
  well_formed u -> remove_all "-" (UUID_String u) = hex u.
Proof.
  intros [Hlen Hall]. rewrite String_layout by done.
  apply remove_all_layout; [|by apply forallb_hex_chars].
  rewrite length_hex_chars, Hlen. done.
Qed.

Section RoundTrips.

Context (Sscanf_02x : string -> option Z).

(** A UUID whose text is valid is read back from it. *)
Lemma Parse_String u :
  scans_hex Sscanf_02x -> well_formed u ->
  IsValid (UUID_String u) = true ->
  Parse Sscanf_02x (UUID_String u) = (u, None).
Proof.
  intros Hscan [Hlen Hall] Hvalid. unfold IsValid in Hvalid.
  rewrite String_layout in * by done.
  assert (Hlen' : length (hex_chars u) = 32%nat)
    by (by rewrite length_hex_chars, Hlen).
  apply matches_inv in Hvalid as (cs & Hl & Hlen'' & Hhex & H4 & Hv).
  apply (f_equal unlayout) in Hl. rewrite !unlayout_layout in Hl by done.
  subst cs. rewrite (Parse_layout _ Hscan) by done.
  by rewrite bytes_of_hex_chars.
Qed.

(** X17. [NewV4] keeps the 16 random bytes except for six bits: the
    upper half of the seventh byte becomes 4, the version, and the two
    upper bits of the ninth byte become 10, the variant; the lower bits of
    these two bytes and all other bytes are as drawn. When the random
    source fails, the zero UUID is returned with its error. *)
Theorem NewV4_version_and_variant drawn :
  well_formed drawn ->
  (exists u,
     NewV4 (drawn, None) = (u, None) /\ MustNewV4 (drawn, None) = Some u
     /\ well_formed u
     /\ (byte_at 6 u / 16 = 4 /\ byte_at 6 u mod 16 = byte_at 6 drawn mod 16)
     /\ (byte_at 8 u / 64 = 2 /\ byte_at 8 u mod 64 = byte_at 8 drawn mod 64)
     /\ forall i, i <> 6%nat -> i <> 8%nat -> byte_at i u = byte_at i drawn)
  /\ forall err, NewV4 (drawn, Some err) = (zero_UUID, Some err)
       /\ MustNewV4 (drawn, Some err) = None.
Proof.
  intros Hwf. split; [|done].
  destruct (NewV4_bytes drawn Hwf) as (u & Hnew & Hrest).
  exists u. split; [done|]. split; [|done].
  unfold MustNewV4. by rewrite Hnew.
Qed.

(** X18. The text that [NewUUIDString] makes from 16 random bytes is
    always of the valid format, 36 characters long, and [Parse] reads the
    generated UUID back from it. *)
Theorem NewUUIDString_valid drawn :
  scans_hex Sscanf_02x -> well_formed drawn ->
  exists u text,
    NewV4 (drawn, None) = (u, None)
    /\ NewUUIDString (drawn, None) = (text, None)
    /\ MustNewUUIDString (drawn, None) = Some text
    /\ text = UUID_String u
    /\ String.length text = 36%nat
    /\ IsValid text = true
    /\ Parse Sscanf_02x text = (u, None).
Proof.
  intros Hscan Hwf.
  destruct (NewV4_bytes drawn Hwf) as (u & Hnew & Hu & [H6 _] & [H8 _] & _).
  exists u, (UUID_String u).
  assert (Hvalid : IsValid (UUID_String u) = true).
  { rewrite IsValid_String by done. rewrite H6, H8. done. }
  unfold MustNewUUIDString, NewUUIDString. rewrite Hnew.
  repeat split; try done.
  - by apply matches_length.
  - by apply Parse_String.
Qed.

(** X19. Writing a UUID and reading the text back gives the UUID exactly
    when it has version 4 and the variant bits 10. The text of any other
    UUID, the zero UUID among them, is refused as "invalid UUID
    format". *)
Theorem Parse_String_roundtrip u :
  scans_hex Sscanf_02x -> well_formed u ->
  (byte_at 6 u / 16 = 4 /\ byte_at 8 u / 64 = 2 ->
     IsValid (UUID_String u) = true
     /\ Parse Sscanf_02x (UUID_String u) = (u, None))
  /\ (~ (byte_at 6 u / 16 = 4 /\ byte_at 8 u / 64 = 2) ->
        IsValid (UUID_String u) = false
        /\ Parse Sscanf_02x (UUID_String u) = (zero_UUID, Some ErrFormat)).
Proof.
  intros Hscan Hwf. pose proof (IsValid_String u Hwf) as Hvalid. split.
  - intros [H6 H8]. rewrite H6, H8 in Hvalid. split; [done|].
    by apply Parse_String.
  - intros Hnot.
    assert (Hfalse : IsValid (UUID_String u) = false).
    { rewrite Hvalid. apply not_true_is_false. intros Hboth.
      apply andb_prop in Hboth as [H6 H8]. apply Hnot. lia. }
    split; [done|]. unfold Parse. unfold IsValid in Hfalse. by rewrite Hfalse.
Qed.

(** X20. [Parse] succeeds exactly on the texts that [IsValid] accepts.
    For such a text it returns a UUID of version 4 and variant 10 whose
    own text is the one that was parsed; any other text is refused as
    "invalid UUID format", so that the checks of the length and of the
    hexadecimal digits that follow never fail. *)
Theorem Parse_valid_iff s :
  scans_hex Sscanf_02x ->
  (IsValid s = true ->
     exists u,
       Parse Sscanf_02x s = (u, None) /\ well_formed u /\ UUID_String u = s
       /\ byte_at 6 u / 16 = 4 /\ byte_at 8 u / 64 = 2)
  /\ (IsValid s = false -> Parse Sscanf_02x s = (zero_UUID, Some ErrFormat)).
Proof.
  intros Hscan. split.
  - intros Hvalid. pose proof Hvalid as Hvalid'.
    apply matches_inv in Hvalid as (cs & -> & Hlen & Hhex & H4 & Hv).
    destruct (hex_chars_bytes_of 16 cs Hlen Hhex) as (Hchars & Hl & Hall).
    assert (Htext : UUID_String (bytes_of cs) = layout cs).
    { rewrite String_layout by done. by rewrite Hchars. }
    exists (bytes_of cs). split; [by apply Parse_layout|].
    split; [done|]. split; [done|].
    rewrite <- Htext, IsValid_String in Hvalid' by done.
    apply andb_prop in Hvalid' as [H6 H8]. lia.
  - intros Hvalid. unfold Parse. unfold IsValid in Hvalid. by rewrite Hvalid.
Qed.

(** X21. The identifier that [NewWithNamespace] makes is the text of a
    fresh UUID, a hyphen and the namespace: it is longer than 36
    characters, so that, whatever the namespace, [IsValid] rejects it and
    [Parse] refuses it. *)
Theorem NewWithNamespace_never_valid drawn namespace :
  well_formed drawn ->
  exists u id,
    NewV4 (drawn, None) = (u, None)
    /\ NewWithNamespace (drawn, None) namespace = (id, None)
    /\ id = UUID_String u +:+ "-" +:+ namespace
    /\ String.length id = (37 + String.length namespace)%nat
    /\ IsValid id = false
    /\ Parse Sscanf_02x id = (zero_UUID, Some ErrFormat).
Proof.
  intros Hwf.
  destruct (NewV4_bytes drawn Hwf) as (u & Hnew & [Hlen Hall] & _).
  exists u, (UUID_String u +:+ "-" +:+ namespace).
  unfold NewWithNamespace. rewrite Hnew.
  assert (Hlong : String.length (UUID_String u +:+ "-" +:+ namespace)
                  = (37 + String.length namespace)%nat).
  { rewrite !length_append, String_layout, length_layout; [done| |done].
    by rewrite length_hex_chars, Hlen. }
  assert (Hfalse : IsValid (UUID_String u +:+ "-" +:+ namespace) = false).
  { apply not_true_is_false. intros Hm%matches_length. lia. }
  repeat split; try done.
  unfold Parse. unfold IsValid in Hfalse. by rewrite Hfalse.
Qed.

End RoundTrips.

(** X22. The text of a UUID has 36 characters, hyphens at the positions
    8, 13, 18 and 23 and nowhere else: without them it is the 32
    hexadecimal digits of the 16 bytes. Different UUIDs have different
    texts. *)
Theorem UUID_String_shape u :
  well_formed u ->
  String.length (UUID_String u) = 36%nat
  /\ (String.get 8 (UUID_String u) = Some "-"%char
      /\ String.get 13 (UUID_String u) = Some "-"%char
      /\ String.get 18 (UUID_String u) = Some "-"%char
      /\ String.get 23 (UUID_String u) = Some "-"%char)
  /\ remove_all "-" (UUID_String u) = hex u
  /\ String.length (hex u) = 32%nat
  /\ forall v, well_formed v -> UUID_String u = UUID_String v -> u = v.
Proof.
  intros Hwf. pose proof Hwf as [Hlen Hall].
  assert (Hlen' : length (hex_chars u) = 32%nat)
    by (by rewrite length_hex_chars, Hlen).
  split; [rewrite String_layout by done; by apply length_layout|].
  split; [clear Hwf Hall Hlen'; explode u Hlen; by repeat split|].
  split; [by apply remove_all_String|]. split.
  - unfold hex. clear Hwf Hall Hlen'. explode u Hlen. reflexivity.
  - intros v Hv Heq. pose proof Hv as [Hlenv Hallv].
    apply (f_equal (remove_all "-")) in Heq.
    rewrite !remove_all_String in Heq by done. unfold hex in Heq.
    apply (f_equal String.list_ascii_of_string) in Heq.
    rewrite !String.list_ascii_of_string_of_list_ascii in Heq.
    apply (f_equal bytes_of) in Heq.
    by rewrite !bytes_of_hex_chars in Heq.
Qed.

End UuidFacts.

(** ** The timeout *)

Section TimeoutFacts.

Context {Any Context : Type} (Background : Context).
Context (json_Marshal : Any -> bytes + Error).
Context (url_Parse : string -> option Error).
Context (transport : nat -> HttpClient -> HttpRequest Context -> RoundTrip).
Context (range_order : gmap string string -> list (string * string)).

Local Abbreviation Do' :=
  (Do Any Context Background json_Marshal url_Parse transport range_order).
Local Abbreviation WithContext' :=
  (WithContext Any Context json_Marshal url_Parse transport range_order).
Local Abbreviation attempt_events' :=
  (attempt_events Any Context json_Marshal url_Parse range_order).
Local Abbreviation per_attempt :=
  (sends_per_attempt Any Context json_Marshal url_Parse range_order).
Local Abbreviation attempts_trace' :=
  (attempts_trace Any Context Background json_Marshal url_Parse range_order).
Local Abbreviation bg := (Some Background).

Implicit Types (c : Client) (req : Request Any) (t : list (@Event Any Context)).

Lemma invoked_on_app t1 t2 : invoked_on (t1 ++ t2) = invoked_on t1 ++ invoked_on t2.
Proof. apply omap_app. Qed.

Lemma invoked_on_attempt_events c ctx req :
  invoked_on (attempt_events' c ctx req)
  = replicate (per_attempt c ctx req) (httpClient c).
Proof.
  unfold attempt_events, build_events, sends_per_attempt.
  rewrite invoked_on_app.
  destruct (ReqBody req) as [v|]; [destruct (json_Marshal v)|];
    by destruct (build _ _ _ _ _ _ _ _).
Qed.

Lemma invoked_on_attempts_trace c req k attempt :
  invoked_on (attempts_trace' c req k attempt)
  = replicate (S k * per_attempt c bg req) (httpClient c).
Proof.
  revert attempt. induction k as [|k IH]; intros attempt; simpl attempts_trace.
  - rewrite invoked_on_attempt_events. f_equal. lia.
  - rewrite invoked_on_app, invoked_on_attempt_events. simpl.
    rewrite IH, <- replicate_add. f_equal.
Qed.

(** X23. After [SetTimeout] every invocation of the transport, by [Do]
    on any attempt and by [WithContext] on its copy of the client, is
    made on an HTTP client with that timeout; the rest of the
    configuration is as before. *)
Theorem SetTimeout_applies timeout c ctx req t :
  (exists m,
     invoked_on (Do' (SetTimeout timeout c) req t).2
     = invoked_on t ++ replicate m {| Timeout := timeout |})
  /\ (exists m,
        invoked_on (WithContext' (SetTimeout timeout c) ctx req t).2
        = invoked_on t ++ replicate m {| Timeout := timeout |})
  /\ retryConfig (SetTimeout timeout c) = retryConfig c
  /\ defaultHeaders (SetTimeout timeout c) = defaultHeaders c
  /\ baseURL (SetTimeout timeout c) = baseURL c.
Proof.
  split; [|split; [|done]].
  - destruct (Do_attempts Background json_Marshal url_Parse transport range_order
                (SetTimeout timeout c) req t) as [[_ ->]|(k & _ & ->)].
    + exists 0%nat. simpl. by rewrite app_nil_r.
    + eexists. by rewrite invoked_on_app, invoked_on_attempts_trace.
  - rewrite WithContext_unfold. simpl.
    eexists. by rewrite invoked_on_app, invoked_on_attempt_events.
Qed.

End TimeoutFacts.

(** ** What a request does not carry *)

Section RequestFacts.

Context {Any Context : Type} (Background : Context).
Context (json_Marshal : Any -> bytes + Error).
Context (json_Unmarshal : bytes -> Any -> Any * option Error).
Context (url_Parse : string -> option Error).
Context (transport : nat -> HttpClient -> HttpRequest Context -> RoundTrip).
Context (range_order : gmap string string -> list (string * string)).

Local Abbreviation Do_loop' :=
  (Do_loop Any Context Background json_Marshal url_Parse transport range_order).
Local Abbreviation Do' :=
  (Do Any Context Background json_Marshal url_Parse transport range_order).
Local Abbreviation JSON' :=
  (JSON Any Context Background json_Marshal json_Unmarshal url_Parse transport
     range_order).
Local Abbreviation WithContext' :=
  (WithContext Any Context json_Marshal url_Parse transport range_order).
Local Abbreviation build' :=
  (build Any Context json_Marshal url_Parse range_order).
Local Abbreviation bg := (Some Background).

Implicit Types (c : Client) (req : Request Any) (t : list (@Event Any Context)).

(** [req] with other query parameters. *)
Local Abbreviation with_query q req :=
  {| Method := Method req; URL := URL req; ReqHeaders := ReqHeaders req;
     ReqBody := ReqBody req; Query := q |}.

Lemma Do_loop_query c req q fuel : forall attempt lastErr t,
  Do_loop' c (with_query q req) fuel attempt lastErr t
  = Do_loop' c req fuel attempt lastErr t.
Proof.
  induction fuel as [|fuel IH]; intros attempt lastErr t; [done|].
  rewrite !Do_loop_turn.
  change (outcome Any Context json_Marshal url_Parse transport range_order c bg
            (with_query q req))
    with (outcome Any Context json_Marshal url_Parse transport range_order c bg req).
  change (attempt_events Any Context json_Marshal url_Parse range_order c bg
            (with_query q req))
    with (attempt_events Any Context json_Marshal url_Parse range_order c bg req).
  destruct (attempt <=? _); [|done].
  destruct (outcome _ _ _ _ _ _ _ _ _ _) as [response [e|]]; [|done].
  destruct (attempt =? _); [done|]. apply IH.
Qed.

(** X24. The query parameters of a request are never read: whatever the
    [Query] field holds, [Do], [JSON] and [WithContext] build the same
    request, leave the same events and return the same, and the URL of
    every request that goes out is the base URL followed by the URL of
    the request, with nothing appended. *)
Theorem Query_ignored c ctx req result q t :
  Do' c (with_query q req) t = Do' c req t
  /\ JSON' c (with_query q req) result t = JSON' c req result t
  /\ WithContext' c ctx (with_query q req) t = WithContext' c ctx req t
  /\ build' c ctx (with_query q req) = build' c ctx req
  /\ Forall (fun r => hURL r = baseURL c +:+ URL req)
        (sent_by (Do' c (with_query q req)) t).
Proof.
  assert (HDo : Do' c (with_query q req) t = Do' c req t).
  { unfold Do, mbind, M_bind. by rewrite Do_loop_query. }
  split; [done|]. split; [|split; [|split]].
  - unfold JSON, mbind, M_bind. by rewrite HDo.
  - by rewrite !WithContext_unfold.
  - done.
  - eapply Forall_impl;
      [apply (Do_sent_by Background json_Marshal url_Parse transport range_order)|].
    intros r Hb.
    by apply (build_parts json_Marshal url_Parse range_order) in Hb as (_ & HU & _).
Qed.

Hypothesis range_order_perm : forall m, range_order m ≡ₚ map_to_list m.

(** X25. Default headers are stored under the keys as given. Two keys
    that differ in spelling only, with one canonical name, are two
    entries, and the request goes out with the value of one of them:
    the one the iteration over the map visits last. *)
Theorem colliding_defaults c ctx req r k1 v1 k2 v2 :
  defaultHeaders c = {[k1 := v1; k2 := v2]} ->
  k1 <> k2 ->
  CanonicalMIMEHeaderKey k1 = CanonicalMIMEHeaderKey k2 ->
  no_name (ReqHeaders req) (CanonicalMIMEHeaderKey k1) ->
  ReqBody req = None \/ CanonicalMIMEHeaderKey k1 <> "Content-Type" ->
  build' c ctx req = inl r ->
  (range_order (defaultHeaders c) = [(k1, v1); (k2, v2)]
   /\ Header_Get k1 (hHeader r) = Some v2 /\ Header_Get k2 (hHeader r) = Some v2)
  \/ (range_order (defaultHeaders c) = [(k2, v2); (k1, v1)]
      /\ Header_Get k1 (hHeader r) = Some v1 /\ Header_Get k2 (hHeader r) = Some v1).
Proof.
  intros Hdef Hne Hcanon Hnone Hk Hb.
  rewrite (build_header json_Marshal url_Parse range_order c ctx req r Hb).
  unfold Header_Get. rewrite <- Hcanon.
  rewrite (outgoing_header_merge range_order c req _ Hk).
  rewrite lookup_union_r
    by (by eapply set_all_absent; [apply range_order_perm|]).
  pose proof (range_order_perm (defaultHeaders c)) as Hperm.
  rewrite Hdef in Hperm.
  rewrite map_to_list_insert in Hperm
    by (by rewrite lookup_singleton_ne).
  rewrite map_to_list_singleton in Hperm. rewrite <- Hdef in Hperm.
  symmetry in Hperm. apply Permutation_length_2_inv in Hperm as [Hl|Hl];
    rewrite Hl; [left|right]; (split; [done|]);
    unfold set_all, Header_Set; simpl; rewrite <- ?Hcanon;
    rewrite ?insert_insert_eq, ?lookup_insert_eq; done.
Qed.

End RequestFacts.

(** ** The further properties on the scenarios *)

Section MoreScenarios.

Import Scenario.
Import Sample.

Lemma scan_hex_scans : scans_hex scan_hex.
Proof. intros c d Hc Hd. unfold scan_hex. by rewrite Hc, Hd. Qed.

Lemma drawn_well_formed : well_formed drawn.
Proof. split; [reflexivity|]. repeat constructor; lia. Qed.

Lemma generated_well_formed : well_formed generated.
Proof. split; [reflexivity|]. repeat constructor; lia. Qed.

(** The default client against a remote side that refuses twice and
    answers then. *)
Lemma Do_attempts_bounded_witness :
  exists k,
    Z.of_nat k <= Z.max 0 (MaxRetries (retryConfig fresh))
    /\ slept (Do (flaky 2 200 "ok") order fresh get []).2
       = slept (nil : list (Event GoValue unit)) ++ (backoff_delay (retryConfig fresh) <$> seqZ 0 (Z.of_nat k))
    /\ (count is_send (Do (flaky 2 200 "ok") order fresh get []).2
        <= count is_send (nil : list (Event GoValue unit)) + Z.to_nat (MaxRetries (retryConfig fresh) + 1))%nat.
Proof.
  apply (Do_attempts_bounded tt marshal parse (flaky 2 200 "ok") order fresh
           get []).
  unfold max_int64. simpl. lia.
Defined.

(** A client with two default headers sends a body with a content type
    of the caller's, its [range] statements running forwards in one
    attempt and backwards in the next: three attempts, three times the
    same request. *)
Lemma Do_resends_same_request_witness :
  sent (Do_anew tt marshal parse (flaky 2 200 "ok") alternating
          token_client post_plain []).2
  = replicate 3 {| hMethod := "POST"; hURL := "http://h/x";
                   hHeader := {["Accept" := ["text/html"];
                                "X-Trace" := ["default"];
                                "Content-Type" := ["application/json"]]};
                   hBody := Some (text "true"); hCtx := tt |}
  /\ exists m,
       (m <= Z.to_nat (MaxRetries (retryConfig token_client) + 1))%nat
       /\ (0 <= MaxRetries (retryConfig token_client) -> (1 <= m)%nat)
       /\ sent (Do_anew tt marshal parse (flaky 2 200 "ok") alternating
                  token_client post_plain []).2
          = sent (nil : list (Event GoValue unit))
            ++ match build (alternating 0) token_client (Some tt) post_plain with
               | inl r => replicate m r
               | inr _ => []
               end
       /\ (forall defaults headers r,
             defaults ≡ₚ map_to_list (defaultHeaders token_client) ->
             headers ≡ₚ map_to_list (ReqHeaders post_plain) ->
             build (alternating 0) token_client (Some tt) post_plain = inl r ->
             hHeader r = header_in_order defaults headers post_plain)
       /\ count is_marshal
            (Do_anew tt marshal parse (flaky 2 200 "ok") alternating
               token_client post_plain []).2
          = (count is_marshal (nil : list (Event GoValue unit))
             + m * match ReqBody post_plain with Some _ => 1 | None => 0 end)%nat
       /\ Do_anew tt marshal parse (flaky 2 200 "ok") alternating
            token_client post_plain []
          = Do (flaky 2 200 "ok") (alternating 0) token_client post_plain [].
Proof.
  split; [vm_compute; reflexivity|].
  apply (Do_resends_same_request tt marshal parse (flaky 2 200 "ok")
           alternating token_client post_plain []).
  - unfold max_int64. simpl. lia.
  - intros k m. unfold alternating.
    destruct (Z.even k); [done|apply reverse_Permutation].
  - intros k [v Hk] k' [v' Hk'] Heq. simpl in Hk, Hk'.
    apply lookup_insert_Some in Hk as [[<- _]|[_ Hk]];
      [|apply lookup_insert_Some in Hk as [[<- _]|[_ Hk]]; [|done]];
      (apply lookup_insert_Some in Hk' as [[<- _]|[_ Hk']];
         [|apply lookup_insert_Some in Hk' as [[<- _]|[_ Hk']]; [|done]]);
      done.
  - intros k [v Hk] k' [v' Hk'] Heq. simpl in Hk, Hk'.
    apply lookup_singleton_Some in Hk as [<- _].
    by apply lookup_singleton_Some in Hk' as [<- _].
Defined.

(** Why the names have to be distinct: with the same header under two
    spellings the two orders of the map give different headers, and the
    attempts of one call send different requests when the orders change
    from attempt to attempt. *)
Lemma colliding_orders_differ :
  ~ distinct_names (defaultHeaders twice_accept)
  /\ header_in_order
       [("accept", "application/json"); ("Accept", "text/html")] [] get
     = {["Accept" := ["text/html"]]}
  /\ header_in_order
       [("Accept", "text/html"); ("accept", "application/json")] [] get
     = {["Accept" := ["application/json"]]}
  /\ Header_Get "Accept" ∘ hHeader
       <$> sent (Do_anew tt marshal parse refusing alternating
                   twice_accept get []).2
     = [Some "text/html"; Some "application/json";
        Some "text/html"; Some "application/json"].
Proof.
  split; [|split; [|split]]; [|reflexivity|reflexivity|vm_compute; reflexivity].
  intros H.
  pose proof (H "accept" ltac:(by eexists) "Accept" ltac:(by eexists) eq_refl).
  done.
Qed.

(** A client without retries against a remote side that refuses. *)
Lemma Do_without_retries_witness :
  MaxRetries (retryConfig guarded) = 0
  /\ (Do refusing order guarded get []).2
     = (WithContext refusing order guarded (Some tt) get []).2
  /\ slept (Do refusing order guarded get []).2 = []
  /\ (Do refusing order guarded get []).1
     = (None, Some (ErrAfterAttempts 1
                      (Some (ErrRequestFailed (ErrLib "connection refused"))))).
Proof.
  split; [reflexivity|].
  exact (Do_without_retries tt marshal parse refusing order guarded get []
           eq_refl).
Defined.

Lemma Do_negative_retries_witness :
  Do refusing order (retrying (-1) (1 * Second) (F64.of_int 2)) get []
  = (None, Some (ErrAfterAttempts (-1 + 1) None), [])
  /\ Unwrap (ErrAfterAttempts (-1 + 1) None) = None.
Proof.
  apply (Do_negative_retries tt marshal parse refusing order
           (retrying (-1) (1 * Second) (F64.of_int 2)) get []).
  unfold min_int64. simpl. lia.
Defined.

Lemma SetDefaultHeaders_union_witness :
  defaultHeaders
    (SetDefaultHeaders order {["x-trace" := "mine"; "x-new" := "1"]} token_client)
  = {["x-trace" := "mine"; "x-new" := "1"]} ∪ defaultHeaders token_client
  /\ defaultHeaders
       (SetDefaultHeaders order {["x-trace" := "mine"; "x-new" := "1"]}
          token_client) !! "accept" = Some "text/html".
Proof.
  pose proof (SetDefaultHeaders_union order
                {["x-trace" := "mine"; "x-new" := "1"]} token_client
                (fun m => reflexivity (map_to_list m)))
    as (Hunion & _ & Hkeep & _).
  split; [exact Hunion|]. rewrite Hkeep; reflexivity.
Defined.

Lemma pow_integer_power_witness :
  pow (F64.of_int 2) (F64.of_int 10) = F64.of_int (2 ^ 10).
Proof. apply (pow_integer_power 2 10); lia. Defined.

Lemma pow_below_one_witness :
  SFltb half F64.one = true /\ pow (F64.of_int 4) half = F64.one.
Proof.
  split; [reflexivity|]. apply (pow_below_one (F64.of_int 4) half); reflexivity.
Defined.

(** Two and a half as an exponent counts as two. *)
Lemma pow_drops_fraction_witness :
  pow (F64.of_int 3) (F64.dyadic 5 (-1)) = pow (F64.of_int 3) (F64.of_int (Z.shiftl 5 (-1)))
  /\ F64.to_int (F64.dyadic 5 (-1)) = Z.shiftl 5 (-1).
Proof.
  apply (pow_drops_fraction (F64.of_int 3) 5 (-1)).
  - lia.
  - vm_compute. discriminate.
  - vm_compute. reflexivity.
Defined.

Lemma burst_then_blocks_witness :
  exists s0 s,
    NewRateLimiter Z.of_nat (100 * Millisecond) 3 = Some s0
    /\ run (mjoin (Wait <$> [10; 11; 12])) s0 = Some s
    /\ tokens s = 3 - Z.of_nat (length [10; 11; 12])
    /\ callers s = [] /\ refills s = [10; 11; 12]
    /\ (Z.of_nat (length [10; 11; 12]) = 3 ->
        forall now,
          run (Wait now) s = None
          /\ ([10; 11; 12] <> [] -> is_Some (run (ActRefill 0 :: Wait now) s))).
Proof.
  apply (burst_then_blocks Z.of_nat (100 * Millisecond) 3 [10; 11; 12]).
  simpl. lia.
Defined.

Lemma pool_refills_witness :
  NewRateLimiter Z.of_nat (100 * Millisecond) 3 = Some limiter3
  /\ run (Wait 10 ++ Wait 11 ++ [ActRefill 0]) limiter3 = Some limiter3_used
  /\ exists s',
       run (replicate (length (refills limiter3_used)) (ActRefill 0)) limiter3_used
       = Some s'
       /\ tokens s' = 3
       /\ chan_buf (requests (limiter s'))
          = chan_buf (requests (limiter limiter3_used)) ++ refills limiter3_used
       /\ callers s' = [] /\ refills s' = [].
Proof.
  split; [reflexivity|]. split; [reflexivity|].
  apply (pool_refills Z.of_nat (100 * Millisecond) 3 limiter3
           (Wait 10 ++ Wait 11 ++ [ActRefill 0]) limiter3_used); reflexivity.
Defined.

Lemma NewV4_version_and_variant_witness :
  (exists u,
     NewV4 (drawn, None) = (u, None) /\ MustNewV4 (drawn, None) = Some u
     /\ well_formed u
     /\ (byte_at 6 u / 16 = 4 /\ byte_at 6 u mod 16 = byte_at 6 drawn mod 16)
     /\ (byte_at 8 u / 64 = 2 /\ byte_at 8 u mod 64 = byte_at 8 drawn mod 64)
     /\ forall i, i <> 6%nat -> i <> 8%nat -> byte_at i u = byte_at i drawn)
  /\ NewV4 (drawn, None) = (generated, None).
Proof.
  split; [|reflexivity].
  apply (NewV4_version_and_variant drawn).
  split; [reflexivity|]. repeat constructor; lia.
Defined.

Lemma NewUUIDString_valid_witness :
  NewUUIDString (drawn, None) = ("12345678-9abc-4def-8123-456789abcd0f", None)
  /\ exists u text,
       NewV4 (drawn, None) = (u, None)
       /\ NewUUIDString (drawn, None) = (text, None)
       /\ MustNewUUIDString (drawn, None) = Some text
       /\ text = UUID_String u
       /\ String.length text = 36%nat
       /\ IsValid text = true
       /\ Parse scan_hex text = (u, None).
Proof.
  split; [reflexivity|].
  apply (NewUUIDString_valid scan_hex drawn).
  - intros c d Hc Hd. unfold scan_hex. rewrite Hc, Hd. reflexivity.
  - split; [reflexivity|]. repeat constructor; lia.
Defined.

(** The bytes as drawn have version 15 and variant 00: their text is
    refused. *)
Lemma Parse_String_roundtrip_witness :
  (IsValid (UUID_String generated) = true
   /\ Parse scan_hex (UUID_String generated) = (generated, None))
  /\ (IsValid (UUID_String drawn) = false
      /\ Parse scan_hex (UUID_String drawn) = (zero_UUID, Some ErrFormat)).
Proof.
  split.
  - apply (Parse_String_roundtrip scan_hex generated).
    + intros c d Hc Hd. unfold scan_hex. rewrite Hc, Hd. reflexivity.
    + split; [reflexivity|]. repeat constructor; lia.
    + split; reflexivity.
  - split; reflexivity.
Defined.

Lemma Parse_valid_iff_witness :
  IsValid "12345678-9abc-4def-8123-456789abcd0f" = true
  /\ exists u,
       Parse scan_hex "12345678-9abc-4def-8123-456789abcd0f" = (u, None)
       /\ well_formed u
       /\ UUID_String u = "12345678-9abc-4def-8123-456789abcd0f"
       /\ byte_at 6 u / 16 = 4 /\ byte_at 8 u / 64 = 2.
Proof.
  split; [reflexivity|].
  apply (Parse_valid_iff scan_hex "12345678-9abc-4def-8123-456789abcd0f").
  - intros c d Hc Hd. unfold scan_hex. rewrite Hc, Hd. reflexivity.
  - reflexivity.
Defined.

Lemma NewWithNamespace_never_valid_witness :
  NewWithNamespace (drawn, None) "user"
  = ("12345678-9abc-4def-8123-456789abcd0f-user", None)
  /\ exists u id,
       NewV4 (drawn, None) = (u, None)
       /\ NewWithNamespace (drawn, None) "user" = (id, None)
       /\ id = UUID_String u +:+ "-" +:+ "user"
       /\ String.length id = (37 + String.length "user")%nat
       /\ IsValid id = false
       /\ Parse scan_hex id = (zero_UUID, Some ErrFormat).
Proof.
  split; [reflexivity|].
  apply (NewWithNamespace_never_valid scan_hex drawn "user").
  split; [reflexivity|]. repeat constructor; lia.
Defined.

Lemma UUID_String_shape_witness :
  UUID_String generated = "12345678-9abc-4def-8123-456789abcd0f"
  /\ String.length (UUID_String generated) = 36%nat
  /\ (String.get 8 (UUID_String generated) = Some "-"%char
      /\ String.get 13 (UUID_String generated) = Some "-"%char
      /\ String.get 18 (UUID_String generated) = Some "-"%char
      /\ String.get 23 (UUID_String generated) = Some "-"%char)
  /\ remove_all "-" (UUID_String generated) = hex generated
  /\ String.length (hex generated) = 32%nat
  /\ forall v, well_formed v -> UUID_String generated = UUID_String v ->
       generated = v.
Proof.
  split; [reflexivity|].
  apply (UUID_String_shape generated).
  split; [reflexivity|]. repeat constructor; lia.
Defined.

(** Which of the two values goes out is a matter of the iteration
    order; here the later spelling is visited last. *)
Lemma colliding_defaults_witness :
  (order (defaultHeaders twice_accept)
   = [("accept", "application/json"); ("Accept", "text/html")]
   /\ Header_Get "accept" (hHeader get_accept_sent) = Some "text/html"
   /\ Header_Get "Accept" (hHeader get_accept_sent) = Some "text/html")
  \/ (order (defaultHeaders twice_accept)
      = [("Accept", "text/html"); ("accept", "application/json")]
      /\ Header_Get "accept" (hHeader get_accept_sent) = Some "application/json"
      /\ Header_Get "Accept" (hHeader get_accept_sent) = Some "application/json").
Proof.
  apply (colliding_defaults marshal parse order
           (fun m => reflexivity (map_to_list m))
           twice_accept (Some tt) get get_accept_sent
           "accept" "application/json" "Accept" "text/html").
  - vm_compute. reflexivity.
  - discriminate.
  - reflexivity.
  - intros k' _. reflexivity.
  - left. reflexivity.
  - vm_compute. reflexivity.
Defined.

End MoreScenarios.
